(** * The stroke-to-stamp pipeline of the painting canvas

    A shallow embedding of [lib/core/math/Spline.ts], [lib/core/brushes/Brush.ts],
    [lib/core/InputManager.ts] and the script of [lib/components/Canvas.svelte].

    Numbers.  A JavaScript [number] is a double.  The component is embedded
    over the real numbers: [+], [-], [*] and [/] are the field operations of
    [R], [Math.hypot] is the square root of the sum of squares, [Math.max] is
    [Rmax], [Math.ceil] is the integer ceiling; what is proved of it are
    properties of the control flow and of the values the code passes on.  The
    two functions of [Spline.ts], of which the specification states equalities
    and an order of computed numbers, are embedded three times: without
    rounding ([Spline]); with the rounding of every operation written out
    ([Rounded]), for any rounding function that keeps 0 and returns a result
    of absolute value at most [omega] with a relative error of at most [u]
    and an absolute error of at most [eta], as rounding to the nearest double
    does with [u = 2^-53], [eta = 2^-1075] and [omega] the greatest double;
    and on the doubles themselves ([Binary64]), where the code is run on
    concrete numbers.  NaN and the infinities occur in [Binary64] only.  A
    loop counter is a [nat], an array index an integer.

    Effects.  The component variables of [Canvas.svelte] and the part of the
    browser they act on (the children of the stage, the pending timeouts, the
    values handed out by [Math.random]) form one explicit [State]; every
    function of the script is a state transformer.  A function that can throw
    returns an [Outcome], which keeps the state reached when the exception
    left the function.  [Math.random] and the renderer are parameters of the
    embedding.

    Scope.  The embedding of the canvas starts from the state that [onMount]
    leaves ([mounted]); [onDestroy] and the markup of the component are not
    modelled.  The loading of the brush textures is embedded apart
    ([Loading]), with the asset loader as a parameter.  Of the colour picker
    and the toolbar the file embeds the functions that compute: the
    conversions between hexadecimal strings, RGB and HSL of [colorUtils.ts],
    the geometry of the wheel of [ColorDisc.svelte] and [snapToEdge] of the
    toolbar.  The first part of the file is the embedding, the second part
    states and proves the properties. *)

From Stdlib Require Import Reals Lra Lia ZArith List Bool Arith.
From Stdlib Require String Ascii PrimFloat.
Import ListNotations.

Open Scope R_scope.

(** ** PIXI.Point *)

Record Point : Type := mkPoint { px : R; py : R }.

(** ** Spline.ts *)

Module Spline.

(** [Math.hypot(a, b)]. *)
Definition hypot (a b : R) : R := sqrt (a * a + b * b).

(** [catmullRomPoint(t, p0, p1, p2, p3)]. *)
Definition catmullRomPoint (t : R) (p0 p1 p2 p3 : Point) : Point :=
  let t2 := t * t in
  let t3 := t2 * t in
  let x := 0.5 * (
    (2 * px p1) +
    (- px p0 + px p2) * t +
    (2 * px p0 - 5 * px p1 + 4 * px p2 - px p3) * t2 +
    (- px p0 + 3 * px p1 - 3 * px p2 + px p3) * t3) in
  let y := 0.5 * (
    (2 * py p1) +
    (- py p0 + py p2) * t +
    (2 * py p0 - 5 * py p1 + 4 * py p2 - py p3) * t2 +
    (- py p0 + 3 * py p1 - 3 * py p2 + py p3) * t3) in
  mkPoint x y.

(** The [for] loop of [catmullRomLength], run for the [k] counter values
    [i], [i+1], ..., [i+k-1]; the loop state is [(length, prevPoint)]. *)
Fixpoint lengthLoop (p0 p1 p2 p3 : Point) (samples : nat)
    (k i : nat) (length : R) (prevPoint : Point) : R :=
  match k with
  | O => length
  | S k' =>
      let t := INR i / INR samples in
      let currPoint := catmullRomPoint t p0 p1 p2 p3 in
      let length' :=
        length + hypot (px currPoint - px prevPoint) (py currPoint - py prevPoint) in
      lengthLoop p0 p1 p2 p3 samples k' (S i) length' currPoint
  end.

(** [catmullRomLength(p0, p1, p2, p3, samples)]:
    [for (let i = 1; i <= samples; i++)], starting from [length = 0] and
    [prevPoint = p1]. *)
Definition catmullRomLength (p0 p1 p2 p3 : Point) (samples : nat) : R :=
  lengthLoop p0 p1 p2 p3 samples samples 1%nat 0 p1.

(** The default value of the parameter [samples]. *)
Definition defaultSamples : nat := 20.

End Spline.

Import Spline.

(** ** Spline.ts in rounded arithmetic *)

(** The same two functions with the rounding of every operation written out.
    [rnd x] is the double an operation returns when its exact result is [x],
    and [hypotFl a b] is the double [Math.hypot(a, b)] returns.  The literals
    [0.5], [2], [3], [4] and [5], the loop counter and [samples] are doubles;
    the unary minus changes the sign only. *)
Module Rounded.

Section Arithmetic.

Variable rnd : R -> R.
Variable hypotFl : R -> R -> R.

Definition add (a b : R) : R := rnd (a + b).

Definition sub (a b : R) : R := rnd (a - b).

Definition mul (a b : R) : R := rnd (a * b).

Definition div (a b : R) : R := rnd (a / b).

Local Notation "a [+] b" := (add a b) (at level 50, left associativity).
Local Notation "a [-] b" := (sub a b) (at level 50, left associativity).
Local Notation "a [*] b" := (mul a b) (at level 40, left associativity).
Local Notation "a [/] b" := (div a b) (at level 40, left associativity).

(** [catmullRomPoint(t, p0, p1, p2, p3)]. *)
Definition catmullRomPoint (t : R) (p0 p1 p2 p3 : Point) : Point :=
  let t2 := t [*] t in
  let t3 := t2 [*] t in
  let x := 0.5 [*] (
    (2 [*] px p1) [+]
    (- px p0 [+] px p2) [*] t [+]
    (2 [*] px p0 [-] 5 [*] px p1 [+] 4 [*] px p2 [-] px p3) [*] t2 [+]
    (- px p0 [+] 3 [*] px p1 [-] 3 [*] px p2 [+] px p3) [*] t3) in
  let y := 0.5 [*] (
    (2 [*] py p1) [+]
    (- py p0 [+] py p2) [*] t [+]
    (2 [*] py p0 [-] 5 [*] py p1 [+] 4 [*] py p2 [-] py p3) [*] t2 [+]
    (- py p0 [+] 3 [*] py p1 [-] 3 [*] py p2 [+] py p3) [*] t3) in
  mkPoint x y.

(** The [for] loop of [catmullRomLength], as in [Spline.lengthLoop]. *)
Fixpoint lengthLoop (p0 p1 p2 p3 : Point) (samples : nat)
    (k i : nat) (length : R) (prevPoint : Point) : R :=
  match k with
  | O => length
  | S k' =>
      let t := INR i [/] INR samples in
      let currPoint := catmullRomPoint t p0 p1 p2 p3 in
      let length' :=
        length [+] hypotFl (px currPoint [-] px prevPoint)
                           (py currPoint [-] py prevPoint) in
      lengthLoop p0 p1 p2 p3 samples k' (S i) length' currPoint
  end.

(** [catmullRomLength(p0, p1, p2, p3, samples)]. *)
Definition catmullRomLength (p0 p1 p2 p3 : Point) (samples : nat) : R :=
  lengthLoop p0 p1 p2 p3 samples samples 1%nat 0 p1.

End Arithmetic.

End Rounded.

(** ** Spline.ts in binary64 *)

(** [catmullRomPoint] on the doubles themselves: the primitive floating-point
    numbers of Rocq are the binary64 numbers of IEEE 754 with rounding to
    nearest, ties to even, which is the arithmetic of a JavaScript [number]. *)
Module Binary64.

Import PrimFloat.

Record Point : Type := mkPoint { px : float; py : float }.

Definition catmullRomPoint (t : float) (p0 p1 p2 p3 : Point) : Point :=
  (let t2 := t * t in
   let t3 := t2 * t in
   let x := 0.5 * (
     (2 * px p1) +
     (- px p0 + px p2) * t +
     (2 * px p0 - 5 * px p1 + 4 * px p2 - px p3) * t2 +
     (- px p0 + 3 * px p1 - 3 * px p2 + px p3) * t3) in
   let y := 0.5 * (
     (2 * py p1) +
     (- py p0 + py p2) * t +
     (2 * py p0 - 5 * py p1 + 4 * py p2 - py p3) * t2 +
     (- py p0 + 3 * py p1 - 3 * py p2 + py p3) * t3) in
   mkPoint x y)%float.

End Binary64.

(** ** Brush.ts *)

(** A texture handle: [PIXI.Texture.EMPTY], an asset loaded from a file, a
    texture drawn by the component itself (the fallback brush), or the [n]-th
    texture made by [renderer.generateTexture]. *)
Inductive Texture : Type :=
| TextureEmpty
| TextureAsset (n : nat)
| TextureFallback
| TextureRendered (n : nat).

Definition Texture_eqb (a b : Texture) : bool :=
  match a, b with
  | TextureEmpty, TextureEmpty => true
  | TextureAsset n, TextureAsset m => Nat.eqb n m
  | TextureFallback, TextureFallback => true
  | TextureRendered n, TextureRendered m => Nat.eqb n m
  | _, _ => false
  end.

(** [class Brush] with its three interfaces flattened into one record.  The
    field [color] holds the integer that
    [parseInt(brush.color.replace(/^#/, ''), 16)] yields for the colour
    string. *)
Record Brush : Type := mkBrush {
  shape_texture : Texture;
  shape_grainTexture : Texture;
  stroke_spacing : R;
  stroke_jitter : R;
  stroke_falloff : R;
  grain_scale : R;
  grain_intensity : R;
  grain_rotation : R;
  size : R;
  color : Z;
  alpha : R
}.

(** The constructor of [Brush]. *)
Definition newBrush : Brush :=
  {| shape_texture := TextureEmpty;
     shape_grainTexture := TextureEmpty;
     stroke_spacing := 0.05;
     stroke_jitter := 0;
     stroke_falloff := 0;
     grain_scale := 1.0;
     grain_intensity := 0.5;
     grain_rotation := 0;
     size := 50;
     color := 0;
     alpha := 1.0 |}.

Definition set_size (v : R) (b : Brush) : Brush :=
  mkBrush (shape_texture b) (shape_grainTexture b) (stroke_spacing b)
    (stroke_jitter b) (stroke_falloff b) (grain_scale b) (grain_intensity b)
    (grain_rotation b) v (color b) (alpha b).

Definition set_color (v : Z) (b : Brush) : Brush :=
  mkBrush (shape_texture b) (shape_grainTexture b) (stroke_spacing b)
    (stroke_jitter b) (stroke_falloff b) (grain_scale b) (grain_intensity b)
    (grain_rotation b) (size b) v (alpha b).

(** ** PIXI.Sprite *)

Inductive BlendMode : Type := BlendNormal | BlendMultiply.

(** A sprite object.  [sprite_id] is its identity (the order of allocation);
    the other fields are the properties the script assigns.  A filter is a
    [ColorMatrixFilter], given by the twenty entries of its matrix. *)
Record Sprite : Type := mkSprite {
  sprite_id : nat;
  sprite_texture : Texture;
  sprite_anchor : R;
  sprite_x : R;
  sprite_y : R;
  sprite_width : R;
  sprite_height : R;
  sprite_rotation : R;
  sprite_alpha : R;
  sprite_blendMode : BlendMode;
  sprite_filters : list (list R)
}.

(** ** Canvas.svelte: the state *)

(** The arguments of one call of [drawSplineSegment]. *)
Record Segment : Type := mkSegment {
  seg_p0 : Point;
  seg_p1 : Point;
  seg_p2 : Point;
  seg_p3 : Point;
  seg_pressure1 : R;
  seg_pressure2 : R
}.

(** The arguments of one call of [paintBrush]. *)
Record StampRequest : Type := mkStampRequest {
  req_x : R;
  req_y : R;
  req_pressure : R
}.

(** The component variables ([isDrawing] ... [flattenTimeout]; the field
    [permanentTexture] is [permanentSprite.texture]), the browser state they
    act on ([stage]: the children of [app.stage] after [permanentSprite];
    [timers]: the ids of the pending timeouts, whose callback is always
    [flatten]; [nextTimer], [nextSprite]: the next timer id and sprite
    identity; [randoms]: how many values [Math.random] has returned), and
    three logs that the script does not keep: the identities of the sprites
    destroyed so far, the calls of [drawSplineSegment] and the calls of
    [paintBrush], oldest first. *)
Record State : Type := mkState {
  isDrawing : bool;
  brush : Brush;
  pathPoints : list Point;
  pressurePoints : list R;
  trail : list Sprite;
  permanentTexture : Texture;
  flattenTimeout : option nat;
  stage : list Sprite;
  timers : list nat;
  nextTimer : nat;
  nextSprite : nat;
  randoms : nat;
  destroyed : list nat;
  segments : list Segment;
  requests : list StampRequest
}.

Definition set_isDrawing (v : bool) (s : State) : State :=
  mkState v (brush s) (pathPoints s) (pressurePoints s) (trail s)
    (permanentTexture s) (flattenTimeout s) (stage s) (timers s) (nextTimer s)
    (nextSprite s) (randoms s) (destroyed s) (segments s) (requests s).

Definition set_brush (v : Brush) (s : State) : State :=
  mkState (isDrawing s) v (pathPoints s) (pressurePoints s) (trail s)
    (permanentTexture s) (flattenTimeout s) (stage s) (timers s) (nextTimer s)
    (nextSprite s) (randoms s) (destroyed s) (segments s) (requests s).

Definition set_pathPoints (v : list Point) (s : State) : State :=
  mkState (isDrawing s) (brush s) v (pressurePoints s) (trail s)
    (permanentTexture s) (flattenTimeout s) (stage s) (timers s) (nextTimer s)
    (nextSprite s) (randoms s) (destroyed s) (segments s) (requests s).

Definition set_pressurePoints (v : list R) (s : State) : State :=
  mkState (isDrawing s) (brush s) (pathPoints s) v (trail s) (permanentTexture
    s) (flattenTimeout s) (stage s) (timers s) (nextTimer s) (nextSprite s)
    (randoms s) (destroyed s) (segments s) (requests s).

Definition set_trail (v : list Sprite) (s : State) : State :=
  mkState (isDrawing s) (brush s) (pathPoints s) (pressurePoints s) v
    (permanentTexture s) (flattenTimeout s) (stage s) (timers s) (nextTimer s)
    (nextSprite s) (randoms s) (destroyed s) (segments s) (requests s).

Definition set_permanentTexture (v : Texture) (s : State) : State :=
  mkState (isDrawing s) (brush s) (pathPoints s) (pressurePoints s) (trail s)
    v (flattenTimeout s) (stage s) (timers s) (nextTimer s) (nextSprite s)
    (randoms s) (destroyed s) (segments s) (requests s).

Definition set_flattenTimeout (v : option nat) (s : State) : State :=
  mkState (isDrawing s) (brush s) (pathPoints s) (pressurePoints s) (trail s)
    (permanentTexture s) v (stage s) (timers s) (nextTimer s) (nextSprite s)
    (randoms s) (destroyed s) (segments s) (requests s).

Definition set_stage (v : list Sprite) (s : State) : State :=
  mkState (isDrawing s) (brush s) (pathPoints s) (pressurePoints s) (trail s)
    (permanentTexture s) (flattenTimeout s) v (timers s) (nextTimer s)
    (nextSprite s) (randoms s) (destroyed s) (segments s) (requests s).

Definition set_timers (v : list nat) (s : State) : State :=
  mkState (isDrawing s) (brush s) (pathPoints s) (pressurePoints s) (trail s)
    (permanentTexture s) (flattenTimeout s) (stage s) v (nextTimer s)
    (nextSprite s) (randoms s) (destroyed s) (segments s) (requests s).

Definition set_nextTimer (v : nat) (s : State) : State :=
  mkState (isDrawing s) (brush s) (pathPoints s) (pressurePoints s) (trail s)
    (permanentTexture s) (flattenTimeout s) (stage s) (timers s) v (nextSprite
    s) (randoms s) (destroyed s) (segments s) (requests s).

Definition set_nextSprite (v : nat) (s : State) : State :=
  mkState (isDrawing s) (brush s) (pathPoints s) (pressurePoints s) (trail s)
    (permanentTexture s) (flattenTimeout s) (stage s) (timers s) (nextTimer s)
    v (randoms s) (destroyed s) (segments s) (requests s).

Definition set_randoms (v : nat) (s : State) : State :=
  mkState (isDrawing s) (brush s) (pathPoints s) (pressurePoints s) (trail s)
    (permanentTexture s) (flattenTimeout s) (stage s) (timers s) (nextTimer s)
    (nextSprite s) v (destroyed s) (segments s) (requests s).

Definition set_destroyed (v : list nat) (s : State) : State :=
  mkState (isDrawing s) (brush s) (pathPoints s) (pressurePoints s) (trail s)
    (permanentTexture s) (flattenTimeout s) (stage s) (timers s) (nextTimer s)
    (nextSprite s) (randoms s) v (segments s) (requests s).

Definition set_segments (v : list Segment) (s : State) : State :=
  mkState (isDrawing s) (brush s) (pathPoints s) (pressurePoints s) (trail s)
    (permanentTexture s) (flattenTimeout s) (stage s) (timers s) (nextTimer s)
    (nextSprite s) (randoms s) (destroyed s) v (requests s).

Definition set_requests (v : list StampRequest) (s : State) : State :=
  mkState (isDrawing s) (brush s) (pathPoints s) (pressurePoints s) (trail s)
    (permanentTexture s) (flattenTimeout s) (stage s) (timers s) (nextTimer s)
    (nextSprite s) (randoms s) (destroyed s) (segments s) v.

Inductive Exception : Type :=
| TypeError      (** a property of [undefined] was read *)
| RenderError    (** [renderer.generateTexture] threw *)
| NotANumber.    (** an [undefined] entered arithmetic: the source goes on
                     with NaN, which the embedding of numbers does not have *)

Inductive Outcome : Type :=
| Done (s : State)
| Thrown (e : Exception) (s : State).

Definition Handler : Type := State -> Outcome.

(** The state in which the event loop goes on. *)
Definition after (o : Outcome) : State :=
  match o with Done s => s | Thrown _ s => s end.

Definition threw (o : Outcome) : bool :=
  match o with Done _ => false | Thrown _ _ => true end.

(** ** Arrays and JavaScript operators *)

(** [a[i]]: [None] is [undefined]. *)
Definition index {A : Type} (a : list A) (i : Z) : option A :=
  if (i <? 0)%Z then None else nth_error a (Z.to_nat i).

(** [a.length]. *)
Definition len {A : Type} (a : list A) : Z := Z.of_nat (length a).

(** [a.pop()]: the last element, and the array without it. *)
Definition pop {A : Type} (a : list A) : option A * list A :=
  match rev a with
  | [] => (None, [])
  | x :: r => (Some x, rev r)
  end.

(** [a || b] on objects: every object is truthy, [undefined] is not. *)
Definition orElse {A : Type} (a b : option A) : option A :=
  match a with Some v => Some v | None => b end.

(** [a || b] on numbers: [0] and [undefined] are falsy. *)
Definition orElseNumber (a b : option R) : option R :=
  match a with
  | Some v => if Req_dec_T v 0 then b else Some v
  | None => b
  end.

(** [Math.ceil]. *)
Definition ceil (x : R) : Z := (- Int_part (- x))%Z.

(** ** Canvas.svelte: the stamp compositor *)

(** The matrix given to the [ColorMatrixFilter]. *)
Definition colorMatrix (r g b : R) : list R :=
  [ 0; 0; 0; 0; r;
    0; 0; 0; 0; g;
    0; 0; 0; 0; b;
    0; 0; 0; 1; 0 ].

(** [pressure > 0 ? pressure : 0.5], in [paintBrush] and, on the average
    pressure, in [drawSplineSegment]. *)
Definition actualPressure (pressure : R) : R :=
  if Rgt_dec pressure 0 then pressure else 0.5.

Section Canvas.

(** [random k] is the value of the [k]-th call of [Math.random], in $[0,1)$
    in a browser; [generateTexture perm children] is the texture that
    [app.renderer.generateTexture({ target: app.stage })] returns for a stage
    made of the permanent sprite with texture [perm] and of [children], or
    [None] when the call throws. *)
Variable random : nat -> R.
Variable generateTexture : Texture -> list Sprite -> option Texture.

(** [paintBrush(x, y, pressure)]. *)
Definition paintBrush (x y pressure : R) (s : State) : State :=
  let s := set_requests (requests s ++ [mkStampRequest x y pressure]) s in
  let b := brush s in
  let actualPressure := actualPressure pressure in
  let stampSize := size b * actualPressure in
  let stampId := nextSprite s in
  let s := set_nextSprite (S stampId) s in
  let jitter := stampSize * stroke_jitter b in
  let randomX := x + (random (randoms s) - 0.5) * jitter in
  let s := set_randoms (S (randoms s)) s in
  let randomY := y + (random (randoms s) - 0.5) * jitter in
  let s := set_randoms (S (randoms s)) s in
  let colorHex := color b in
  let r := IZR (Z.land (Z.shiftr colorHex 16) 255) / 255 in
  let g := IZR (Z.land (Z.shiftr colorHex 8) 255) / 255 in
  let bl := IZR (Z.land colorHex 255) / 255 in
  let filters := [colorMatrix r g bl] in
  let s :=
    if negb (Texture_eqb (shape_grainTexture b) TextureEmpty) then
      let grainSprite :=
        {| sprite_id := nextSprite s;
           sprite_texture := shape_grainTexture b;
           sprite_anchor := 0.5;
           sprite_x := randomX;
           sprite_y := randomY;
           sprite_width := stampSize * grain_scale b;
           sprite_height := stampSize * grain_scale b;
           sprite_rotation := grain_rotation b;
           sprite_alpha := grain_intensity b;
           sprite_blendMode := BlendMultiply;
           sprite_filters := [] |} in
      let s := set_nextSprite (S (nextSprite s)) s in
      let s := set_stage (stage s ++ [grainSprite]) s in
      set_trail (trail s ++ [grainSprite]) s
    else s in
  let stamp :=
    {| sprite_id := stampId;
       sprite_texture := shape_texture b;
       sprite_anchor := 0.5;
       sprite_x := randomX;
       sprite_y := randomY;
       sprite_width := stampSize;
       sprite_height := stampSize;
       sprite_rotation := 0;
       sprite_alpha := Rmax 0.2 (actualPressure * alpha b);
       sprite_blendMode := BlendNormal;
       sprite_filters := filters |} in
  let s := set_stage (stage s ++ [stamp]) s in
  set_trail (trail s ++ [stamp]) s.

(** ** Canvas.svelte: the stroke segmenter *)

(** The constants [spacing] and [numSteps] of [drawSplineSegment]. *)
Definition spacing (b : Brush) (pressure1 pressure2 : R) : R :=
  let avgPressure := (pressure1 + pressure2) / 2 in
  let actualPressure := actualPressure avgPressure in
  let brushSize := size b * actualPressure in
  Rmax 1 (brushSize * stroke_spacing b).

Definition numSteps (b : Brush) (p0 p1 p2 p3 : Point) (pressure1 pressure2 : R) : Z :=
  let segmentLength := catmullRomLength p0 p1 p2 p3 defaultSamples in
  Z.max 1 (ceil (segmentLength / spacing b pressure1 pressure2)).

(** The [for] loop of [drawSplineSegment], run for the [k] counter values
    [i], ..., [i+k-1]. *)
Fixpoint stampLoop (p0 p1 p2 p3 : Point) (pressure1 pressure2 : R) (numSteps : Z)
    (k i : nat) (s : State) : State :=
  match k with
  | O => s
  | S k' =>
      let t := INR i / IZR numSteps in
      let pointOnSpline := catmullRomPoint t p0 p1 p2 p3 in
      let interpolatedPressure := pressure1 + (pressure2 - pressure1) * t in
      stampLoop p0 p1 p2 p3 pressure1 pressure2 numSteps k' (S i)
        (paintBrush (px pointOnSpline) (py pointOnSpline) interpolatedPressure s)
  end.

(** [drawSplineSegment(p0, p1, p2, p3, pressure1, pressure2)]:
    [for (let i = 0; i <= numSteps; i++)]. *)
Definition drawSplineSegment (p0 p1 p2 p3 : Point) (pressure1 pressure2 : R)
    (s : State) : State :=
  let s := set_segments
             (segments s ++ [mkSegment p0 p1 p2 p3 pressure1 pressure2]) s in
  let numSteps := numSteps (brush s) p0 p1 p2 p3 pressure1 pressure2 in
  stampLoop p0 p1 p2 p3 pressure1 pressure2 numSteps
    (S (Z.to_nat numSteps)) 0 s.

(** A call of [drawSplineSegment] on values read from the arrays: an
    [undefined] point throws when [catmullRomLength] reads its [x]. *)
Definition drawSplineSegment' (p0 p1 p2 p3 : option Point)
    (pressure1 pressure2 : option R) : Handler := fun s =>
  match p0, p1, p2, p3 with
  | Some p0, Some p1, Some p2, Some p3 =>
      match pressure1, pressure2 with
      | Some pressure1, Some pressure2 =>
          Done (drawSplineSegment p0 p1 p2 p3 pressure1 pressure2 s)
      | _, _ => Thrown NotANumber s
      end
  | _, _, _, _ => Thrown TypeError s
  end.

(** ** Canvas.svelte: the path tracker *)

(** A [FederatedPointerEvent], as far as the script reads it. *)
Record PointerEvent : Type := mkPointerEvent {
  global : Point;
  pressure : R
}.

(** [onDrawStart(event)]. *)
Definition onDrawStart (event : PointerEvent) (s : State) : State :=
  let s := set_isDrawing true s in
  let s := set_pathPoints [global event] s in
  set_pressurePoints [pressure event] s.

(** [onDrawMove(event)]. *)
Definition onDrawMove (event : PointerEvent) : Handler := fun s =>
  if negb (isDrawing s) then Done s else
  let newPoint := global event in
  match index (pathPoints s) (len (pathPoints s) - 1) with
  | None => Thrown TypeError s
  | Some lastPoint =>
      if Rlt_dec (hypot (px newPoint - px lastPoint) (py newPoint - py lastPoint)) 4
      then Done s else
      let s := set_pathPoints (pathPoints s ++ [newPoint]) s in
      let s := set_pressurePoints (pressurePoints s ++ [pressure event]) s in
      if (len (pathPoints s) =? 2)%Z then
        let p0 := index (pathPoints s) 0 in
        let p1 := index (pathPoints s) 0 in
        let p2 := index (pathPoints s) 1 in
        let p3 := index (pathPoints s) 1 in
        let pressure1 := index (pressurePoints s) 0 in
        let pressure2 := index (pressurePoints s) 1 in
        drawSplineSegment' p0 p1 p2 p3 pressure1 pressure2 s
      else
      let i := (len (pathPoints s) - 2)%Z in
      if (i <? 1)%Z then Done s else
      let p0 := orElse (index (pathPoints s) (i - 1)) (index (pathPoints s) i) in
      let p1 := index (pathPoints s) i in
      let p2 := index (pathPoints s) (i + 1) in
      let p3 := orElse (index (pathPoints s) (i + 2)) p2 in
      let pressure1 := index (pressurePoints s) i in
      let pressure2 := index (pressurePoints s) (i + 1) in
      drawSplineSegment' p0 p1 p2 p3 pressure1 pressure2 s
  end.

(** ** Canvas.svelte: flattening *)

(** [clearTimeout(id)] and [setTimeout(flatten, 500)]; the delay is not
    modelled: a pending timeout may fire at any later turn of the event
    loop. *)
Definition clearTimeout (id : nat) (s : State) : State :=
  set_timers (filter (fun j => negb (Nat.eqb j id)) (timers s)) s.

Definition setTimeout (s : State) : nat * State :=
  let id := nextTimer s in
  (id, set_nextTimer (S id) (set_timers (timers s ++ [id]) s)).

(** [scheduleFlatten()]; a timer id is truthy when it is not [0]. *)
Definition scheduleFlatten (s : State) : State :=
  let s := match flattenTimeout s with
           | Some id => if Nat.eqb id 0 then s else clearTimeout id s
           | None => s
           end in
  let (id, s) := setTimeout s in
  set_flattenTimeout (Some id) s.

(** [sprite.destroy()]: the sprite leaves its parent. *)
Definition destroy (sprite : Sprite) (s : State) : State :=
  let s := set_stage
             (filter (fun c => negb (Nat.eqb (sprite_id c) (sprite_id sprite)))
                     (stage s)) s in
  set_destroyed (destroyed s ++ [sprite_id sprite]) s.

(** [while (trail.length) { const sprite = trail.pop(); if (sprite) sprite.destroy(); }],
    for at most [fuel] rounds. *)
Fixpoint drainLoop (fuel : nat) (s : State) : State :=
  match fuel with
  | O => s
  | S fuel' =>
      if (len (trail s) =? 0)%Z then s else
      let (sprite, rest) := pop (trail s) in
      let s := set_trail rest s in
      let s := match sprite with Some sp => destroy sp s | None => s end in
      drainLoop fuel' s
  end.

(** Every round removes one element, so [trail.length] rounds are enough
    fuel (see [drainTrail_trail]). *)
Definition drainTrail (s : State) : State := drainLoop (length (trail s)) s.

(** [flatten()]. *)
Definition flatten : Handler := fun s =>
  match generateTexture (permanentTexture s) (stage s) with
  | None => Thrown RenderError s
  | Some renderTexture =>
      let s := set_permanentTexture renderTexture s in
      Done (drainTrail s)
  end.

(** [onDrawEnd()]. *)
Definition onDrawEnd : Handler := fun s =>
  let o :=
    if isDrawing s && (len (pathPoints s) >? 1)%Z then
      let i := (len (pathPoints s) - 2)%Z in
      let p0 := orElse (index (pathPoints s) (i - 1)) (index (pathPoints s) i) in
      let p1 := index (pathPoints s) i in
      let p2 := orElse (index (pathPoints s) (i + 1)) p1 in
      let p3 := p2 in
      let pressure1 := index (pressurePoints s) i in
      let pressure2 := orElseNumber (index (pressurePoints s) (i + 1)) pressure1 in
      drawSplineSegment' p0 p1 p2 p3 pressure1 pressure2 s
    else Done s in
  match o with
  | Thrown e s => Thrown e s
  | Done s =>
      let s := set_isDrawing false s in
      let s := set_pathPoints [] s in
      let s := set_pressurePoints [] s in
      Done (scheduleFlatten s)
  end.

(** The exported [clear()]. *)
Definition clear (s : State) : State :=
  let s := set_permanentTexture TextureEmpty s in
  drainTrail s.

(** The reactive statement [$: if (brush) { brush.color = color; brush.size = size; }],
    run when a prop changes. *)
Definition setProps (color : Z) (size : R) (s : State) : State :=
  set_brush (set_size size (set_color color (brush s))) s.

(** ** InputManager.ts and the event loop *)

Inductive StageEvent : Type :=
| pointerdown | pointerup | pointerupoutside | pointermove.

Inductive InputEvent : Type := start | move | end_.

(** The listeners that the constructor of [InputManager] registers. *)
Definition InputManager_emit (e : StageEvent) : InputEvent :=
  match e with
  | pointerdown => start
  | pointerup => end_
  | pointerupoutside => end_
  | pointermove => move
  end.

(** What the event loop can deliver to the mounted component: a pointer event
    of the stage, a pending timeout firing, a call of [clear] by the parent,
    or a change of the props. *)
Inductive Event : Type :=
| Pointer (kind : StageEvent) (event : PointerEvent)
| Timeout (id : nat)
| Clear
| Props (color : Z) (size : R).

(** The subscriptions of [onMount]: [start] to [onDrawStart], [move] to
    [onDrawMove], [end] to [onDrawEnd]; a timeout runs [flatten] if it is
    still pending. *)
Definition step (ev : Event) : Handler := fun s =>
  match ev with
  | Pointer kind event =>
      match InputManager_emit kind with
      | start => Done (onDrawStart event s)
      | move => onDrawMove event s
      | end_ => onDrawEnd s
      end
  | Timeout id =>
      if existsb (Nat.eqb id) (timers s)
      then flatten (clearTimeout id s)
      else Done s
  | Clear => Done (clear s)
  | Props c sz => Done (setProps c sz s)
  end.

(** An exception that leaves a handler is reported by the event loop, which
    goes on with the next event. *)
Fixpoint run (evs : list Event) (s : State) : State :=
  match evs with
  | [] => s
  | ev :: evs' => run evs' (after (step ev s))
  end.

End Canvas.

(** The state once [onMount] has run, for a brush [b]: the permanent sprite
    holds the empty texture, nothing is drawn, no timer was ever set. *)
Definition mounted (b : Brush) : State :=
  {| isDrawing := false;
     brush := b;
     pathPoints := [];
     pressurePoints := [];
     trail := [];
     permanentTexture := TextureEmpty;
     flattenTimeout := None;
     stage := [];
     timers := [];
     nextTimer := 1;
     nextSprite := 0;
     randoms := 0;
     destroyed := [];
     segments := [];
     requests := [] |}.

(** ** Vocabulary of the properties *)

(** The linear interpolation [p + t*(q - p)]. *)
Definition lerp (t : R) (p q : Point) : Point :=
  mkPoint (px p + t * (px q - px p)) (py p + t * (py q - py p)).

(** The parameter at which the curve with duplicated ends sits on the chord. *)
Definition ease (t : R) : R := (t + 3 * (t * t) - 2 * (t * t * t)) / 2.

(** The distance [Math.hypot(b.x - a.x, b.y - a.y)]. *)
Definition dist (a b : Point) : R := hypot (px b - px a) (py b - py a).

(** The length of the polyline [prev, g i, g (i+1), ..., g (i+k-1)]. *)
Fixpoint walk (g : nat -> Point) (k i : nat) (prev : Point) : R :=
  match k with
  | O => 0
  | S k' => dist prev (g i) + walk g k' (S i) (g i)
  end.

(** The point sampled by [catmullRomLength] at counter value [j]. *)
Definition sample (p0 p1 p2 p3 : Point) (samples j : nat) : Point :=
  catmullRomPoint (INR j / INR samples) p0 p1 p2 p3.

(** What is assumed of the arithmetic.  Rounding keeps 0, and an operation
    whose exact result [x] is at most [omega] in absolute value returns [x]
    up to the relative error [u] and the absolute error [eta].  Rounding to
    the nearest double is such a function with [u = 2^-53], [eta = 2^-1075]
    (half the least positive double, for results that underflow) and [omega]
    the greatest double: no operation with such a result overflows. *)
Definition rounds (u eta omega : R) (rnd : R -> R) : Prop :=
  rnd 0 = 0 /\
  forall x, Rabs x <= omega -> Rabs (rnd x - x) <= u * Rabs x + eta.

(** [Math.hypot] is implementation-approximated: it is assumed to return the
    square root of the sum of squares with the same two errors. *)
Definition approximatesHypot (u eta omega : R) (hypotFl : R -> R -> R) : Prop :=
  forall a b,
    hypot a b <= omega -> Rabs (hypotFl a b - hypot a b) <= u * hypot a b + eta.

(** The errors are errors: not negative, and small. *)
Definition small (u eta : R) : Prop :=
  0 <= u /\ 0 <= eta /\ u + eta <= 1 / 1024.

(** [x] is a number of the arithmetic: rounding returns it. *)
Definition representable (rnd : R -> R) (x : R) : Prop := rnd x = x.

(** The coordinates of a point are at most [M] in absolute value. *)
Definition within (M : R) (p : Point) : Prop :=
  Rabs (px p) <= M /\ Rabs (py p) <= M.

(** [x'] is [x] up to [k * e * s], and [x] is at most [m * s]. *)
Definition near (e k m s x' x : R) : Prop :=
  Rabs (x' - x) <= k * e * s /\ Rabs x <= m * s.

(** The point of the exact curve at the parameter that the loop of
    [catmullRomLength] computes for the counter value [j]. *)
Definition sampleRounded (rnd : R -> R) (p0 p1 p2 p3 : Point) (samples j : nat)
  : Point :=
  catmullRomPoint (rnd (INR j / INR samples)) p0 p1 p2 p3.

(** Two instances of [rnd]: arithmetic without rounding, and an arithmetic
    in which every operation errs by the whole relative error [u]. *)
Definition exact (x : R) : R := x.

Definition inflate (u x : R) : R := x * (1 + u).

(** The arguments of the call of [paintBrush] at counter value [i] of the
    loop of [drawSplineSegment] with [n] steps. *)
Definition requestAt (p0 p1 p2 p3 : Point) (pressure1 pressure2 : R) (n : Z)
    (i : nat) : StampRequest :=
  let t := INR i / IZR n in
  mkStampRequest (px (catmullRomPoint t p0 p1 p2 p3))
                 (py (catmullRomPoint t p0 p1 p2 p3))
                 (pressure1 + (pressure2 - pressure1) * t).

(** The state of [onDrawMove] once an accepted point is in the arrays. *)
Definition pushed (event : PointerEvent) (s : State) : State :=
  set_pressurePoints (pressurePoints s ++ [pressure event])
    (set_pathPoints (pathPoints s ++ [global event]) s).

(** The move is not dropped by the distance test against [lastPoint]. *)
Definition accepted (event : PointerEvent) (lastPoint : Point) : Prop :=
  ~ hypot (px (global event) - px lastPoint) (py (global event) - py lastPoint) < 4.

(** The state of [onDrawEnd] before [scheduleFlatten]. *)
Definition strokeReset (s : State) : State :=
  set_pressurePoints [] (set_pathPoints [] (set_isDrawing false s)).

(** The calls of [paintBrush] made between [s] and a later state [s']. *)
Definition newRequests (s s' : State) : list StampRequest :=
  skipn (length (requests s)) (requests s').

(** The positions requested, before jitter. *)
Definition curvePositions (l : list StampRequest) : list (R * R) :=
  map (fun r => (req_x r, req_y r)) l.

(** A random source that always returns [1/2], a renderer that always
    succeeds and one that always throws. *)
Definition constantRandom : nat -> R := fun _ => 0.5.

Definition renderOk : Texture -> list Sprite -> option Texture :=
  fun _ _ => Some (TextureRendered 0).

Definition renderThrows : Texture -> list Sprite -> option Texture :=
  fun _ _ => None.

(** The part of [onDrawMove] after the two [push] calls. *)
Definition moveSegment (random : nat -> R) : Handler := fun s =>
  if (len (pathPoints s) =? 2)%Z then
    drawSplineSegment' random
      (index (pathPoints s) 0) (index (pathPoints s) 0)
      (index (pathPoints s) 1) (index (pathPoints s) 1)
      (index (pressurePoints s) 0) (index (pressurePoints s) 1) s
  else
  let i := (len (pathPoints s) - 2)%Z in
  if (i <? 1)%Z then Done s else
  drawSplineSegment' random
    (orElse (index (pathPoints s) (i - 1)) (index (pathPoints s) i))
    (index (pathPoints s) i)
    (index (pathPoints s) (i + 1))
    (orElse (index (pathPoints s) (i + 2)) (index (pathPoints s) (i + 1)))
    (index (pressurePoints s) i)
    (index (pressurePoints s) (i + 1)) s.

(** The conditional at the head of [onDrawEnd]. *)
Definition endSegment (random : nat -> R) : Handler := fun s =>
  if isDrawing s && (len (pathPoints s) >? 1)%Z then
    let i := (len (pathPoints s) - 2)%Z in
    let p1 := index (pathPoints s) i in
    let p2 := orElse (index (pathPoints s) (i + 1)) p1 in
    let pressure1 := index (pressurePoints s) i in
    drawSplineSegment' random
      (orElse (index (pathPoints s) (i - 1)) (index (pathPoints s) i))
      p1 p2 p2 pressure1
      (orElseNumber (index (pressurePoints s) (i + 1)) pressure1) s
  else Done s.

(** [a || b] on two numbers. *)
Definition orNumber (a b : R) : R := if Req_dec_T a 0 then b else a.

(** A pointer event at [(x, y)] with pressure [p]. *)
Definition pointerAt (x y p : R) : PointerEvent := mkPointerEvent (mkPoint x y) p.

(** A stroke in progress on a fresh canvas with the default brush: pointer
    down at [(0,0)], one move to [(10,0)], pressure [0.5] throughout. *)
Definition strokeOfTwo : State :=
  run constantRandom renderOk
    [Pointer pointerdown (pointerAt 0 0 0.5); Pointer pointermove (pointerAt 10 0 0.5)]
    (mounted newBrush).

(** The sprites of [l] are no longer children of the stage. *)
Definition without (l : list Sprite) (children : list Sprite) : list Sprite :=
  filter (fun c => negb (existsb (Nat.eqb (sprite_id c)) (map sprite_id l))) children.

(** The two arrays of the path have the same length, and hold a point while
    a stroke is active. *)
Definition tracked (s : State) : Prop :=
  length (pressurePoints s) = length (pathPoints s) /\
  (isDrawing s = true -> (1 <= len (pathPoints s))%Z).

(** ** Vocabulary of the further properties *)

(** The render side of the state: what [paintBrush], [flatten] and [clear]
    read and write. *)
Definition render (s : State) :=
  (trail s, stage s, nextSprite s, randoms s, destroyed s, requests s,
   shape_texture (brush s), shape_grainTexture (brush s), stroke_jitter (brush s)).

(** The children of the stage are the sprites of the trail; every sprite
    ever created is either in the trail or destroyed, and never both or
    twice. *)
Definition live (s : State) : Prop :=
  stage s = trail s /\
  NoDup (destroyed s ++ map sprite_id (trail s)) /\
  (forall id, In id (destroyed s ++ map sprite_id (trail s)) -> (id < nextSprite s)%nat) /\
  nextSprite s = (length (destroyed s) + length (trail s))%nat.

(** The timer side of the state. *)
Definition timerSide (s : State) := (flattenTimeout s, timers s, nextTimer s).

(** At most one timeout is pending, and it is the one that [flattenTimeout]
    names. *)
Definition debounced (s : State) : Prop :=
  (timers s = [] \/ exists id, timers s = [id] /\ flattenTimeout s = Some id) /\
  (forall id, flattenTimeout s = Some id -> (1 <= id < nextTimer s)%nat) /\
  (1 <= nextTimer s)%nat.

(** Consecutive points of a path are at least 4 apart. *)
Fixpoint spaced (l : list Point) : Prop :=
  match l with
  | a :: (b :: _) as l' => 4 <= dist a b /\ spaced l'
  | _ => True
  end.

(** The invariant of the path tracker. *)
Definition pathInvariant (s : State) : Prop :=
  length (pressurePoints s) = length (pathPoints s) /\
  (isDrawing s = true -> pathPoints s <> []) /\
  (isDrawing s = false -> pathPoints s = []) /\
  spaced (pathPoints s).

(** The pairs of consecutive points of the path [a :: l]. *)
Fixpoint joints (a : Point) (l : list Point) : list (Point * Point) :=
  match l with
  | [] => []
  | b :: l' => (a, b) :: joints b l'
  end.

(** Every move of the list is accepted against the point before it, the
    first one against [a]. *)
Fixpoint chained (a : Point) (moves : list PointerEvent) : Prop :=
  match moves with
  | [] => True
  | m :: moves' => accepted m a /\ chained (global m) moves'
  end.

(** The two end points of a segment. *)
Definition segmentEnds (seg : Segment) : Point * Point := (seg_p1 seg, seg_p2 seg).

(** The calls of [drawSplineSegment] made between [s] and a later state. *)
Definition newSegments (s s' : State) : list Segment :=
  skipn (length (segments s)) (segments s').

(** ** Brush.ts: loading, and the brush of [onMount] *)

Definition set_shape_texture (v : Texture) (b : Brush) : Brush :=
  mkBrush v (shape_grainTexture b) (stroke_spacing b)
    (stroke_jitter b) (stroke_falloff b) (grain_scale b) (grain_intensity b)
    (grain_rotation b) (size b) (color b) (alpha b).

Definition set_shape_grainTexture (v : Texture) (b : Brush) : Brush :=
  mkBrush (shape_texture b) v (stroke_spacing b)
    (stroke_jitter b) (stroke_falloff b) (grain_scale b) (grain_intensity b)
    (grain_rotation b) (size b) (color b) (alpha b).

(** How an [async] method of [Brush] settles: the promise is fulfilled or
    rejected; either way [b] is the brush object as the method leaves it. *)
Inductive Settled : Type :=
| Fulfilled (b : Brush)
| Rejected (b : Brush).

Definition settledBrush (r : Settled) : Brush :=
  match r with Fulfilled b => b | Rejected b => b end.

Module Loading.

Import String.

Section Assets.

(** [PIXI.Assets.load(url)]: the texture, or [None] when the promise
    rejects. *)
Variable Assets_load : string -> option Texture.

(** [brush.loadTexture(shapeUrl, grainUrl?)]; an absent and an empty
    [grainUrl] are falsy. *)
Definition loadTexture (shapeUrl : string) (grainUrl : option string) (b : Brush)
    : Settled :=
  match Assets_load shapeUrl with
  | None => Rejected b
  | Some texture =>
      let b := set_shape_texture texture b in
      match grainUrl with
      | Some url =>
          if String.eqb url EmptyString then Fulfilled b else
          match Assets_load url with
          | Some grain => Fulfilled (set_shape_grainTexture grain b)
          | None => Fulfilled (set_shape_grainTexture TextureEmpty b)
          end
      | None => Fulfilled b
      end
  end.

(** [brush.loadGrainTexture(grainUrl)]. *)
Definition loadGrainTexture (grainUrl : string) (b : Brush) : Settled :=
  match Assets_load grainUrl with
  | Some grain => Fulfilled (set_shape_grainTexture grain b)
  | None => Rejected b
  end.

(** The brush that [onMount] of [Canvas.svelte] leaves: [new Brush()], then
    [loadTexture('/brushes/brush_01.png')] in a [try], whose [catch] installs
    the texture of [createFallbackBrushTexture]. *)
Definition brushUrl : string := "/brushes/brush_01.png".

Definition onMountBrush : Brush :=
  match loadTexture brushUrl None newBrush with
  | Fulfilled b => b
  | Rejected b => set_shape_texture TextureFallback b
  end.

End Assets.

End Loading.

(** One sprite per stamp request, at the requested position: the brush has
    no grain and no jitter, the sprite with identity [k] is a stamp with the
    shape texture at the position of the [k]-th stamp request. *)
Definition plain (s : State) : Prop :=
  shape_grainTexture (brush s) = TextureEmpty /\
  stroke_jitter (brush s) = 0 /\
  nextSprite s = length (requests s) /\
  Forall (fun sp =>
            sprite_blendMode sp = BlendNormal /\
            sprite_texture sp = shape_texture (brush s) /\
            exists r, nth_error (requests s) (sprite_id sp) = Some r /\
                      sprite_x sp = req_x r /\ sprite_y sp = req_y r)
         (trail s).

(** ** colorUtils.ts *)

(** A colour as three numbers, and as hue, saturation and lightness. *)
Record RGB : Type := mkRGB { rgb_r : R; rgb_g : R; rgb_b : R }.

Record HSL : Type := mkHSL { hsl_h : R; hsl_s : R; hsl_l : R }.

(** [Math.round]: the nearest integer, a tie going up. *)
Definition round (x : R) : Z := Int_part (x + 0.5).

(** [Math.trunc], and [a % b] on numbers: the remainder has the sign of the
    dividend. *)
Definition trunc (x : R) : Z :=
  if Rle_dec 0 x then Int_part x else (- Int_part (- x))%Z.

Definition jsRem (a b : R) : R := a - b * IZR (trunc (a / b)).

Module ColorUtils.

Import Ascii String.

(** A string of the embedding is a sequence of code units below 256; the
    functions below tell apart only [#] and the hexadecimal digits. *)
Definition digit16 (d : Z) : ascii :=
  ascii_of_nat (Z.to_nat (if (d <? 10)%Z then 48 + d else 87 + d)%Z).

Fixpoint digits16 (fuel : nat) (n : Z) : string :=
  match fuel with
  | O => EmptyString
  | S fuel' =>
      if (n <? 16)%Z then String (digit16 n) EmptyString
      else append (digits16 fuel' (n / 16)) (String (digit16 (n mod 16)) EmptyString)
  end.

(** [n.toString(16)] for an integer [n]. *)
Definition toString16 (n : Z) : string :=
  if (n <? 0)%Z then String "-"%char (digits16 (S (Z.to_nat (- n))) (- n))
  else digits16 (S (Z.to_nat n)) n.

(** The inner function [toHex] of [rgbToHex]. *)
Definition toHex (n : R) : string :=
  let hex := toString16 (round (Rmax 0 (Rmin 255 n))) in
  if Nat.eqb (String.length hex) 1 then String "0"%char hex else hex.

(** [rgbToHex(r, g, b)]. *)
Definition rgbToHex (r g b : R) : string :=
  String "#"%char (append (append (toHex r) (toHex g)) (toHex b)).

(** The value of a hexadecimal digit, in either case; [None] for any other
    character: the class [[a-f\d]] under the flag [i], by the code of the
    character (48 to 57 for the digits, 97 to 102 and 65 to 70 for the
    letters). *)
Definition hexValue (c : ascii) : option Z :=
  let code := Z.of_nat (nat_of_ascii c) in
  if (48 <=? code)%Z && (code <=? 57)%Z then Some (code - 48)%Z
  else if (97 <=? code)%Z && (code <=? 102)%Z then Some (code - 87)%Z
  else if (65 <=? code)%Z && (code <=? 70)%Z then Some (code - 55)%Z
  else None.

(** One group [([a-f\d]{2})] of the pattern, read by [parseInt(.., 16)]. *)
Definition pair16 (c1 c2 : ascii) : option Z :=
  match hexValue c1, hexValue c2 with
  | Some v1, Some v2 => Some (16 * v1 + v2)%Z
  | _, _ => None
  end.

(** [hexToRgb(hex)]: the pattern [/^#?([a-f\d]{2})([a-f\d]{2})([a-f\d]{2})$/i];
    [None] is [null]. *)
Definition hexToRgb (hex : string) : option RGB :=
  let body := match hex with
              | String "#"%char rest => rest
              | _ => hex
              end in
  match body with
  | String c1 (String c2 (String c3 (String c4 (String c5 (String c6 EmptyString))))) =>
      match pair16 c1 c2, pair16 c3 c4, pair16 c5 c6 with
      | Some r, Some g, Some b => Some (mkRGB (IZR r) (IZR g) (IZR b))
      | _, _, _ => None
      end
  | _ => None
  end.

End ColorUtils.

Module Hsl.

(** The comparisons [a >= b] and [a < b] as conditions. *)
Definition geb (a b : R) : bool := if Rge_dec a b then true else false.

Definition ltb (a b : R) : bool := if Rlt_dec a b then true else false.

(** [hslToRgb(h, s, l)]. *)
Definition hslToRgb (h s l : R) : RGB :=
  let c := (1 - Rabs (2 * l - 1)) * s in
  let x := c * (1 - Rabs (jsRem (h * 6) 2 - 1)) in
  let m := l - c / 2 in
  let '(r, g, b) :=
    if geb h 0 && ltb h (1 / 6) then (c, x, 0)
    else if geb h (1 / 6) && ltb h (2 / 6) then (x, c, 0)
    else if geb h (2 / 6) && ltb h (3 / 6) then (0, c, x)
    else if geb h (3 / 6) && ltb h (4 / 6) then (0, x, c)
    else if geb h (4 / 6) && ltb h (5 / 6) then (x, 0, c)
    else if geb h (5 / 6) && ltb h 1 then (c, 0, x)
    else (0, 0, 0) in
  mkRGB (r + m) (g + m) (b + m).

(** [rgbToHsl(r, g, b)]. *)
Definition rgbToHsl (r g b : R) : HSL :=
  let max := Rmax (Rmax r g) b in
  let min := Rmin (Rmin r g) b in
  let diff := max - min in
  let sum := max + min in
  let l := sum / 2 in
  if Req_dec_T diff 0 then mkHSL 0 0 (l * 100) else
  let s := if Rgt_dec l 0.5 then diff / (2 - sum) else diff / sum in
  let h :=
    if Req_dec_T max r then ((g - b) / diff + (if Rlt_dec g b then 6 else 0)) / 6
    else if Req_dec_T max g then ((b - r) / diff + 2) / 6
    else ((r - g) / diff + 4) / 6 in
  mkHSL (h * 360) (s * 100) (l * 100).

End Hsl.

(** ** ColorDisc.svelte *)

Module ColorDisc.

Record Oklch : Type := mkOklch { l : R; c : R; h : R }.

(** The state of the component that the wheel reads and writes.  The prop
    [color] is left out: it is written by [emitColorChange] only, from the
    three numbers below, and read by none of the functions embedded here.
    A timer is the number [window.setTimeout] returned; [None] is [null]. *)
Record Disc : Type := mkDisc {
  size : R;
  hue : R;
  chroma : R;
  lightness : R;
  isExpanded : bool;
  expandTimer : option Z;
  animationProgress : R;
  lastMousePos : option Point;
  dotVisualPosition : option Point
}.

(** The calculated dimensions. *)
Definition padding (d : Disc) : R := size d * 0.05.

Definition half (d : Disc) : R := size d / 2.

Definition hueRingOuterR (d : Disc) : R := half d - padding d.

Definition hueRingInnerR (d : Disc) : R := hueRingOuterR d * 0.75.

Definition hueRingWidth (d : Disc) : R := hueRingOuterR d - hueRingInnerR d.

Definition wheelR (d : Disc) : R := hueRingInnerR d * 0.85.

Definition pickerSize (d : Disc) : R := size d / 40.

(** [getOklchAtPosition(canvasX, canvasY)]. *)
Definition getOklchAtPosition (d : Disc) (canvasX canvasY : R) : Oklch :=
  let normalizedChroma :=
    Rmax 0 (Rmin 1 ((canvasX + wheelR d) / (wheelR d * 2))) in
  let c := normalizedChroma * 0.25 in
  let normalizedLightness :=
    Rmax 0 (Rmin 1 ((wheelR d - canvasY) / (wheelR d * 2))) in
  let l := normalizedLightness * 100 in
  mkOklch l c (hue d).

(** [getWheelPosition(c, l)]. *)
Definition getWheelPosition (d : Disc) (c l : R) : Point :=
  let stored :=
    match dotVisualPosition d with
    | Some p => if Rgt_dec (animationProgress d) 0 then Some p else None
    | None => None
    end in
  match stored with
  | Some p => p
  | None =>
      let x := ((c / 0.25) * wheelR d * 2) - wheelR d in
      let y := wheelR d - ((l / 100) * wheelR d * 2) in
      if negb (isExpanded d)
         && (if Rlt_dec (animationProgress d) 0.5 then true else false)
      then
        let distance := sqrt (x * x + y * y) in
        if Rgt_dec distance (wheelR d)
        then let scale := wheelR d / distance in mkPoint (x * scale) (y * scale)
        else mkPoint x y
      else mkPoint x y
  end.

(** A timer, read as a condition: [null] and 0 are false. *)
Definition truthy (t : option Z) : bool :=
  match t with
  | Some id => negb (Z.eqb id 0)
  | None => false
  end.

(** [updateWheel(e)], for the position [pos] that [getCanvasPosition(e)]
    returned and the number [timer] that [window.setTimeout] would return.
    The result is the state when [updateWheel] returns; [draw()] paints and
    [emitColorChange()] dispatches, and neither writes a field of [Disc]. *)
Definition updateWheel (timer : Z) (pos : Point) (d : Disc) : Disc :=
  let x := px pos - half d in
  let y := py pos - half d in
  let distance := sqrt (x * x + y * y) in
  let isAtEdge :=
    negb (isExpanded d)
    && (if Rgt_dec distance (wheelR d * 0.9) then true else false) in
  let expandTimer' :=
    if isAtEdge && negb (truthy (expandTimer d)) then Some timer
    else if negb isAtEdge && truthy (expandTimer d) then None
    else expandTimer d in
  let '(constrainedX, constrainedY) :=
    if negb (isExpanded d)
       && (if Rlt_dec (animationProgress d) 1 then true else false)
    then
      if Rgt_dec distance (wheelR d)
      then let scale := wheelR d / distance in (x * scale, y * scale)
      else (x, y)
    else (Rmax (- wheelR d) (Rmin (wheelR d) x),
          Rmax (- wheelR d) (Rmin (wheelR d) y)) in
  let oklchColor := getOklchAtPosition d constrainedX constrainedY in
  mkDisc (size d) (hue d) (c oklchColor) (l oklchColor) (isExpanded d)
         expandTimer' (animationProgress d) (Some (mkPoint x y))
         (dotVisualPosition d).

End ColorDisc.

(** ** The toolbar *)

Module Toolbar.

(** [snapToEdge()], for a mounted toolbar of the size [width] by [height] in
    a window of [innerWidth] by [innerHeight]: the position it sets and
    stores. *)
Definition snapToEdge (currentPos : Point) (width height innerWidth innerHeight : R)
  : Point :=
  let newX := Rmax 0 (Rmin (px currentPos) (innerWidth - width)) in
  let newY := Rmax 0 (Rmin (py currentPos) (innerHeight - height)) in
  let snapThreshold := 50 in
  let newX :=
    if Rlt_dec newX snapThreshold then 0
    else if Rlt_dec (innerWidth - (newX + width)) snapThreshold
         then innerWidth - width
         else newX in
  let newY :=
    if Rlt_dec newY snapThreshold then 0
    else if Rlt_dec (innerHeight - (newY + height)) snapThreshold
         then innerHeight - height
         else newY in
  mkPoint newX newY.

End Toolbar.

(** The disc and the square of a radius around the centre of the wheel, the
    pointer relative to that centre, and the dot as it is drawn after
    [updateWheel]. *)
Definition inDisc (r : R) (p : Point) : Prop :=
  px p * px p + py p * py p <= r * r.

Definition inSquare (r : R) (p : Point) : Prop :=
  - r <= px p <= r /\ - r <= py p <= r.

Definition pointer (d : ColorDisc.Disc) (pos : Point) : Point :=
  mkPoint (px pos - ColorDisc.half d) (py pos - ColorDisc.half d).

Definition dotAfter (timer : Z) (pos : Point) (d : ColorDisc.Disc) : Point :=
  let d' := ColorDisc.updateWheel timer pos d in
  ColorDisc.getWheelPosition d' (ColorDisc.chroma d') (ColorDisc.lightness d').

(** No stored position overrides the dot: [dotVisualPosition] is [null] or
    no animation is under way. *)
Definition unstored (d : ColorDisc.Disc) : Prop :=
  ColorDisc.dotVisualPosition d = None \/ ColorDisc.animationProgress d <= 0.

(** * Properties *)

(** ** Curve interpolator *)

Lemma Point_eq (a b : Point) : px a = px b -> py a = py b -> a = b.
Proof. destruct a, b; simpl; intros -> ->; reflexivity. Qed.

Lemma hypot_nonneg (a b : R) : 0 <= hypot a b.
Proof. apply sqrt_pos. Qed.

Lemma hypot_flat (a b v : R) :
  b = 0 -> a = v \/ a = - v -> 0 <= v -> hypot a b = v.
Proof.
  intros -> Ha Hv. unfold hypot.
  replace (a * a + 0 * 0) with (Rsqr v) by (unfold Rsqr; destruct Ha; subst; ring).
  apply sqrt_Rsqr; exact Hv.
Qed.

Lemma catmullRomPoint_0 (p0 p1 p2 p3 : Point) :
  catmullRomPoint 0 p0 p1 p2 p3 = p1.
Proof. apply Point_eq; simpl; lra. Qed.

Lemma catmullRomPoint_1 (p0 p1 p2 p3 : Point) :
  catmullRomPoint 1 p0 p1 p2 p3 = p2.
Proof. apply Point_eq; simpl; lra. Qed.

(** ** Rounding errors of the curve interpolator *)

Section RoundingError.

Variable rnd : R -> R.
Variables u eta omega : R.
Hypothesis Hrnd : rounds u eta omega rnd.
Hypothesis Hsmall : small u eta.

(** One rounding, after an exact operation on approximate operands. *)
Lemma rnd_error (x' x d m : R) :
  Rabs (x' - x) <= d -> Rabs x <= m -> 1 <= m -> m + d <= omega ->
  Rabs (rnd x' - x) <= d + (u + eta) * (m + d).
Proof.
  intros Hd Hm H1 Ho. destruct Hsmall as (U & E & _). destruct Hrnd as [_ Hr].
  pose proof (Rabs_pos (x' - x)) as D0.
  assert (Hx' : Rabs x' <= m + d).
  { replace x' with (x + (x' - x)) by ring.
    eapply Rle_trans; [apply Rabs_triang | lra]. }
  assert (H : Rabs (rnd x' - x') <= u * Rabs x' + eta) by (apply Hr; lra).
  replace (rnd x' - x) with ((rnd x' - x') + (x' - x)) by ring.
  eapply Rle_trans; [apply Rabs_triang |].
  assert (u * Rabs x' <= u * (m + d)) by (apply Rmult_le_compat_l; lra).
  assert (eta * 1 <= eta * (m + d)) by (apply Rmult_le_compat_l; lra).
  lra.
Qed.

Lemma near_exact (m s x : R) : Rabs x <= m * s -> near (u + eta) 0 m s x x.
Proof.
  intros H. split; [| exact H].
  replace (x - x) with 0 by ring. rewrite Rabs_R0. lra.
Qed.

Lemma near_opp (k m s x' x : R) :
  near (u + eta) k m s x' x -> near (u + eta) k m s (- x') (- x).
Proof.
  intros [H1 H2]. split.
  - replace (- x' - - x) with (- (x' - x)) by ring. rewrite Rabs_Ropp. exact H1.
  - rewrite Rabs_Ropp. exact H2.
Qed.

Lemma near_weaken (k m k' m' s x' x : R) :
  0 <= s -> k <= k' -> m <= m' ->
  near (u + eta) k m s x' x -> near (u + eta) k' m' s x' x.
Proof.
  intros Hs Hk Hm [H1 H2]. destruct Hsmall as (U & E & _). split.
  - eapply Rle_trans; [exact H1 |].
    apply Rmult_le_compat_r; [exact Hs |]. apply Rmult_le_compat_r; lra.
  - eapply Rle_trans; [exact H2 |]. apply Rmult_le_compat_r; lra.
Qed.

(** What a rounded operation adds to the error [d = k e s] of its exact
    result, of magnitude at most [m s], when [s] is at least 1 and [4096 s]
    at most [omega]. *)
Lemma near_rnd (k m s x' x : R) :
  1 <= s -> 4096 * s <= omega -> 0 <= k -> 1 <= m -> m + k / 1024 <= 4096 ->
  near (u + eta) k m s x' x ->
  near (u + eta) (k * (1025 / 1024) + m) m s (rnd x') x.
Proof.
  intros Hs Ho Hk Hm Hb [H1 H2]. destruct Hsmall as (U & E & S).
  split; [| exact H2].
  assert (W : 0 <= (u + eta) * s) by (apply Rmult_le_pos; lra).
  assert (D : k * (u + eta) * s <= k / 1024 * s).
  { rewrite Rmult_assoc. unfold Rdiv. rewrite (Rmult_assoc k).
    apply Rmult_le_compat_l; [exact Hk |].
    apply Rmult_le_compat_r; lra. }
  assert (M1 : 1 <= m * s).
  { replace 1 with (1 * 1) by ring. apply Rmult_le_compat; lra. }
  assert (Fit : m * s + k * (u + eta) * s <= omega).
  { apply Rle_trans with (4096 * s); [| exact Ho].
    replace (4096 * s) with (4096 * s + 0) by ring.
    assert ((m + k / 1024) * s <= 4096 * s) by (apply Rmult_le_compat_r; lra).
    lra. }
  eapply Rle_trans; [apply (rnd_error _ _ _ _ H1 H2 M1 Fit) |].
  assert (Q : (u + eta) * (k * (u + eta) * s) <= 1 / 1024 * (k * (u + eta) * s)).
  { apply Rmult_le_compat_r; [| lra].
    apply Rmult_le_pos; [apply Rmult_le_pos; lra | lra]. }
  replace ((k * (1025 / 1024) + m) * (u + eta) * s)
    with (k * (u + eta) * s + 1 / 1024 * (k * (u + eta) * s) + (u + eta) * (m * s))
    by field.
  lra.
Qed.

Lemma near_add (k1 m1 k2 m2 s a' a b' b : R) :
  1 <= s -> 4096 * s <= omega -> 0 <= k1 -> 0 <= k2 ->
  1 <= m1 + m2 -> (m1 + m2) + (k1 + k2) / 1024 <= 4096 ->
  near (u + eta) k1 m1 s a' a -> near (u + eta) k2 m2 s b' b ->
  near (u + eta) ((k1 + k2) * (1025 / 1024) + (m1 + m2)) (m1 + m2) s
       (rnd (a' + b')) (a + b).
Proof.
  intros Hs Ho Hk1 Hk2 Hm Hb [A1 A2] [B1 B2].
  apply near_rnd; try assumption; [lra |].
  split.
  - replace (a' + b' - (a + b)) with ((a' - a) + (b' - b)) by ring.
    eapply Rle_trans; [apply Rabs_triang | lra].
  - eapply Rle_trans; [apply Rabs_triang | lra].
Qed.

Lemma near_sub (k1 m1 k2 m2 s a' a b' b : R) :
  1 <= s -> 4096 * s <= omega -> 0 <= k1 -> 0 <= k2 ->
  1 <= m1 + m2 -> (m1 + m2) + (k1 + k2) / 1024 <= 4096 ->
  near (u + eta) k1 m1 s a' a -> near (u + eta) k2 m2 s b' b ->
  near (u + eta) ((k1 + k2) * (1025 / 1024) + (m1 + m2)) (m1 + m2) s
       (rnd (a' - b')) (a - b).
Proof.
  intros Hs Ho Hk1 Hk2 Hm Hb Ha Hn.
  apply near_opp in Hn.
  exact (near_add _ _ _ _ _ _ _ _ _ Hs Ho Hk1 Hk2 Hm Hb Ha Hn).
Qed.

Lemma product_error (a' a b' b ea eb ma mb : R) :
  Rabs (a' - a) <= ea -> Rabs a <= ma ->
  Rabs (b' - b) <= eb -> Rabs b <= mb ->
  Rabs (a' * b' - a * b) <= ea * mb + ma * eb + ea * eb.
Proof.
  intros A1 A2 B1 B2.
  pose proof (Rabs_pos (a' - a)). pose proof (Rabs_pos a).
  pose proof (Rabs_pos (b' - b)). pose proof (Rabs_pos b).
  replace (a' * b' - a * b)
    with ((a' - a) * b + a * (b' - b) + (a' - a) * (b' - b)) by ring.
  eapply Rle_trans; [apply Rabs_triang |].
  eapply Rle_trans; [apply Rplus_le_compat_r, Rabs_triang |].
  rewrite !Rabs_mult.
  assert (Rabs (a' - a) * Rabs b <= ea * mb) by (apply Rmult_le_compat; lra).
  assert (Rabs a * Rabs (b' - b) <= ma * eb) by (apply Rmult_le_compat; lra).
  assert (Rabs (a' - a) * Rabs (b' - b) <= ea * eb) by (apply Rmult_le_compat; lra).
  lra.
Qed.

(** The exact product of two approximate factors, one of them of scale 1. *)
Lemma near_product (k1 m1 k2 m2 s a' a b' b : R) :
  0 <= s -> 0 <= k1 -> 0 <= k2 -> 0 <= m1 -> 0 <= m2 ->
  near (u + eta) k1 m1 s a' a -> near (u + eta) k2 m2 1 b' b ->
  near (u + eta) (k1 * m2 + m1 * k2 + k1 * k2 / 1024) (m1 * m2) s
       (a' * b') (a * b).
Proof.
  intros Hs Hk1 Hk2 Hm1 Hm2 [A1 A2] [B1 B2]. destruct Hsmall as (U & E & S).
  pose proof (product_error _ _ _ _ _ _ _ _ A1 A2 B1 B2) as P.
  set (e := u + eta) in *.
  assert (W : 0 <= e * s) by (apply Rmult_le_pos; unfold e in *; lra).
  split.
  - eapply Rle_trans; [exact P |].
    assert (Q : k1 * e * s * (k2 * e * 1) <= k1 * k2 / 1024 * (e * s)).
    { replace (k1 * e * s * (k2 * e * 1)) with (k1 * k2 * e * (e * s)) by ring.
      apply Rmult_le_compat_r; [exact W |].
      unfold Rdiv. rewrite !Rmult_assoc. apply Rmult_le_compat_l; [exact Hk1 |].
      apply Rmult_le_compat_l; [exact Hk2 |]. unfold e in *. lra. }
    replace ((k1 * m2 + m1 * k2 + k1 * k2 / 1024) * e * s)
      with (k1 * e * s * (m2 * 1) + m1 * s * (k2 * e * 1)
            + k1 * k2 / 1024 * (e * s)) by field.
    lra.
  - rewrite Rabs_mult.
    replace (m1 * m2 * s) with ((m1 * s) * (m2 * 1)) by ring.
    apply Rmult_le_compat; try apply Rabs_pos; assumption.
Qed.

Lemma near_mul_r (k1 m1 k2 m2 s a' a b' b : R) :
  1 <= s -> 4096 * s <= omega ->
  0 <= k1 -> 0 <= k2 -> 0 <= m1 -> 0 <= m2 -> 1 <= m1 * m2 ->
  m1 * m2 + (k1 * m2 + m1 * k2 + k1 * k2 / 1024) / 1024 <= 4096 ->
  near (u + eta) k1 m1 s a' a -> near (u + eta) k2 m2 1 b' b ->
  near (u + eta)
       ((k1 * m2 + m1 * k2 + k1 * k2 / 1024) * (1025 / 1024) + m1 * m2)
       (m1 * m2) s (rnd (a' * b')) (a * b).
Proof.
  intros Hs Ho Hk1 Hk2 Hm1 Hm2 Hm Hb Ha Hn.
  apply near_rnd; try assumption.
  - assert (0 <= k1 * m2) by (apply Rmult_le_pos; assumption).
    assert (0 <= m1 * k2) by (apply Rmult_le_pos; assumption).
    assert (0 <= k1 * k2) by (apply Rmult_le_pos; assumption).
    lra.
  - apply near_product; try assumption. lra.
Qed.

Lemma near_mul_l (k1 m1 k2 m2 s a' a b' b : R) :
  1 <= s -> 4096 * s <= omega ->
  0 <= k1 -> 0 <= k2 -> 0 <= m1 -> 0 <= m2 -> 1 <= m1 * m2 ->
  m1 * m2 + (k1 * m2 + m1 * k2 + k1 * k2 / 1024) / 1024 <= 4096 ->
  near (u + eta) k1 m1 1 a' a -> near (u + eta) k2 m2 s b' b ->
  near (u + eta)
       ((k1 * m2 + m1 * k2 + k1 * k2 / 1024) * (1025 / 1024) + m1 * m2)
       (m1 * m2) s (rnd (a' * b')) (a * b).
Proof.
  intros Hs Ho Hk1 Hk2 Hm1 Hm2 Hm Hb Ha Hn.
  pose proof (near_mul_r k2 m2 k1 m1 s b' b a' a Hs Ho Hk2 Hk1 Hm2 Hm1) as H.
  rewrite (Rmult_comm a' b'), (Rmult_comm a b).
  replace (k1 * m2 + m1 * k2 + k1 * k2 / 1024)
    with (k2 * m1 + m2 * k1 + k2 * k1 / 1024) in * by field.
  rewrite (Rmult_comm m1 m2) in *.
  apply H; assumption.
Qed.

Lemma near_const (c : R) : 0 <= c -> near (u + eta) 0 c 1 c c.
Proof. intros H. apply near_exact. rewrite Rabs_right; lra. Qed.

Lemma near_coord (M x : R) : Rabs x <= M -> near (u + eta) 0 1 M x x.
Proof. intros H. apply near_exact. lra. Qed.

Lemma near_param (t : R) :
  Rabs t <= 1025 / 1024 -> near (u + eta) 0 (1025 / 1024) 1 t t.
Proof. intros H. apply near_exact. lra. Qed.

End RoundingError.

(** The error of an expression, operation by operation; the conditions on
    the constants are left for the end. *)
Ltac approx :=
  lazymatch goal with
  | |- near _ _ _ _ (_ (_ + _)) (_ + _) =>
      eapply near_add;
      [eassumption | eassumption | | | | | | | approx | approx]
  | |- near _ _ _ _ (_ (_ - _)) (_ - _) =>
      eapply near_sub;
      [eassumption | eassumption | | | | | | | approx | approx]
  | |- near _ _ _ 1 (_ (_ * _)) (_ * _) =>
      eapply near_mul_l;
      [eassumption | eassumption | | | | | | | | | approx | approx]
  | |- near _ _ _ _ (_ (?c * _)) (?c * _) =>
      eapply near_mul_l;
      [eassumption | eassumption | | | | | | | | | apply near_const | approx]
  | |- near _ _ _ _ (_ (_ * _)) (_ * _) =>
      eapply near_mul_r;
      [eassumption | eassumption | | | | | | | | | approx | approx]
  | |- near _ _ _ _ (- _) (- _) => apply near_opp; approx
  | |- near _ _ _ _ ?x ?x =>
      first [ apply near_coord; assumption | apply near_param; assumption ]
  end.

Section PointError.

Variable rnd : R -> R.
Variables u eta omega : R.
Hypothesis Hrnd : rounds u eta omega rnd.
Hypothesis Hsmall : small u eta.

(** The computed point is the exact one up to [100 (u + eta) M] in each
    coordinate, and the exact one is at most [13 M] away from the origin in
    each. *)
Lemma catmullRomPoint_error (t M : R) (p0 p1 p2 p3 : Point) :
  1 <= M -> 4096 * M <= omega ->
  Rabs t <= 1025 / 1024 ->
  within M p0 -> within M p1 -> within M p2 -> within M p3 ->
  near (u + eta) 100 13 M (px (Rounded.catmullRomPoint rnd t p0 p1 p2 p3))
                          (px (catmullRomPoint t p0 p1 p2 p3))
  /\ near (u + eta) 100 13 M (py (Rounded.catmullRomPoint rnd t p0 p1 p2 p3))
                             (py (catmullRomPoint t p0 p1 p2 p3)).
Proof.
  intros HM Ho Ht [X0 Y0] [X1 Y1] [X2 Y2] [X3 Y3].
  assert (HM0 : 0 <= M) by lra.
  unfold Rounded.catmullRomPoint, catmullRomPoint,
    Rounded.add, Rounded.sub, Rounded.mul.
  cbv zeta. cbn [px py].
  split.
  - eapply near_weaken; [exact Hsmall | exact HM0 | | | approx]; try lra.
  - eapply near_weaken; [exact Hsmall | exact HM0 | | | approx]; try lra.
Qed.

End PointError.

(** ** The ends of a segment *)

Lemma rounds_inflate (u omega : R) : 0 <= u -> rounds u 0 omega (inflate u).
Proof.
  intros U. split; [unfold inflate; ring |].
  intros x _. unfold inflate.
  replace (x * (1 + u) - x) with (u * x) by ring.
  rewrite Rabs_mult, (Rabs_right u) by lra. lra.
Qed.

Lemma approximatesHypot_inflate (u omega : R) :
  0 <= u -> approximatesHypot u 0 omega (fun a b => inflate u (hypot a b)).
Proof.
  intros U a b _. unfold inflate.
  replace (hypot a b * (1 + u) - hypot a b) with (u * hypot a b) by ring.
  rewrite Rabs_right; [lra |].
  apply Rle_ge, Rmult_le_pos; [exact U | apply hypot_nonneg].
Qed.

Lemma small_double : small (1 / 9007199254740992) 0.
Proof. unfold small. lra. Qed.

(** Without rounding, the computed point is the point of [Spline]. *)
Lemma Rounded_exact (t : R) (p0 p1 p2 p3 : Point) :
  Rounded.catmullRomPoint exact t p0 p1 p2 p3 = catmullRomPoint t p0 p1 p2 p3.
Proof. reflexivity. Qed.

Lemma Rounded_exact_loop (p0 p1 p2 p3 : Point) (n k i : nat) (len : R)
    (prev : Point) :
  Rounded.lengthLoop exact hypot p0 p1 p2 p3 n k i len prev
  = lengthLoop p0 p1 p2 p3 n k i len prev.
Proof.
  revert i len prev. induction k as [| k IH]; intros i len prev; [reflexivity |].
  cbn [Rounded.lengthLoop lengthLoop]. rewrite Rounded_exact. apply IH.
Qed.

(** And the computed estimate is the estimate of [Spline]. *)
Lemma Rounded_exact_length (p0 p1 p2 p3 : Point) (n : nat) :
  Rounded.catmullRomLength exact hypot p0 p1 p2 p3 n
  = catmullRomLength p0 p1 p2 p3 n.
Proof. apply Rounded_exact_loop. Qed.

Section Doubles.

Import PrimFloat.

#[local] Set Warnings "-inexact-float".

(** C7, as stated, fails in the arithmetic of the doubles: through
    [(0.1,0.1), (0.2,0.2), (0.3,0.3), (0.7,0.7)] the curve at [t = 1] is
    [(0.30000000000000004, 0.30000000000000004)], which is not [p2]. *)
Lemma C7_counterexample :
  let p0 := Binary64.mkPoint 0.1%float 0.1%float in
  let p1 := Binary64.mkPoint 0.2%float 0.2%float in
  let p2 := Binary64.mkPoint 0.3%float 0.3%float in
  let p3 := Binary64.mkPoint 0.7%float 0.7%float in
  Binary64.catmullRomPoint 1%float p0 p1 p2 p3
  = Binary64.mkPoint 0.30000000000000004%float 0.30000000000000004%float
  /\ (Binary64.px (Binary64.catmullRomPoint 1%float p0 p1 p2 p3)
      =? Binary64.px p2)%float = false.
Proof. split; vm_compute; reflexivity. Qed.

(** The start of the same curve is [p1]. *)
Lemma start_in_doubles :
  let p0 := Binary64.mkPoint 0.1%float 0.1%float in
  let p1 := Binary64.mkPoint 0.2%float 0.2%float in
  let p2 := Binary64.mkPoint 0.3%float 0.3%float in
  let p3 := Binary64.mkPoint 0.7%float 0.7%float in
  Binary64.catmullRomPoint 0%float p0 p1 p2 p3 = p1.
Proof. vm_compute. reflexivity. Qed.

(** With duplicated ends, in doubles: a quarter of the way from [(0,0)] to
    [(1,0)] the curve is at [x = 0.203125], the value of the cubic, with no
    rounding at all; half of the way from [(0.1,0.1)] to [(0.3,0.7)], where
    the cubic and the linear interpolation agree, the curve is at
    [x = 0.19999999999999998] and [p + t*(q - p)] at [0.2]. *)
Lemma duplicated_ends_in_doubles :
  let o := Binary64.mkPoint 0%float 0%float in
  let e := Binary64.mkPoint 1%float 0%float in
  let p := Binary64.mkPoint 0.1%float 0.1%float in
  let q := Binary64.mkPoint 0.3%float 0.7%float in
  Binary64.catmullRomPoint 0.25%float o o e e = Binary64.mkPoint 0.203125%float 0%float
  /\ Binary64.catmullRomPoint 0.5%float p p q q
     = Binary64.mkPoint 0.19999999999999998%float 0.4%float
  /\ (0.1 + 0.5 * (0.3 - 0.1))%float = 0.2%float.
Proof. repeat split; vm_compute; reflexivity. Qed.

End Doubles.

Section Interpolation.

Variable rnd : R -> R.
Variables u eta omega : R.
Hypothesis Hrnd : rounds u eta omega rnd.
Hypothesis Hsmall : small u eta.

(** C7, amended: the curve starts at [p1] exactly, whenever the coordinates
    of [p1] and their doubles are numbers of the arithmetic; it ends at [p2]
    up to rounding: each coordinate at [t = 1] is within [100 (u + eta) M] of
    the one of [p2], for control points with coordinates of at most [M],
    where [1 <= M] and [4096 M <= omega]. *)
Theorem C7_curve_interpolates_inner_points (M : R) (p0 p1 p2 p3 : Point) :
  1 <= M -> 4096 * M <= omega ->
  representable rnd (px p1) -> representable rnd (2 * px p1) ->
  representable rnd (py p1) -> representable rnd (2 * py p1) ->
  within M p0 -> within M p1 -> within M p2 -> within M p3 ->
  Rounded.catmullRomPoint rnd 0 p0 p1 p2 p3 = p1 /\
  Rabs (px (Rounded.catmullRomPoint rnd 1 p0 p1 p2 p3) - px p2)
  <= 100 * (u + eta) * M /\
  Rabs (py (Rounded.catmullRomPoint rnd 1 p0 p1 p2 p3) - py p2)
  <= 100 * (u + eta) * M.
Proof.
  intros HM Ho Rx R2x Ry R2y H0 H1 H2 H3.
  unfold representable in *.
  pose proof (proj1 Hrnd) as Z.
  split.
  - unfold Rounded.catmullRomPoint, Rounded.add, Rounded.sub, Rounded.mul.
    cbv zeta. apply Point_eq; cbn [px py].
    + rewrite !Rmult_0_r, !Z, !Rmult_0_r, !Z, !Rplus_0_r, !R2x.
      replace (0.5 * (2 * px p1)) with (px p1) by lra. exact Rx.
    + rewrite !Rmult_0_r, !Z, !Rmult_0_r, !Z, !Rplus_0_r, !R2y.
      replace (0.5 * (2 * py p1)) with (py p1) by lra. exact Ry.
  - assert (Ht : Rabs 1 <= 1025 / 1024) by (rewrite Rabs_R1; lra).
    destruct (catmullRomPoint_error rnd u eta omega Hrnd Hsmall 1 M p0 p1 p2 p3
                HM Ho Ht H0 H1 H2 H3) as [[Ex _] [Ey _]].
    rewrite catmullRomPoint_1 in Ex, Ey. split; assumption.
Qed.

End Interpolation.

(** The amended C7 in an arithmetic that errs by [2^-53] in every operation,
    from the origin, on control points with coordinates of at most 8. *)
Lemma C7_curve_interpolates_inner_points_witness :
  let u := 1 / 9007199254740992 in
  let p0 := mkPoint (-3) 1 in
  let p1 := mkPoint 0 0 in
  let p2 := mkPoint 4 3 in
  let p3 := mkPoint 8 1 in
  Rounded.catmullRomPoint (inflate u) 0 p0 p1 p2 p3 = p1 /\
  Rabs (px (Rounded.catmullRomPoint (inflate u) 1 p0 p1 p2 p3) - px p2)
  <= 100 * (u + 0) * 8 /\
  Rabs (py (Rounded.catmullRomPoint (inflate u) 1 p0 p1 p2 p3) - py p2)
  <= 100 * (u + 0) * 8.
Proof.
  intros u p0 p1 p2 p3.
  assert (U : 0 <= u) by (unfold u; lra).
  apply (C7_curve_interpolates_inner_points (inflate u) u 0 32768
           (rounds_inflate u 32768 U) small_double).
  - lra.
  - lra.
  - unfold representable, inflate. cbn [px p1]. ring.
  - unfold representable, inflate. cbn [px p1]. ring.
  - unfold representable, inflate. cbn [py p1]. ring.
  - unfold representable, inflate. cbn [py p1]. ring.
  - split; cbn [px py p0]; [rewrite Rabs_left | rewrite Rabs_right]; lra.
  - split; cbn [px py p1]; rewrite Rabs_R0; lra.
  - split; cbn [px py p2]; rewrite Rabs_right; lra.
  - split; cbn [px py p3]; rewrite Rabs_right; lra.
Defined.

(** ** Duplicated ends *)

Lemma catmullRomPoint_duplicated (t : R) (p q : Point) :
  catmullRomPoint t p p q q = lerp (ease t) p q.
Proof. apply Point_eq; unfold ease; simpl; lra. Qed.

Lemma ease_range (t : R) : 0 <= t <= 1 -> 0 <= ease t <= 1.
Proof.
  intros [H0 H1]. unfold ease.
  assert (0 <= t * t) by nra.
  assert (t * t <= t) by nra.
  assert (0 <= t * t * t) by nra.
  assert (t * t * t <= t * t) by nra.
  split; nra.
Qed.

Lemma ease_fixed (t : R) : ease t = t <-> t = 0 \/ t = 1 / 2 \/ t = 1.
Proof.
  unfold ease. split.
  - intros H.
    assert (E : t * ((1 - t) * (1 - 2 * t)) = 0) by lra.
    apply Rmult_integral in E. destruct E as [E | E]; [left; exact E |].
    apply Rmult_integral in E. destruct E as [E | E]; right; [right | left]; lra.
  - intros [-> | [-> | ->]]; lra.
Qed.

(** C3, as stated, fails: at [t = 1/4] the curve through [(0,0), (0,0), (1,0), (1,0)]
    is at [x = 13/64], the linear interpolation at [x = 1/4]. *)
Lemma C3_counterexample :
  catmullRomPoint (1 / 4) (mkPoint 0 0) (mkPoint 0 0) (mkPoint 1 0) (mkPoint 1 0)
  <> lerp (1 / 4) (mkPoint 0 0) (mkPoint 1 0).
Proof.
  intros H. apply (f_equal px) in H. simpl in H. lra.
Qed.

Section DuplicatedEnds.

Variable rnd : R -> R.
Variables u eta omega : R.
Hypothesis Hrnd : rounds u eta omega rnd.
Hypothesis Hsmall : small u eta.

(** C3, amended: with the first two and the last two control points
    duplicated, the curve follows the segment from [p] to [q] up to rounding:
    for [t] in [[0,1]] each coordinate of the computed point is within
    [100 (u + eta) M] of the one of [p + s*(q - p)], with
    [s = (t + 3t^2 - 2t^3)/2] in [[0,1]] and [M] a bound of the coordinates
    of [p] and [q], where [1 <= M] and [4096 M <= omega].  That point is the
    linear interpolation [p + t*(q - p)] at [t = 0], [1/2] and [1], and,
    unless [p = q], at no other [t]. *)
Theorem C3_duplicated_ends_stay_on_chord (M : R) (p q : Point) (t : R) :
  1 <= M -> 4096 * M <= omega ->
  0 <= t <= 1 -> within M p -> within M q ->
  Rabs (px (Rounded.catmullRomPoint rnd t p p q q) - px (lerp (ease t) p q))
  <= 100 * (u + eta) * M /\
  Rabs (py (Rounded.catmullRomPoint rnd t p p q q) - py (lerp (ease t) p q))
  <= 100 * (u + eta) * M /\
  0 <= ease t <= 1 /\
  (lerp (ease t) p q = lerp t p q <-> p = q \/ t = 0 \/ t = 1 / 2 \/ t = 1).
Proof.
  intros HM Ho Ht Hp Hq.
  assert (Ht' : Rabs t <= 1025 / 1024) by (rewrite Rabs_right; lra).
  destruct (catmullRomPoint_error rnd u eta omega Hrnd Hsmall t M p p q q
              HM Ho Ht' Hp Hp Hq Hq) as [[Ex _] [Ey _]].
  rewrite catmullRomPoint_duplicated in Ex, Ey.
  split; [exact Ex |]. split; [exact Ey |].
  split; [apply ease_range; exact Ht |].
  split.
  - intros H.
    destruct (Req_dec (ease t) t) as [E | E]; [right; apply ease_fixed; exact E |].
    left. apply Point_eq.
    + apply (f_equal px) in H. simpl in H.
      assert (Z : (ease t - t) * (px q - px p) = 0) by lra.
      apply Rmult_integral in Z. destruct Z; lra.
    + apply (f_equal py) in H. simpl in H.
      assert (Z : (ease t - t) * (py q - py p) = 0) by lra.
      apply Rmult_integral in Z. destruct Z; lra.
  - intros [-> | H].
    + apply Point_eq; simpl; lra.
    + apply ease_fixed in H. rewrite H. reflexivity.
Qed.

End DuplicatedEnds.

(** The amended C3 at [t = 1/4] between [(0,0)] and [(8,4)], in an
    arithmetic that errs by [2^-53] in every operation. *)
Lemma C3_duplicated_ends_stay_on_chord_witness :
  let u := 1 / 9007199254740992 in
  let p := mkPoint 0 0 in
  let q := mkPoint 8 4 in
  Rabs (px (Rounded.catmullRomPoint (inflate u) (1 / 4) p p q q)
        - px (lerp (ease (1 / 4)) p q)) <= 100 * (u + 0) * 8.
Proof.
  intros u p q.
  assert (U : 0 <= u) by (unfold u; lra).
  assert (T : 0 <= 1 / 4 <= 1) by lra.
  assert (Hp : within 8 p) by (split; cbn; rewrite Rabs_R0; lra).
  assert (Hq : within 8 q) by (split; cbn; rewrite Rabs_right; lra).
  assert (HM : 1 <= 8) by lra.
  assert (Ho : 4096 * 8 <= 32768) by lra.
  exact (proj1 (C3_duplicated_ends_stay_on_chord (inflate u) u 0 32768
                  (rounds_inflate u 32768 U) small_double
                  8 p q (1 / 4) HM Ho T Hp Hq)).
Defined.

(** ** Length estimate *)

Lemma dist_nonneg (a b : Point) : 0 <= dist a b.
Proof. apply hypot_nonneg. Qed.

Lemma dist_triangle (a b c : Point) : dist a c <= dist a b + dist b c.
Proof.
  unfold dist, hypot.
  pose proof (triangle (px c) (py c) (px a) (py a) (px b) (py b)) as T.
  unfold dist_euc, Rsqr in T.
  lra.
Qed.

Lemma walk_nonneg (g : nat -> Point) (k i : nat) (prev : Point) :
  0 <= walk g k i prev.
Proof.
  revert i prev. induction k as [| k IH]; intros i prev; simpl; [lra |].
  pose proof (dist_nonneg prev (g i)). pose proof (IH (S i) (g i)). lra.
Qed.

(** The loop of [catmullRomLength] adds the length of the sampled polyline. *)
Lemma lengthLoop_walk (p0 p1 p2 p3 : Point) (samples k i : nat) (len : R) (prev : Point) :
  lengthLoop p0 p1 p2 p3 samples k i len prev
  = len + walk (sample p0 p1 p2 p3 samples) k i prev.
Proof.
  revert i len prev.
  induction k as [| k IH]; intros i len prev; cbn [lengthLoop walk]; [lra |].
  rewrite IH. unfold dist.
  change (catmullRomPoint (INR i / INR samples) p0 p1 p2 p3)
    with (sample p0 p1 p2 p3 samples i).
  lra.
Qed.

Lemma catmullRomLength_walk (p0 p1 p2 p3 : Point) (samples : nat) :
  catmullRomLength p0 p1 p2 p3 samples
  = walk (sample p0 p1 p2 p3 samples) samples 1 (sample p0 p1 p2 p3 samples 0).
Proof.
  unfold catmullRomLength. rewrite lengthLoop_walk.
  unfold sample at 3. simpl INR.
  replace (0 / INR samples) with 0 by (unfold Rdiv; ring).
  rewrite catmullRomPoint_0. lra.
Qed.

Lemma catmullRomLength_nonneg (p0 p1 p2 p3 : Point) (samples : nat) :
  0 <= catmullRomLength p0 p1 p2 p3 samples.
Proof. rewrite catmullRomLength_walk. apply walk_nonneg. Qed.

(** A polyline is at least as long as its chord. *)
Lemma walk_chord (g : nat -> Point) (k i : nat) (prev : Point) :
  dist prev (g (i + k)%nat) <= walk g (S k) i prev.
Proof.
  revert i prev. induction k as [| k IH]; intros i prev.
  - simpl. rewrite Nat.add_0_r. lra.
  - change (walk g (S (S k)) i prev) with (dist prev (g i) + walk g (S k) (S i) (g i)).
    pose proof (IH (S i) (g i)) as H.
    replace (S i + k)%nat with (i + S k)%nat in H by lia.
    pose proof (dist_triangle prev (g i) (g (i + S k)%nat)). lra.
Qed.

Lemma walk_app (g : nat -> Point) (a b i : nat) (prev : Point) :
  walk g (S a + b) i prev
  = walk g (S a) i prev + walk g b (S (i + a)) (g (i + a)%nat).
Proof.
  revert i prev. induction a as [| a IH]; intros i prev.
  - simpl. rewrite Nat.add_0_r. lra.
  - change (walk g (S (S a) + b) i prev)
      with (dist prev (g i) + walk g (S a + b) (S i) (g i)).
    change (walk g (S (S a)) i prev)
      with (dist prev (g i) + walk g (S a) (S i) (g i)).
    rewrite IH. replace (S i + a)%nat with (i + S a)%nat by lia. lra.
Qed.

(** Keeping every [k]-th vertex of a polyline does not make it longer. *)
Lemma walk_refine (g : nat -> Point) (k r i : nat) :
  walk (fun j => g (S k * j)%nat) r (S i) (g (S k * i)%nat)
  <= walk g (S k * r) (S (S k * i)) (g (S k * i)%nat).
Proof.
  revert i. induction r as [| r IH]; intros i.
  - rewrite Nat.mul_0_r. simpl. lra.
  - replace (S k * S r)%nat with (S k + S k * r)%nat by lia.
    rewrite walk_app.
    change (walk (fun j => g (S k * j)%nat) (S r) (S i) (g (S k * i)%nat))
      with (dist (g (S k * i)%nat) (g (S k * S i)%nat)
            + walk (fun j => g (S k * j)%nat) r (S (S i)) (g (S k * S i)%nat)).
    pose proof (walk_chord g k (S (S k * i)) (g (S k * i)%nat)) as C.
    pose proof (IH (S i)) as H.
    replace (S (S k * i) + k)%nat with (S k * S i)%nat in * by lia.
    lra.
Qed.

Lemma walk_ext (g h : nat -> Point) (k i : nat) (prev : Point) :
  (forall j, g j = h j) -> walk g k i prev = walk h k i prev.
Proof.
  intros E. revert i prev. induction k as [| k IH]; intros i prev; simpl; [reflexivity |].
  rewrite E, IH. reflexivity.
Qed.

Lemma sample_multiple (p0 p1 p2 p3 : Point) (m k j : nat) :
  (1 <= m)%nat ->
  sample p0 p1 p2 p3 m j = sample p0 p1 p2 p3 (S k * m) (S k * j).
Proof.
  intros Hm. unfold sample. f_equal.
  rewrite !mult_INR.
  assert (INR m <> 0) by (apply not_0_INR; lia).
  assert (INR (S k) <> 0) by (apply not_0_INR; lia).
  field. split; assumption.
Qed.

(** C4, as stated, fails: through [(-64,0), (0,0), (4,0), (-64,0)] the
    estimate with two samples is [33/2], with three samples [148/9]. *)
Lemma C4_counterexample :
  (1 <= 2 <= 3)%nat /\
  catmullRomLength (mkPoint (-64) 0) (mkPoint 0 0) (mkPoint 4 0) (mkPoint (-64) 0) 3
  < catmullRomLength (mkPoint (-64) 0) (mkPoint 0 0) (mkPoint 4 0) (mkPoint (-64) 0) 2.
Proof.
  split; [lia |].
  assert (L2 : catmullRomLength (mkPoint (-64) 0) (mkPoint 0 0) (mkPoint 4 0)
                 (mkPoint (-64) 0) 2 = 33 / 2).
  { unfold catmullRomLength, lengthLoop, catmullRomPoint. cbn [px py INR].
    rewrite (hypot_flat _ _ (41 / 4)); [| lra | left; lra | lra].
    rewrite (hypot_flat _ _ (25 / 4)); [| lra | right; lra | lra].
    lra. }
  assert (L3 : catmullRomLength (mkPoint (-64) 0) (mkPoint 0 0) (mkPoint 4 0)
                 (mkPoint (-64) 0) 3 = 148 / 9).
  { unfold catmullRomLength, lengthLoop, catmullRomPoint. cbn [px py INR].
    rewrite (hypot_flat _ _ (76 / 9)); [| lra | left; lra | lra].
    rewrite (hypot_flat _ _ (16 / 9)); [| lra | left; lra | lra].
    rewrite (hypot_flat _ _ (56 / 9)); [| lra | right; lra | lra].
    lra. }
  rewrite L2, L3. lra.
Qed.

(** ** Rounding errors of the length estimate *)

Lemma Rabs_bounds (x y : R) : Rabs x <= y -> - y <= x <= y.
Proof.
  intros H. pose proof (Rle_abs x). pose proof (Rle_abs (- x)) as N.
  rewrite Rabs_Ropp in N. lra.
Qed.

Lemma hypot_le_sum (a b : R) : hypot a b <= Rabs a + Rabs b.
Proof.
  unfold hypot.
  pose proof (Rabs_pos a) as A. pose proof (Rabs_pos b) as B.
  rewrite <- (sqrt_square (Rabs a + Rabs b)) by lra.
  apply sqrt_le_1_alt.
  assert (Ea : a * a = Rabs a * Rabs a).
  { rewrite <- Rabs_mult. symmetry. apply Rabs_right. nra. }
  assert (Eb : b * b = Rabs b * Rabs b).
  { rewrite <- Rabs_mult. symmetry. apply Rabs_right. nra. }
  rewrite Ea, Eb. nra.
Qed.

Lemma hypot_lipschitz (a' b' a b : R) :
  Rabs (hypot a' b' - hypot a b) <= Rabs (a' - a) + Rabs (b' - b).
Proof.
  pose proof (dist_triangle (mkPoint 0 0) (mkPoint a b) (mkPoint a' b')) as T1.
  pose proof (dist_triangle (mkPoint 0 0) (mkPoint a' b') (mkPoint a b)) as T2.
  unfold dist in T1, T2. cbn [px py] in T1, T2.
  rewrite !Rminus_0_r in T1, T2.
  pose proof (hypot_le_sum (a' - a) (b' - b)) as S1.
  pose proof (hypot_le_sum (a - a') (b - b')) as S2.
  rewrite (Rabs_minus_sym a a'), (Rabs_minus_sym b b') in S2.
  apply Rabs_le. lra.
Qed.

Section LengthError.

Variable rnd : R -> R.
Variable hypotFl : R -> R -> R.
Variables u eta omega : R.
Hypothesis Hrnd : rounds u eta omega rnd.
Hypothesis Hhypot : approximatesHypot u eta omega hypotFl.
Hypothesis Hsmall : small u eta.

Variables p0 p1 p2 p3 : Point.
Variable M : R.
Hypothesis HM : 1 <= M.
Hypothesis H0 : within M p0.
Hypothesis H1 : within M p1.
Hypothesis H2 : within M p2.
Hypothesis H3 : within M p3.

Lemma parameter_rounded (n j : nat) :
  1 <= omega -> (1 <= n)%nat -> (j <= n)%nat ->
  Rabs (rnd (INR j / INR n)) <= 1025 / 1024.
Proof.
  intros Ho Hn Hj. destruct Hsmall as (U & E & S). destruct Hrnd as [_ Hr].
  assert (N : 0 < INR n) by (apply lt_0_INR; lia).
  assert (X : 0 <= INR j / INR n <= 1).
  { split.
    - apply Rmult_le_pos; [apply pos_INR | left; apply Rinv_0_lt_compat; exact N].
    - apply Rmult_le_reg_r with (INR n); [exact N |].
      unfold Rdiv. rewrite Rmult_assoc, Rinv_l, Rmult_1_r, Rmult_1_l by lra.
      apply le_INR. exact Hj. }
  assert (A : Rabs (INR j / INR n) = INR j / INR n) by (apply Rabs_right; lra).
  assert (F : Rabs (INR j / INR n) <= omega) by lra.
  pose proof (Hr (INR j / INR n) F) as Q.
  rewrite A in Q.
  replace (rnd (INR j / INR n))
    with (INR j / INR n + (rnd (INR j / INR n) - INR j / INR n)) by ring.
  eapply Rle_trans; [apply Rabs_triang |].
  rewrite A.
  assert (u * (INR j / INR n) <= u * 1) by (apply Rmult_le_compat_l; lra).
  lra.
Qed.

(** One chord of the polyline: between two computed points, each within
    [100 (u + eta) M] of an exact point that is within [13 M] of the
    origin. *)
Lemma chord_error (prev' prev curr' curr : Point) :
  4096 * M <= omega ->
  near (u + eta) 100 13 M (px prev') (px prev) ->
  near (u + eta) 100 13 M (py prev') (py prev) ->
  near (u + eta) 100 13 M (px curr') (px curr) ->
  near (u + eta) 100 13 M (py curr') (py curr) ->
  Rabs (hypotFl (rnd (px curr' - px prev')) (rnd (py curr' - py prev'))
        - dist prev curr) <= 507 * (u + eta) * M
  /\ 0 <= dist prev curr <= 52 * M.
Proof.
  intros Ho Px Py Cx Cy.
  assert (HM0 : 0 <= M) by lra.
  assert (Dx : near (u + eta) 227 26 M
                 (rnd (px curr' - px prev')) (px curr - px prev)).
  { eapply near_weaken; [exact Hsmall | exact HM0 | | |
      eapply (near_sub rnd u eta omega Hrnd Hsmall);
      [exact HM | exact Ho | | | | | exact Cx | exact Px]]; lra. }
  assert (Dy : near (u + eta) 227 26 M
                 (rnd (py curr' - py prev')) (py curr - py prev)).
  { eapply near_weaken; [exact Hsmall | exact HM0 | | |
      eapply (near_sub rnd u eta omega Hrnd Hsmall);
      [exact HM | exact Ho | | | | | exact Cy | exact Py]]; lra. }
  destruct Dx as [Ex Mx]. destruct Dy as [Ey My].
  destruct Hsmall as (U & E & S).
  set (e := u + eta) in *.
  assert (W : 0 <= e * M) by (apply Rmult_le_pos; unfold e in *; lra).
  unfold dist.
  set (dx' := rnd (px curr' - px prev')) in *.
  set (dy' := rnd (py curr' - py prev')) in *.
  set (dx := px curr - px prev) in *. set (dy := py curr - py prev) in *.
  pose proof (hypot_lipschitz dx' dy' dx dy) as L.
  pose proof (hypot_le_sum dx dy) as Sm.
  pose proof (hypot_nonneg dx dy) as P.
  pose proof (hypot_nonneg dx' dy') as P'.
  split; [| lra].
  assert (EW : e * (e * M) <= 1 / 1024 * (e * M))
    by (apply Rmult_le_compat_r; unfold e in *; lra).
  assert (L' : hypot dx' dy' <= 52 * M + 454 * (e * M)).
  { apply Rabs_bounds in L. lra. }
  assert (Fit : hypot dx' dy' <= omega).
  { assert (e * M <= 1 / 1024 * M)
      by (apply Rmult_le_compat_r; unfold e in *; lra).
    lra. }
  pose proof (Hhypot dx' dy' Fit) as F.
  assert (Q : u * hypot dx' dy' + eta <= 52 * (e * M) + 454 / 1024 * (e * M)).
  { assert (u * hypot dx' dy' <= u * (52 * M + 454 * (e * M)))
      by (apply Rmult_le_compat_l; lra).
    assert (eta * 1 <= eta * (52 * M + 454 * (e * M)))
      by (apply Rmult_le_compat_l; lra).
    replace (52 * (e * M) + 454 / 1024 * (e * M))
      with (e * (52 * M) + 454 * (1 / 1024 * (e * M))) by field.
    assert (e * (52 * M + 454 * (e * M))
            <= e * (52 * M) + 454 * (1 / 1024 * (e * M))).
    { rewrite Rmult_plus_distr_l.
      replace (e * (454 * (e * M))) with (454 * (e * (e * M))) by ring. lra. }
    unfold e in *. lra. }
  replace (hypotFl dx' dy' - hypot dx dy)
    with ((hypotFl dx' dy' - hypot dx' dy') + (hypot dx' dy' - hypot dx dy)) by ring.
  eapply Rle_trans; [apply Rabs_triang |]. lra.
Qed.

Variable n : nat.
Hypothesis Hn : (1 <= n)%nat.
Hypothesis Hne : INR n * (u + eta) <= 1 / 4.
Hypothesis Ho : INR n * (4096 * M) <= omega.

Lemma range_of_a_point : 4096 * M <= omega.
Proof.
  assert (N1 : 1 <= INR n) by (change 1 with (INR 1); apply le_INR; exact Hn).
  apply Rle_trans with (INR n * (4096 * M)); [| exact Ho].
  rewrite <- (Rmult_1_l (4096 * M)) at 1. apply Rmult_le_compat_r; lra.
Qed.

(** The loop of [catmullRomLength] against the polyline through the exact
    curve points at the computed parameters: after [i - 1] of the [n] rounds
    the two sums differ by at most [(i - 1) * G]. *)
Lemma lengthLoop_error (k i : nat) (len' len : R) (prev' prev : Point) :
  (1 <= i)%nat -> (i + k = S n)%nat ->
  near (u + eta) 100 13 M (px prev') (px prev) ->
  near (u + eta) 100 13 M (py prev') (py prev) ->
  Rabs (len' - len) <= INR (i - 1) * (2 * (507 + 52 * INR n) * (u + eta) * M) ->
  0 <= len <= INR (i - 1) * (52 * M) ->
  Rabs (Rounded.lengthLoop rnd hypotFl p0 p1 p2 p3 n k i len' prev'
        - (len + walk (sampleRounded rnd p0 p1 p2 p3 n) k i prev))
  <= INR n * (2 * (507 + 52 * INR n) * (u + eta) * M).
Proof.
  pose proof range_of_a_point as HoM.
  pose proof Hsmall as (U & E & Sm).
  assert (W : 0 <= (u + eta) * M) by (apply Rmult_le_pos; lra).
  assert (N1 : 1 <= INR n) by (change 1 with (INR 1); apply le_INR; exact Hn).
  set (G := 2 * (507 + 52 * INR n) * (u + eta) * M).
  assert (HG : G = 1014 * ((u + eta) * M) + 104 * (INR n * ((u + eta) * M)))
    by (unfold G; ring).
  assert (NW : 0 <= INR n * ((u + eta) * M)) by (apply Rmult_le_pos; lra).
  assert (G27 : G <= 27 * M).
  { assert ((u + eta) * M <= 1 / 1024 * M) by (apply Rmult_le_compat_r; lra).
    assert (INR n * (u + eta) * M <= 1 / 4 * M) by (apply Rmult_le_compat_r; lra).
    rewrite HG. replace (INR n * ((u + eta) * M)) with (INR n * (u + eta) * M) by ring.
    lra. }
  revert i len' len prev' prev.
  induction k as [| k IH]; intros i len' len prev' prev Hi Hik Px Py Hlen Hb.
  - cbn [Rounded.lengthLoop walk]. rewrite Rplus_0_r.
    replace (i - 1)%nat with n in Hlen by lia. exact Hlen.
  - cbn [Rounded.lengthLoop walk]. unfold Rounded.div, Rounded.add, Rounded.sub.
    set (t := rnd (INR i / INR n)).
    assert (Ht : Rabs t <= 1025 / 1024)
      by (apply parameter_rounded; [lra | exact Hn | lia]).
    destruct (catmullRomPoint_error rnd u eta omega Hrnd Hsmall t M p0 p1 p2 p3
                HM HoM Ht H0 H1 H2 H3) as [Cx Cy].
    change (catmullRomPoint t p0 p1 p2 p3) with (sampleRounded rnd p0 p1 p2 p3 n i) in *.
    set (curr' := Rounded.catmullRomPoint rnd t p0 p1 p2 p3) in *.
    set (curr := sampleRounded rnd p0 p1 p2 p3 n i) in *.
    destruct (chord_error prev' prev curr' curr HoM Px Py Cx Cy) as [Ed Bd].
    set (d' := hypotFl (rnd (px curr' - px prev')) (rnd (py curr' - py prev'))) in *.
    set (d := dist prev curr) in *.
    rewrite <- Rplus_assoc.
    apply (IH (S i)); [lia | lia | exact Cx | exact Cy | |].
    + replace (S i - 1)%nat with (S (i - 1)) by lia.
      rewrite S_INR.
      set (I := INR (i - 1)) in *.
      assert (I0 : 0 <= I) by apply pos_INR.
      assert (IN : I + 1 <= INR n).
      { unfold I. rewrite <- S_INR. apply le_INR. lia. }
      assert (G0 : 0 <= G) by lra.
      assert (Er : Rabs (len' + d' - (len + d)) <= I * G + 507 * ((u + eta) * M)).
      { replace (len' + d' - (len + d)) with ((len' - len) + (d' - d)) by ring.
        eapply Rle_trans; [apply Rabs_triang |]. lra. }
      assert (Mg : Rabs (len + d) <= (I + 1) * (52 * M)).
      { rewrite Rabs_right by lra. lra. }
      assert (M1 : 1 <= (I + 1) * (52 * M)).
      { replace 1 with (1 * 1) by ring. apply Rmult_le_compat; lra. }
      assert (IG : I * G <= I * (27 * M)) by (apply Rmult_le_compat_l; lra).
      assert (IM : (I + 1) * (79 * M) <= INR n * (79 * M))
        by (apply Rmult_le_compat_r; lra).
      assert (NM : INR n * (79 * M) <= INR n * (4096 * M))
        by (apply Rmult_le_compat_l; lra).
      assert (Fit : (I + 1) * (52 * M) + (I * G + 507 * ((u + eta) * M)) <= omega).
      { assert (0 <= I * M) by (apply Rmult_le_pos; lra). lra. }
      eapply Rle_trans;
        [apply (rnd_error rnd u eta omega Hrnd Hsmall _ _ _ _ Er Mg M1 Fit) |].
      set (e := u + eta) in *.
      assert (E0 : 0 <= e) by (unfold e; lra).
      assert (Q1 : e * (I * G) <= 1 / 4 * G).
      { replace (e * (I * G)) with ((I * e) * G) by ring.
        apply Rmult_le_compat_r; [exact G0 |].
        apply Rle_trans with (INR n * e); [| exact Hne].
        apply Rmult_le_compat_r; lra. }
      assert (Q2 : e * (507 * (e * M)) <= 507 / 1024 * (e * M)).
      { replace (e * (507 * (e * M))) with (507 * (e * (e * M))) by ring.
        assert (e * (e * M) <= 1 / 1024 * (e * M)) by (apply Rmult_le_compat_r; lra).
        lra. }
      assert (Q3 : e * ((I + 1) * (52 * M)) <= 52 * (INR n * (e * M))).
      { replace (e * ((I + 1) * (52 * M))) with (52 * ((I + 1) * (e * M))) by ring.
        assert ((I + 1) * (e * M) <= INR n * (e * M))
          by (apply Rmult_le_compat_r; lra).
        lra. }
      lra.
    + replace (S i - 1)%nat with (S (i - 1)) by lia.
      rewrite S_INR. lra.
Qed.

(** The computed estimate is the length of that polyline up to
    [1200 n^2 (u + eta) M]. *)
Lemma catmullRomLength_error :
  Rabs (Rounded.catmullRomLength rnd hypotFl p0 p1 p2 p3 n
        - walk (sampleRounded rnd p0 p1 p2 p3 n) n 1 p1)
  <= 1200 * (INR n * INR n) * (u + eta) * M.
Proof.
  pose proof Hsmall as (U & E & Sm).
  assert (HM0 : 0 <= M) by lra.
  assert (W : 0 <= (u + eta) * M) by (apply Rmult_le_pos; lra).
  assert (N1 : 1 <= INR n) by (change 1 with (INR 1); apply le_INR; exact Hn).
  pose proof (lengthLoop_error n 1 0 0 p1 p1) as L.
  rewrite Rplus_0_l in L. unfold Rounded.catmullRomLength.
  destruct H1 as [X1 Y1].
  eapply Rle_trans.
  - apply L; [lia | lia | | | |].
    + eapply near_weaken; [exact Hsmall | exact HM0 | | | apply near_coord; exact X1]; lra.
    + eapply near_weaken; [exact Hsmall | exact HM0 | | | apply near_coord; exact Y1]; lra.
    + cbn [Nat.sub INR]. rewrite Rminus_diag, Rabs_R0. lra.
    + cbn [Nat.sub INR]. lra.
  - set (e := u + eta) in *.
    assert (E0 : 0 <= e) by (unfold e; lra).
    assert (NN : INR n * (e * M) <= INR n * INR n * (e * M)).
    { rewrite Rmult_assoc. apply Rmult_le_compat_l; [lra |].
      rewrite <- (Rmult_1_l (e * M)) at 1. apply Rmult_le_compat_r; lra. }
    assert (P : 0 <= INR n * INR n * (e * M)).
    { apply Rmult_le_pos; [apply Rmult_le_pos; lra | exact W]. }
    replace (INR n * (2 * (507 + 52 * INR n) * e * M))
      with (1014 * (INR n * (e * M)) + 104 * (INR n * INR n * (e * M))) by ring.
    replace (1200 * (INR n * INR n) * e * M)
      with (1200 * (INR n * INR n * (e * M))) by ring.
    lra.
Qed.

End LengthError.

(** ** Refining the sampling *)

Lemma sampleRounded_multiple (rnd : R -> R) (p0 p1 p2 p3 : Point) (m k j : nat) :
  (1 <= m)%nat ->
  sampleRounded rnd p0 p1 p2 p3 m j
  = sampleRounded rnd p0 p1 p2 p3 (S k * m) (S k * j).
Proof.
  intros Hm. unfold sampleRounded. do 2 f_equal.
  rewrite !mult_INR.
  assert (INR m <> 0) by (apply not_0_INR; lia).
  assert (INR (S k) <> 0) by (apply not_0_INR; lia).
  field. split; assumption.
Qed.

Section Refinement.

Variable rnd : R -> R.
Variable hypotFl : R -> R -> R.
Variables u eta omega : R.
Hypothesis Hrnd : rounds u eta omega rnd.
Hypothesis Hhypot : approximatesHypot u eta omega hypotFl.
Hypothesis Hsmall : small u eta.

Lemma sampleRounded_0 (p0 p1 p2 p3 : Point) (n : nat) :
  sampleRounded rnd p0 p1 p2 p3 n 0 = p1.
Proof.
  unfold sampleRounded. cbn [INR].
  replace (0 / INR n) with 0 by (unfold Rdiv; ring).
  rewrite (proj1 Hrnd). apply catmullRomPoint_0.
Qed.

(** C4, amended: the estimate does not decrease when the sampling is
    refined, up to rounding: for control points with coordinates of at most
    [M] and all sample counts [m >= 1] and [n = k*m] with [k >= 1], the
    length estimated with [m] samples is at most the length estimated with
    [n] samples plus [2400 n^2 (u + eta) M], where [1 <= M],
    [n (u + eta) <= 1/4] and [4096 n M <= omega]. *)
Theorem C4_length_monotone_under_refinement (M : R) (p0 p1 p2 p3 : Point)
    (m k : nat) :
  (1 <= m)%nat -> (1 <= k)%nat ->
  1 <= M ->
  INR (k * m) * (u + eta) <= 1 / 4 ->
  INR (k * m) * (4096 * M) <= omega ->
  within M p0 -> within M p1 -> within M p2 -> within M p3 ->
  Rounded.catmullRomLength rnd hypotFl p0 p1 p2 p3 m
  <= Rounded.catmullRomLength rnd hypotFl p0 p1 p2 p3 (k * m)
     + 2400 * (INR (k * m) * INR (k * m)) * (u + eta) * M.
Proof.
  intros Hm Hk HM Hne Ho H0 H1 H2 H3.
  destruct k as [| k]; [lia |].
  pose proof Hsmall as (U & E & Sm).
  assert (W : 0 <= (u + eta) * M) by (apply Rmult_le_pos; lra).
  assert (Lm : INR m <= INR (S k * m)) by (apply le_INR; lia).
  assert (M1 : 1 <= INR m) by (change 1 with (INR 1); apply le_INR; exact Hm).
  assert (Hme : INR m * (u + eta) <= 1 / 4).
  { apply Rle_trans with (INR (S k * m) * (u + eta)); [| exact Hne].
    apply Rmult_le_compat_r; lra. }
  assert (Hmo : INR m * (4096 * M) <= omega).
  { apply Rle_trans with (INR (S k * m) * (4096 * M)); [| exact Ho].
    apply Rmult_le_compat_r; lra. }
  pose proof (catmullRomLength_error rnd hypotFl u eta omega Hrnd Hhypot Hsmall
                p0 p1 p2 p3 M HM H0 H1 H2 H3 m Hm Hme Hmo) as Em.
  assert (Hn : (1 <= S k * m)%nat) by lia.
  pose proof (catmullRomLength_error rnd hypotFl u eta omega Hrnd Hhypot Hsmall
                p0 p1 p2 p3 M HM H0 H1 H2 H3 (S k * m) Hn Hne Ho) as En.
  apply Rabs_bounds in Em. apply Rabs_bounds in En.
  assert (Wk : walk (sampleRounded rnd p0 p1 p2 p3 m) m 1 p1
               <= walk (sampleRounded rnd p0 p1 p2 p3 (S k * m)) (S k * m) 1 p1).
  { rewrite (walk_ext (sampleRounded rnd p0 p1 p2 p3 m)
               (fun j => sampleRounded rnd p0 p1 p2 p3 (S k * m) (S k * j)))
      by (intros j; apply sampleRounded_multiple; exact Hm).
    pose proof (walk_refine (sampleRounded rnd p0 p1 p2 p3 (S k * m)) k m 0) as H.
    rewrite Nat.mul_0_r, sampleRounded_0 in H. exact H. }
  set (e := u + eta) in *.
  assert (Sq : INR m * INR m * (e * M)
               <= INR (S k * m) * INR (S k * m) * (e * M)).
  { apply Rmult_le_compat_r; [exact W |]. apply Rmult_le_compat; lra. }
  replace (1200 * (INR m * INR m) * e * M)
    with (1200 * (INR m * INR m * (e * M))) in Em by ring.
  replace (1200 * (INR (S k * m) * INR (S k * m)) * e * M)
    with (1200 * (INR (S k * m) * INR (S k * m) * (e * M))) in En by ring.
  replace (2400 * (INR (S k * m) * INR (S k * m)) * e * M)
    with (2400 * (INR (S k * m) * INR (S k * m) * (e * M))) by ring.
  lra.
Qed.

End Refinement.

(** The amended C4 on the control points of the counterexample: two samples
    against six, in an arithmetic that errs by [2^-53] in every operation
    and in [Math.hypot]. *)
Lemma C4_length_monotone_under_refinement_witness :
  let u := 1 / 9007199254740992 in
  let hypotFl := fun a b => inflate u (hypot a b) in
  let p0 := mkPoint (-64) 0 in
  let p1 := mkPoint 0 0 in
  let p2 := mkPoint 4 0 in
  Rounded.catmullRomLength (inflate u) hypotFl p0 p1 p2 p0 2
  <= Rounded.catmullRomLength (inflate u) hypotFl p0 p1 p2 p0 (3 * 2)
     + 2400 * (INR (3 * 2) * INR (3 * 2)) * (u + 0) * 64.
Proof.
  intros u hypotFl p0 p1 p2.
  assert (U : 0 <= u) by (unfold u; lra).
  apply (C4_length_monotone_under_refinement (inflate u) hypotFl u 0 1572864
           (rounds_inflate u 1572864 U) (approximatesHypot_inflate u 1572864 U)
           small_double).
  - lia.
  - lia.
  - lra.
  - change (INR (3 * 2)) with (INR 6). cbn [INR]. unfold u. lra.
  - change (INR (3 * 2)) with (INR 6). cbn [INR]. lra.
  - split; cbn [px py p0]; [rewrite Rabs_left | rewrite Rabs_R0]; lra.
  - split; cbn [px py p1]; rewrite Rabs_R0; lra.
  - split; cbn [px py p2]; [rewrite Rabs_right | rewrite Rabs_R0]; lra.
  - split; cbn [px py p0]; [rewrite Rabs_left | rewrite Rabs_R0]; lra.
Defined.

(** ** Stamp compositor *)

Section Compositor.

Variable random : nat -> R.

Lemma actualPressure_pos (pressure : R) : 0 < actualPressure pressure.
Proof. unfold actualPressure. destruct (Rgt_dec pressure 0); lra. Qed.

Lemma paintBrush_requests (x y pressure : R) (s : State) :
  requests (paintBrush random x y pressure s)
  = requests s ++ [mkStampRequest x y pressure].
Proof.
  unfold paintBrush; cbn.
  destruct (Texture_eqb (shape_grainTexture (brush s)) TextureEmpty); reflexivity.
Qed.

(** What [paintBrush] leaves alone. *)
Lemma paintBrush_frame (x y pressure : R) (s : State) :
  let s' := paintBrush random x y pressure s in
  isDrawing s' = isDrawing s /\ brush s' = brush s /\
  pathPoints s' = pathPoints s /\ pressurePoints s' = pressurePoints s /\
  permanentTexture s' = permanentTexture s /\
  flattenTimeout s' = flattenTimeout s /\ timers s' = timers s /\
  nextTimer s' = nextTimer s /\ destroyed s' = destroyed s /\
  segments s' = segments s.
Proof.
  unfold paintBrush; cbn.
  destruct (Texture_eqb (shape_grainTexture (brush s)) TextureEmpty);
    cbn; repeat split; reflexivity.
Qed.

Lemma paintBrush_brush (x y pressure : R) (s : State) :
  brush (paintBrush random x y pressure s) = brush s.
Proof. apply (paintBrush_frame x y pressure s). Qed.

(** The sprites that one call of [paintBrush] appends to the trail: the
    grain sprite, if the brush has a grain texture, then the stamp. *)
Lemma paintBrush_trail (x y pressure : R) (s : State) :
  exists grain stamp,
    trail (paintBrush random x y pressure s) = trail s ++ grain ++ [stamp] /\
    (length grain <= 1)%nat /\
    sprite_id stamp = nextSprite s /\
    sprite_texture stamp = shape_texture (brush s) /\
    sprite_x stamp
      = x + (random (randoms s) - 0.5)
            * (size (brush s) * actualPressure pressure * stroke_jitter (brush s)) /\
    sprite_y stamp
      = y + (random (S (randoms s)) - 0.5)
            * (size (brush s) * actualPressure pressure * stroke_jitter (brush s)) /\
    sprite_width stamp = size (brush s) * actualPressure pressure /\
    sprite_height stamp = size (brush s) * actualPressure pressure /\
    sprite_alpha stamp = Rmax 0.2 (actualPressure pressure * alpha (brush s)).
Proof.
  unfold paintBrush; cbn.
  destruct (Texture_eqb (shape_grainTexture (brush s)) TextureEmpty); cbn.
  - eexists [], _. split; [reflexivity |]. cbn. repeat split; auto.
  - eexists [_], _. split; [rewrite <- app_assoc; reflexivity |].
    cbn. repeat split; auto.
Qed.

(** C6: for every stamp painted, with the effective pressure the given
    pressure if it is positive and 0.5 otherwise, the size (width and height)
    of the stamp is [brush.size * effectivePressure] and its alpha is
    [max(0.2, effectivePressure * brush.alpha)]; so the alpha is never below
    0.2, and a pressure of exactly 0 is replaced by 0.5.  The stamp is the
    last sprite that [paintBrush] appends to the trail. *)
Theorem C6_stamp_size_and_alpha (x y pressure : R) (s : State) :
  let effectivePressure := if Rgt_dec pressure 0 then pressure else 0.5 in
  exists older stamp,
    trail (paintBrush random x y pressure s) = older ++ [stamp] /\
    sprite_blendMode stamp = BlendNormal /\
    sprite_width stamp = size (brush s) * effectivePressure /\
    sprite_height stamp = size (brush s) * effectivePressure /\
    sprite_alpha stamp = Rmax 0.2 (effectivePressure * alpha (brush s)) /\
    0.2 <= sprite_alpha stamp /\
    (pressure = 0 -> effectivePressure = 0.5).
Proof.
  intros effectivePressure.
  assert (Z0 : pressure = 0 -> effectivePressure = 0.5).
  { intros ->. unfold effectivePressure. destruct (Rgt_dec 0 0); lra. }
  unfold paintBrush; cbn.
  fold (actualPressure pressure).
  change (actualPressure pressure) with effectivePressure.
  destruct (Texture_eqb (shape_grainTexture (brush s)) TextureEmpty); cbn;
    eexists _, _; (split; [reflexivity |]); cbn;
    repeat split; auto; apply Rmax_l.
Qed.

End Compositor.

(** ** Stroke segmenter *)

Section Segmenter.

Variable random : nat -> R.

Lemma spacing_ge_1 (b : Brush) (pressure1 pressure2 : R) :
  1 <= spacing b pressure1 pressure2.
Proof. unfold spacing. apply Rmax_l. Qed.

Lemma numSteps_ge_1 (b : Brush) (p0 p1 p2 p3 : Point) (pressure1 pressure2 : R) :
  (1 <= numSteps b p0 p1 p2 p3 pressure1 pressure2)%Z.
Proof. unfold numSteps. apply Z.le_max_l. Qed.

Lemma stampLoop_brush (p0 p1 p2 p3 : Point) (pressure1 pressure2 : R) (n : Z)
    (k i : nat) (s : State) :
  brush (stampLoop random p0 p1 p2 p3 pressure1 pressure2 n k i s) = brush s.
Proof.
  revert i s. induction k as [| k IH]; intros i s; cbn [stampLoop]; [reflexivity |].
  rewrite IH. apply paintBrush_brush.
Qed.

(** The loop calls [paintBrush] once for each counter value, in order. *)
Lemma stampLoop_requests (p0 p1 p2 p3 : Point) (pressure1 pressure2 : R) (n : Z)
    (k i : nat) (s : State) :
  requests (stampLoop random p0 p1 p2 p3 pressure1 pressure2 n k i s)
  = requests s ++ map (requestAt p0 p1 p2 p3 pressure1 pressure2 n) (seq i k).
Proof.
  revert i s. induction k as [| k IH]; intros i s; cbn [stampLoop seq map].
  - rewrite app_nil_r. reflexivity.
  - rewrite IH, paintBrush_requests, <- app_assoc. reflexivity.
Qed.

(** Every call of [paintBrush] makes the trail longer. *)
Lemma paintBrush_trail_length (x y pressure : R) (s : State) :
  (length (trail s) + 1 <= length (trail (paintBrush random x y pressure s)))%nat.
Proof.
  destruct (paintBrush_trail random x y pressure s) as (grain & stamp & E & _).
  rewrite E, !length_app. simpl. lia.
Qed.

Lemma stampLoop_trail_length (p0 p1 p2 p3 : Point) (pressure1 pressure2 : R) (n : Z)
    (k i : nat) (s : State) :
  (length (trail s) + k
   <= length (trail (stampLoop random p0 p1 p2 p3 pressure1 pressure2 n k i s)))%nat.
Proof.
  revert i s. induction k as [| k IH]; intros i s; cbn [stampLoop]; [lia |].
  eapply Nat.le_trans; [| apply IH].
  pose proof (paintBrush_trail_length
                (px (catmullRomPoint (INR i / IZR n) p0 p1 p2 p3))
                (py (catmullRomPoint (INR i / IZR n) p0 p1 p2 p3))
                (pressure1 + (pressure2 - pressure1) * (INR i / IZR n)) s).
  lia.
Qed.

Lemma drawSplineSegment_requests (p0 p1 p2 p3 : Point) (pressure1 pressure2 : R)
    (s : State) :
  requests (drawSplineSegment random p0 p1 p2 p3 pressure1 pressure2 s)
  = requests s
    ++ map (requestAt p0 p1 p2 p3 pressure1 pressure2
              (numSteps (brush s) p0 p1 p2 p3 pressure1 pressure2))
         (seq 0 (S (Z.to_nat (numSteps (brush s) p0 p1 p2 p3 pressure1 pressure2)))).
Proof.
  unfold drawSplineSegment. rewrite stampLoop_requests. reflexivity.
Qed.

Lemma drawSplineSegment_segments (p0 p1 p2 p3 : Point) (pressure1 pressure2 : R)
    (s : State) :
  segments (drawSplineSegment random p0 p1 p2 p3 pressure1 pressure2 s)
  = segments s ++ [mkSegment p0 p1 p2 p3 pressure1 pressure2].
Proof.
  unfold drawSplineSegment.
  generalize (numSteps
    (brush (set_segments (segments s ++ [mkSegment p0 p1 p2 p3 pressure1 pressure2]) s))
    p0 p1 p2 p3 pressure1 pressure2) as n.
  intros n.
  generalize (S (Z.to_nat n)) as k. generalize 0%nat as i.
  set (s0 := set_segments _ s).
  change (segments s ++ [mkSegment p0 p1 p2 p3 pressure1 pressure2])
    with (segments s0).
  generalize s0. clear s0. intros s0 i k. revert i s0.
  induction k as [| k IH]; intros i s0; cbn [stampLoop]; [reflexivity |].
  rewrite IH. apply (paintBrush_frame random).
Qed.

(** C5: for every processed segment, with the effective pressure the average
    of the two pressures if that is positive and 0.5 otherwise,
    [spacing = max(1, brush.size * effectivePressure * spacingFraction)] and
    [stampCount = max(1, ceil(segmentLength / spacing))], and one stamp
    request is emitted for each [i] from 0 to [stampCount] inclusive, at
    [t = i/stampCount], in order.  So both divisors are at least 1, every
    segment yields at least one stamp (request and sprite), and the function
    returns a state on every input. *)
Theorem C5_segment_spacing_and_stamp_count (p0 p1 p2 p3 : Point)
    (pressure1 pressure2 : R) (s : State) :
  let avgPressure := (pressure1 + pressure2) / 2 in
  let effectivePressure := if Rgt_dec avgPressure 0 then avgPressure else 0.5 in
  let segmentLength := catmullRomLength p0 p1 p2 p3 20 in
  let spacing_ := spacing (brush s) pressure1 pressure2 in
  let stampCount := numSteps (brush s) p0 p1 p2 p3 pressure1 pressure2 in
  let s' := drawSplineSegment random p0 p1 p2 p3 pressure1 pressure2 s in
  spacing_ = Rmax 1 (size (brush s) * effectivePressure * stroke_spacing (brush s)) /\
  1 <= spacing_ /\
  stampCount = Z.max 1 (ceil (segmentLength / spacing_)) /\
  (1 <= stampCount)%Z /\
  requests s'
  = requests s
    ++ map (fun i : nat =>
              let t := INR i / IZR stampCount in
              mkStampRequest (px (catmullRomPoint t p0 p1 p2 p3))
                             (py (catmullRomPoint t p0 p1 p2 p3))
                             (pressure1 + (pressure2 - pressure1) * t))
           (seq 0 (Z.to_nat stampCount + 1)) /\
  (length (requests s) + 1 <= length (requests s'))%nat /\
  (length (trail s) + 1 <= length (trail s'))%nat.
Proof.
  intros avgPressure effectivePressure segmentLength spacing_ stampCount s'.
  split; [reflexivity |].
  split; [apply spacing_ge_1 |].
  split; [reflexivity |].
  split; [apply numSteps_ge_1 |].
  assert (E : requests s'
              = requests s
                ++ map (requestAt p0 p1 p2 p3 pressure1 pressure2 stampCount)
                     (seq 0 (Z.to_nat stampCount + 1))).
  { unfold s'. rewrite drawSplineSegment_requests.
    rewrite Nat.add_1_r. reflexivity. }
  split; [exact E |].
  split.
  - rewrite E, length_app, length_map, length_seq. lia.
  - unfold s', drawSplineSegment.
    eapply Nat.le_trans; [| apply stampLoop_trail_length]. cbn. lia.
Qed.

End Segmenter.

(** ** Arrays *)

Lemma len_app {A : Type} (a b : list A) : len (a ++ b) = (len a + len b)%Z.
Proof. unfold len. rewrite length_app. lia. Qed.

Lemma index_app_r {A : Type} (a b : list A) (i : Z) :
  (0 <= i)%Z -> index (a ++ b) (len a + i) = index b i.
Proof.
  intros Hi. unfold index, len.
  destruct (Z.ltb_spec (Z.of_nat (length a) + i) 0); [lia |].
  destruct (Z.ltb_spec i 0); [lia |].
  replace (Z.to_nat (Z.of_nat (length a) + i)) with (length a + Z.to_nat i)%nat by lia.
  rewrite nth_error_app2 by lia. f_equal. lia.
Qed.

Lemma index_app_r0 {A : Type} (a b : list A) :
  index (a ++ b) (len a) = index b 0.
Proof.
  rewrite <- (index_app_r a b 0) by lia. f_equal. lia.
Qed.

Lemma index_none {A : Type} (a : list A) (i : Z) :
  (len a <= i)%Z -> index a i = None.
Proof.
  intros Hi. unfold index, len in *.
  destruct (Z.ltb_spec i 0); [reflexivity |].
  apply nth_error_None. lia.
Qed.


(** ** Path tracker *)

Section Tracker.

Variable random : nat -> R.

Lemma onDrawMove_eq (event : PointerEvent) (s : State) :
  onDrawMove random event s
  = if negb (isDrawing s) then Done s else
    match index (pathPoints s) (len (pathPoints s) - 1) with
    | None => Thrown TypeError s
    | Some lastPoint =>
        if Rlt_dec (hypot (px (global event) - px lastPoint)
                          (py (global event) - py lastPoint)) 4
        then Done s
        else moveSegment random (pushed event s)
    end.
Proof. reflexivity. Qed.

Lemma onDrawEnd_eq (s : State) :
  onDrawEnd random s
  = match endSegment random s with
    | Thrown e s' => Thrown e s'
    | Done s' => Done (scheduleFlatten (strokeReset s'))
    end.
Proof. reflexivity. Qed.

(** With two points in the arrays, [onDrawMove] draws from the first to the
    second, both duplicated. *)
Lemma moveSegment_second (s : State) (p1 p2 : Point) (pressure1 pressure2 : R) :
  len (pathPoints s) = 2%Z ->
  index (pathPoints s) 0 = Some p1 -> index (pathPoints s) 1 = Some p2 ->
  index (pressurePoints s) 0 = Some pressure1 ->
  index (pressurePoints s) 1 = Some pressure2 ->
  moveSegment random s
  = Done (drawSplineSegment random p1 p1 p2 p2 pressure1 pressure2 s).
Proof.
  intros Hn H1 H2 Hq1 Hq2. unfold moveSegment.
  rewrite Hn, H1, H2, Hq1, Hq2. reflexivity.
Qed.

(** With [n >= 3] points in the arrays, [onDrawMove] draws from point [n-2]
    to point [n-1], with point [n-3] before and point [n-1] again after. *)
Lemma moveSegment_later (s : State) (n : Z) (p0 p1 p2 : Point)
    (pressure1 pressure2 : R) :
  len (pathPoints s) = n -> (3 <= n)%Z ->
  index (pathPoints s) (n - 3) = Some p0 ->
  index (pathPoints s) (n - 2) = Some p1 ->
  index (pathPoints s) (n - 1) = Some p2 ->
  index (pressurePoints s) (n - 2) = Some pressure1 ->
  index (pressurePoints s) (n - 1) = Some pressure2 ->
  moveSegment random s
  = Done (drawSplineSegment random p0 p1 p2 p2 pressure1 pressure2 s).
Proof.
  intros Hn Hge H0 H1 H2 Hq1 Hq2. unfold moveSegment.
  rewrite Hn.
  destruct (Z.eqb_spec n 2) as [E | _]; [lia |].
  cbv zeta.
  destruct (Z.ltb_spec (n - 2) 1) as [E | _]; [lia |].
  replace (n - 2 - 1)%Z with (n - 3)%Z by lia.
  replace (n - 2 + 1)%Z with (n - 1)%Z by lia.
  replace (n - 2 + 2)%Z with n by lia.
  rewrite H0, H1, H2, Hq1, Hq2.
  rewrite (index_none (pathPoints s) n) by lia.
  reflexivity.
Qed.

(** With [n >= 2] points in the arrays, [onDrawEnd] draws from point [n-2]
    to point [n-1], with point [n-3] (or, if there is none, point [n-2])
    before and point [n-1] again after; a last pressure of 0 is replaced by
    the pressure before it. *)
Lemma endSegment_drawing (s : State) (n : Z) (p1 p2 : Point)
    (pressure1 pressure2 : R) :
  isDrawing s = true ->
  len (pathPoints s) = n -> (2 <= n)%Z ->
  index (pathPoints s) (n - 2) = Some p1 ->
  index (pathPoints s) (n - 1) = Some p2 ->
  index (pressurePoints s) (n - 2) = Some pressure1 ->
  index (pressurePoints s) (n - 1) = Some pressure2 ->
  endSegment random s
  = Done (drawSplineSegment random
            (match index (pathPoints s) (n - 3) with Some p0 => p0 | None => p1 end)
            p1 p2 p2 pressure1 (orNumber pressure2 pressure1) s).
Proof.
  intros Hd Hn Hge H1 H2 Hq1 Hq2. unfold endSegment.
  rewrite Hd, Hn.
  destruct (Z.gtb_spec n 1) as [_ | E]; [| lia].
  cbv zeta. cbn [andb].
  replace (n - 2 - 1)%Z with (n - 3)%Z by lia.
  replace (n - 2 + 1)%Z with (n - 1)%Z by lia.
  rewrite H1, H2, Hq1, Hq2.
  unfold orNumber, orElseNumber.
  destruct (index (pathPoints s) (n - 3)); destruct (Req_dec_T pressure2 0);
    reflexivity.
Qed.

Lemma index_app_l {A : Type} (a b : list A) (i : Z) :
  (i < len a)%Z -> index (a ++ b) i = index a i.
Proof.
  intros Hi. unfold index, len in *.
  destruct (Z.ltb_spec i 0); [reflexivity |].
  apply nth_error_app1. lia.
Qed.

Lemma index_some {A : Type} (a : list A) (i : Z) :
  (0 <= i < len a)%Z -> exists x, index a i = Some x.
Proof.
  intros Hi. unfold index, len in *.
  destruct (Z.ltb_spec i 0); [lia |].
  destruct (nth_error a (Z.to_nat i)) eqn:E; [eexists; reflexivity |].
  apply nth_error_None in E. lia.
Qed.

Lemma index_range {A : Type} (a : list A) (i : Z) (x : A) :
  index a i = Some x -> (0 <= i < len a)%Z.
Proof.
  unfold index, len. destruct (Z.ltb_spec i 0) as [L | L]; [discriminate |].
  intros H. assert (nth_error a (Z.to_nat i) <> None) as N by congruence.
  apply nth_error_Some in N. lia.
Qed.

Lemma stampLoop_frame (p0 p1 p2 p3 : Point) (pressure1 pressure2 : R) (n : Z)
    (k i : nat) (s : State) :
  let s' := stampLoop random p0 p1 p2 p3 pressure1 pressure2 n k i s in
  isDrawing s' = isDrawing s /\ brush s' = brush s /\
  pathPoints s' = pathPoints s /\ pressurePoints s' = pressurePoints s /\
  permanentTexture s' = permanentTexture s /\
  flattenTimeout s' = flattenTimeout s /\ timers s' = timers s /\
  nextTimer s' = nextTimer s /\ destroyed s' = destroyed s /\
  segments s' = segments s.
Proof.
  revert i s. induction k as [| k IH]; intros i s; cbn [stampLoop].
  - repeat split; reflexivity.
  - cbv zeta.
    specialize (IH (S i)
      (paintBrush random (px (catmullRomPoint (INR i / IZR n) p0 p1 p2 p3))
         (py (catmullRomPoint (INR i / IZR n) p0 p1 p2 p3))
         (pressure1 + (pressure2 - pressure1) * (INR i / IZR n)) s)).
    cbv zeta in IH.
    pose proof (paintBrush_frame random
         (px (catmullRomPoint (INR i / IZR n) p0 p1 p2 p3))
         (py (catmullRomPoint (INR i / IZR n) p0 p1 p2 p3))
         (pressure1 + (pressure2 - pressure1) * (INR i / IZR n)) s) as F.
    cbv zeta in F.
    destruct IH as (I1 & I2 & I3 & I4 & I5 & I6 & I7 & I8 & I9 & I10).
    destruct F as (F1 & F2 & F3 & F4 & F5 & F6 & F7 & F8 & F9 & F10).
    repeat split; congruence.
Qed.

(** What [drawSplineSegment] leaves alone. *)
Lemma drawSplineSegment_frame (p0 p1 p2 p3 : Point) (pressure1 pressure2 : R)
    (s : State) :
  let s' := drawSplineSegment random p0 p1 p2 p3 pressure1 pressure2 s in
  isDrawing s' = isDrawing s /\ brush s' = brush s /\
  pathPoints s' = pathPoints s /\ pressurePoints s' = pressurePoints s /\
  permanentTexture s' = permanentTexture s /\
  flattenTimeout s' = flattenTimeout s /\ timers s' = timers s /\
  nextTimer s' = nextTimer s /\ destroyed s' = destroyed s.
Proof.
  unfold drawSplineSegment. cbv zeta.
  match goal with
  | |- context [stampLoop random p0 p1 p2 p3 pressure1 pressure2 ?n ?k ?i ?s0] =>
      pose proof (stampLoop_frame p0 p1 p2 p3 pressure1 pressure2 n k i s0) as F
  end.
  cbv zeta in F.
  destruct F as (F1 & F2 & F3 & F4 & F5 & F6 & F7 & F8 & F9 & _).
  repeat split; assumption.
Qed.

End Tracker.


Section TrackerClaims.

Variable random : nat -> R.

Lemma onDrawMove_accept (event : PointerEvent) (s : State) (lastPoint : Point) :
  isDrawing s = true ->
  index (pathPoints s) (len (pathPoints s) - 1) = Some lastPoint ->
  accepted event lastPoint ->
  onDrawMove random event s = moveSegment random (pushed event s).
Proof.
  intros Hd Hl Hacc. rewrite onDrawMove_eq, Hd, Hl. cbn [negb].
  destruct (Rlt_dec _ 4) as [L | _]; [contradiction | reflexivity].
Qed.

Lemma len_lengths {A B : Type} (a : list A) (b : list B) :
  length a = length b -> len a = len b.
Proof. unfold len. intros ->. reflexivity. Qed.

Lemma len_nonneg {A : Type} (a : list A) : (0 <= len a)%Z.
Proof. unfold len. lia. Qed.

Lemma index_last {A : Type} (a : list A) (x : A) :
  index (a ++ [x]) (len a) = Some x.
Proof. rewrite index_app_r0. reflexivity. Qed.

(** The first accepted move of a stroke. *)
Lemma onDrawMove_first (event : PointerEvent) (s : State) (lastPoint : Point) :
  isDrawing s = true ->
  len (pathPoints s) = 1%Z ->
  length (pressurePoints s) = length (pathPoints s) ->
  index (pathPoints s) 0 = Some lastPoint ->
  accepted event lastPoint ->
  exists pressure1,
    index (pressurePoints s) 0 = Some pressure1 /\
    onDrawMove random event s
    = Done (drawSplineSegment random lastPoint lastPoint (global event) (global event)
              pressure1 (pressure event) (pushed event s)).
Proof.
  intros Hd Hn Hlen Hl Hacc.
  pose proof (len_lengths _ _ Hlen) as Lq.
  destruct (index_some (pressurePoints s) 0) as [pressure1 Hq]; [lia |].
  exists pressure1. split; [exact Hq |].
  rewrite (onDrawMove_accept event s lastPoint); auto.
  2:{ rewrite Hn. exact Hl. }
  apply moveSegment_second; unfold pushed;
    cbn [pathPoints pressurePoints set_pathPoints set_pressurePoints].
  - rewrite len_app, Hn. reflexivity.
  - rewrite index_app_l by lia. exact Hl.
  - rewrite <- Hn. apply index_last.
  - rewrite index_app_l by lia. exact Hq.
  - replace 1%Z with (len (pressurePoints s)) by lia. apply index_last.
Qed.

(** An accepted move that is not the first of its stroke. *)
Lemma onDrawMove_later (event : PointerEvent) (s : State) (lastPoint : Point) :
  isDrawing s = true ->
  (2 <= len (pathPoints s))%Z ->
  length (pressurePoints s) = length (pathPoints s) ->
  index (pathPoints s) (len (pathPoints s) - 1) = Some lastPoint ->
  accepted event lastPoint ->
  exists p0 pressure1,
    index (pathPoints s) (len (pathPoints s) - 2) = Some p0 /\
    index (pressurePoints s) (len (pathPoints s) - 1) = Some pressure1 /\
    onDrawMove random event s
    = Done (drawSplineSegment random p0 lastPoint (global event) (global event)
              pressure1 (pressure event) (pushed event s)).
Proof.
  intros Hd Hn Hlen Hl Hacc.
  pose proof (len_lengths _ _ Hlen) as Lq.
  set (n := len (pathPoints s)) in *.
  destruct (index_some (pathPoints s) (n - 2)) as [p0 H0]; [lia |].
  destruct (index_some (pressurePoints s) (n - 1)) as [pressure1 Hq]; [lia |].
  exists p0, pressure1. split; [exact H0 |]. split; [exact Hq |].
  rewrite (onDrawMove_accept event s lastPoint); auto.
  apply (moveSegment_later random _ (n + 1)); unfold pushed;
    cbn [pathPoints pressurePoints set_pathPoints set_pressurePoints].
  - rewrite len_app. reflexivity.
  - lia.
  - replace (n + 1 - 3)%Z with (n - 2)%Z by lia.
    rewrite index_app_l by (fold n; lia). exact H0.
  - replace (n + 1 - 2)%Z with (n - 1)%Z by lia.
    rewrite index_app_l by (fold n; lia). exact Hl.
  - replace (n + 1 - 1)%Z with n by lia. apply index_last.
  - replace (n + 1 - 2)%Z with (n - 1)%Z by lia.
    rewrite index_app_l by lia. exact Hq.
  - replace (n + 1 - 1)%Z with (len (pressurePoints s)) by lia. apply index_last.
Qed.

(** C1, amended: during an active stroke, for every accepted move that
    brings the path to [n >= 3] points, the segmenter processes the segment
    whose end points are [point[n-2]] and [point[n-1]], the newest accepted
    point: [p0 = point[n-3]], [p1 = point[n-2]], [p2 = p3 = point[n-1]],
    with the pressures of points [n-2] and [n-1].  Segment processing does
    not lag behind the newest accepted point. *)
Theorem C1_segment_ends_at_newest_point (event : PointerEvent) (s : State)
    (lastPoint : Point) :
  isDrawing s = true ->
  (2 <= len (pathPoints s))%Z ->
  length (pressurePoints s) = length (pathPoints s) ->
  index (pathPoints s) (len (pathPoints s) - 1) = Some lastPoint ->
  accepted event lastPoint ->
  exists s' seg,
    onDrawMove random event s = Done s' /\
    pathPoints s' = pathPoints s ++ [global event] /\
    pressurePoints s' = pressurePoints s ++ [pressure event] /\
    segments s' = segments s ++ [seg] /\
    let n := len (pathPoints s') in
    (3 <= n)%Z /\
    index (pathPoints s') (n - 3) = Some (seg_p0 seg) /\
    index (pathPoints s') (n - 2) = Some (seg_p1 seg) /\
    index (pathPoints s') (n - 1) = Some (seg_p2 seg) /\
    seg_p3 seg = seg_p2 seg /\
    seg_p2 seg = global event /\
    index (pressurePoints s') (n - 2) = Some (seg_pressure1 seg) /\
    index (pressurePoints s') (n - 1) = Some (seg_pressure2 seg).
Proof.
  intros Hd Hn Hlen Hl Hacc.
  destruct (onDrawMove_later event s lastPoint Hd Hn Hlen Hl Hacc)
    as (p0 & pressure1 & H0 & Hq & E).
  pose proof (len_lengths _ _ Hlen) as Lq.
  pose proof (drawSplineSegment_frame random p0 lastPoint (global event)
                (global event) pressure1 (pressure event) (pushed event s)) as F.
  cbv zeta in F. destruct F as (_ & _ & Fp & Fq & _).
  eexists _, (mkSegment p0 lastPoint (global event) (global event)
                pressure1 (pressure event)).
  split; [exact E |].
  split; [rewrite Fp; reflexivity |].
  split; [rewrite Fq; reflexivity |].
  split; [rewrite drawSplineSegment_segments; reflexivity |].
  cbv zeta. rewrite Fp, Fq. unfold pushed.
  cbn [pathPoints pressurePoints set_pathPoints set_pressurePoints
       seg_p0 seg_p1 seg_p2 seg_p3 seg_pressure1 seg_pressure2].
  rewrite len_app. change (len [global event]) with 1%Z.
  set (n := len (pathPoints s)) in *.
  split; [lia |].
  split; [replace (n + 1 - 3)%Z with (n - 2)%Z by lia;
          rewrite index_app_l by (fold n; lia); exact H0 |].
  split; [replace (n + 1 - 2)%Z with (n - 1)%Z by lia;
          rewrite index_app_l by (fold n; lia); exact Hl |].
  split; [replace (n + 1 - 1)%Z with n by lia; apply index_last |].
  split; [reflexivity |]. split; [reflexivity |].
  split; [replace (n + 1 - 2)%Z with (n - 1)%Z by lia;
          rewrite index_app_l by lia; exact Hq |].
  replace (n + 1 - 1)%Z with (len (pressurePoints s)) by lia. apply index_last.
Qed.

End TrackerClaims.


(** ** A concrete stroke *)

Lemma accepted_flat (event : PointerEvent) (lastPoint : Point) (d : R) :
  py (global event) - py lastPoint = 0 ->
  px (global event) - px lastPoint = d \/ px (global event) - px lastPoint = - d ->
  4 <= d ->
  accepted event lastPoint.
Proof.
  intros Hy Hx Hd. unfold accepted.
  rewrite (hypot_flat _ _ d Hy Hx) by lra. lra.
Qed.

Lemma strokeOfTwo_eq :
  strokeOfTwo
  = drawSplineSegment constantRandom (mkPoint 0 0) (mkPoint 0 0) (mkPoint 10 0)
      (mkPoint 10 0) 0.5 0.5
      (pushed (pointerAt 10 0 0.5) (onDrawStart (pointerAt 0 0 0.5) (mounted newBrush))).
Proof.
  unfold strokeOfTwo. cbn [run step InputManager_emit after].
  destruct (onDrawMove_first constantRandom (pointerAt 10 0 0.5)
              (onDrawStart (pointerAt 0 0 0.5) (mounted newBrush)) (mkPoint 0 0))
    as (pressure1 & Hq & E); try reflexivity.
  - apply (accepted_flat _ _ 10); cbn; lra.
  - cbn in Hq. injection Hq as <-. rewrite E. reflexivity.
Qed.

Lemma strokeOfTwo_facts :
  isDrawing strokeOfTwo = true /\
  pathPoints strokeOfTwo = [mkPoint 0 0; mkPoint 10 0] /\
  pressurePoints strokeOfTwo = [0.5; 0.5] /\
  brush strokeOfTwo = newBrush.
Proof.
  rewrite strokeOfTwo_eq.
  pose proof (drawSplineSegment_frame constantRandom (mkPoint 0 0) (mkPoint 0 0)
                (mkPoint 10 0) (mkPoint 10 0) 0.5 0.5
                (pushed (pointerAt 10 0 0.5)
                   (onDrawStart (pointerAt 0 0 0.5) (mounted newBrush)))) as F.
  cbv zeta in F. destruct F as (Fd & Fb & Fp & Fq & _).
  rewrite Fd, Fb, Fp, Fq. repeat split; reflexivity.
Qed.

(** C1, as stated, fails: with the path [(0,0), (10,0)] the accepted move to
    [(20,0)] brings the path to three points and draws the segment from
    [point[1]] to [point[2]], not the one from [point[0]] to [point[1]]. *)
Lemma C1_counterexample :
  isDrawing strokeOfTwo = true /\
  exists s' seg,
    onDrawMove constantRandom (pointerAt 20 0 0.5) strokeOfTwo = Done s' /\
    pathPoints s' = [mkPoint 0 0; mkPoint 10 0; mkPoint 20 0] /\
    segments s' = segments strokeOfTwo ++ [seg] /\
    ~ (index (pathPoints s') (3 - 3) = Some (seg_p1 seg) /\
       index (pathPoints s') (3 - 2) = Some (seg_p2 seg) /\
       index (pathPoints s') (3 - 1) = Some (seg_p3 seg)).
Proof.
  destruct strokeOfTwo_facts as (Hd & Hp & Hq & _).
  split; [exact Hd |].
  destruct (onDrawMove_later constantRandom (pointerAt 20 0 0.5) strokeOfTwo
              (mkPoint 10 0)) as (p0 & pressure1 & H0 & H1 & E).
  - exact Hd.
  - rewrite Hp. cbn. lia.
  - rewrite Hp, Hq. reflexivity.
  - rewrite Hp. reflexivity.
  - apply (accepted_flat _ _ 10); cbn; lra.
  - pose proof (drawSplineSegment_frame constantRandom p0 (mkPoint 10 0)
                  (global (pointerAt 20 0 0.5)) (global (pointerAt 20 0 0.5))
                  pressure1 (pressure (pointerAt 20 0 0.5))
                  (pushed (pointerAt 20 0 0.5) strokeOfTwo)) as F.
    cbv zeta in F. destruct F as (_ & _ & Fp & _).
    eexists _, _. split; [exact E |].
    split; [rewrite Fp; unfold pushed; cbn [pathPoints set_pathPoints set_pressurePoints];
            rewrite Hp; reflexivity |].
    split; [rewrite drawSplineSegment_segments; reflexivity |].
    rewrite Fp. unfold pushed. cbn [pathPoints set_pathPoints set_pressurePoints].
    rewrite Hp. cbn [seg_p1 seg_p2 seg_p3].
    intros (A & _). cbn in A. injection A as A. lra.
Qed.

(** The amended C1 on [strokeOfTwo] and a move to [(20,0)]. *)
Lemma C1_segment_ends_at_newest_point_witness :
  isDrawing strokeOfTwo = true /\
  (2 <= len (pathPoints strokeOfTwo))%Z /\
  length (pressurePoints strokeOfTwo) = length (pathPoints strokeOfTwo) /\
  index (pathPoints strokeOfTwo) (len (pathPoints strokeOfTwo) - 1)
  = Some (mkPoint 10 0) /\
  accepted (pointerAt 20 0 0.5) (mkPoint 10 0) /\
  exists s' seg,
    onDrawMove constantRandom (pointerAt 20 0 0.5) strokeOfTwo = Done s' /\
    segments s' = segments strokeOfTwo ++ [seg] /\
    seg_p2 seg = mkPoint 20 0 /\ seg_p3 seg = mkPoint 20 0.
Proof.
  destruct strokeOfTwo_facts as (Hd & Hp & Hq & _).
  assert (H2 : (2 <= len (pathPoints strokeOfTwo))%Z) by (rewrite Hp; cbn; lia).
  assert (H3 : length (pressurePoints strokeOfTwo) = length (pathPoints strokeOfTwo))
    by (rewrite Hp, Hq; reflexivity).
  assert (H4 : index (pathPoints strokeOfTwo) (len (pathPoints strokeOfTwo) - 1)
               = Some (mkPoint 10 0)) by (rewrite Hp; reflexivity).
  assert (H5 : accepted (pointerAt 20 0 0.5) (mkPoint 10 0))
    by (apply (accepted_flat _ _ 10); cbn; lra).
  repeat (split; [assumption |]).
  destruct (C1_segment_ends_at_newest_point constantRandom (pointerAt 20 0 0.5)
              strokeOfTwo (mkPoint 10 0) Hd H2 H3 H4 H5)
    as (s' & seg & E & _ & _ & Hs & _ & _ & _ & _ & P3 & P2 & _).
  exists s', seg. repeat split; try assumption.
  rewrite P3. exact P2.
Defined.


(** ** The end of a stroke *)

Section StrokeEnd.

Variable random : nat -> R.

(** What [scheduleFlatten] and the reset of [onDrawEnd] leave alone. *)
Lemma scheduleFlatten_frame (s : State) :
  let s' := scheduleFlatten s in
  isDrawing s' = isDrawing s /\ brush s' = brush s /\
  pathPoints s' = pathPoints s /\ pressurePoints s' = pressurePoints s /\
  trail s' = trail s /\ stage s' = stage s /\
  permanentTexture s' = permanentTexture s /\
  destroyed s' = destroyed s /\ segments s' = segments s /\
  requests s' = requests s /\ randoms s' = randoms s /\
  nextSprite s' = nextSprite s.
Proof.
  unfold scheduleFlatten, setTimeout.
  destruct (flattenTimeout s) as [id |]; [destruct (Nat.eqb id 0) |];
    cbn; repeat split; reflexivity.
Qed.

Lemma skipn_app_exact {A : Type} (a b : list A) : skipn (length a) (a ++ b) = b.
Proof. induction a as [| x a IH]; simpl; [reflexivity | exact IH]. Qed.

Lemma newRequests_drawSplineSegment (p0 p1 p2 p3 : Point) (pressure1 pressure2 : R)
    (s : State) :
  newRequests s (drawSplineSegment random p0 p1 p2 p3 pressure1 pressure2 s)
  = map (requestAt p0 p1 p2 p3 pressure1 pressure2
           (numSteps (brush s) p0 p1 p2 p3 pressure1 pressure2))
      (seq 0 (S (Z.to_nat (numSteps (brush s) p0 p1 p2 p3 pressure1 pressure2)))).
Proof.
  unfold newRequests. rewrite drawSplineSegment_requests. apply skipn_app_exact.
Qed.

(** An accepted move: the segment drawn, whether or not it is the first of
    the stroke. *)
Lemma onDrawMove_segment (event : PointerEvent) (s : State) (lastPoint : Point) :
  isDrawing s = true ->
  length (pressurePoints s) = length (pathPoints s) ->
  index (pathPoints s) (len (pathPoints s) - 1) = Some lastPoint ->
  accepted event lastPoint ->
  exists pressure1,
    index (pressurePoints s) (len (pathPoints s) - 1) = Some pressure1 /\
    onDrawMove random event s
    = Done (drawSplineSegment random
              (match index (pathPoints s) (len (pathPoints s) - 2) with
               | Some p => p
               | None => lastPoint
               end)
              lastPoint (global event) (global event)
              pressure1 (pressure event) (pushed event s)).
Proof.
  intros Hd Hlen Hl Hacc.
  assert (N : (1 <= len (pathPoints s))%Z).
  { apply index_range in Hl. lia. }
  destruct (Z.eq_dec (len (pathPoints s)) 1) as [E1 | E1].
  - rewrite E1 in *. change (1 - 1)%Z with 0%Z in *. change (1 - 2)%Z with (-1)%Z.
    destruct (onDrawMove_first random event s lastPoint Hd E1 Hlen Hl Hacc)
      as (pressure1 & Hq & E).
    exists pressure1. split; [exact Hq |]. exact E.
  - destruct (onDrawMove_later random event s lastPoint Hd ltac:(lia) Hlen Hl Hacc)
      as (p0 & pressure1 & H0 & Hq & E).
    exists pressure1. split; [exact Hq |]. rewrite H0. exact E.
Qed.

(** The end of the stroke right after an accepted move. *)
Lemma onDrawEnd_after_move (event : PointerEvent) (s : State)
    (p0 lastPoint : Point) (pressure1 : R) :
  isDrawing s = true ->
  length (pressurePoints s) = length (pathPoints s) ->
  index (pathPoints s) (len (pathPoints s) - 1) = Some lastPoint ->
  index (pressurePoints s) (len (pathPoints s) - 1) = Some pressure1 ->
  let s1 := drawSplineSegment random p0 lastPoint (global event) (global event)
              pressure1 (pressure event) (pushed event s) in
  onDrawEnd random s1
  = Done (scheduleFlatten (strokeReset
      (drawSplineSegment random
         (match index (pathPoints s) (len (pathPoints s) - 2) with
          | Some p => p
          | None => lastPoint
          end)
         lastPoint (global event) (global event)
         pressure1 (orNumber (pressure event) pressure1) s1))).
Proof.
  intros Hd Hlen Hl Hq s1.
  pose proof (len_lengths _ _ Hlen) as Lq.
  assert (N : (1 <= len (pathPoints s))%Z).
  { apply index_range in Hl. lia. }
  pose proof (drawSplineSegment_frame random p0 lastPoint (global event)
                (global event) pressure1 (pressure event) (pushed event s)) as F.
  cbv zeta in F. fold s1 in F. destruct F as (Fd & _ & Fp & Fq & _).
  unfold pushed in Fd, Fp, Fq.
  cbn [isDrawing pathPoints pressurePoints set_pathPoints set_pressurePoints] in Fd, Fp, Fq.
  set (n := len (pathPoints s)) in *.
  rewrite onDrawEnd_eq.
  rewrite (endSegment_drawing random s1 (n + 1) lastPoint (global event)
             pressure1 (pressure event)).
  - replace (n + 1 - 3)%Z with (n - 2)%Z by lia.
    rewrite Fp, index_app_l by (fold n; lia). reflexivity.
  - rewrite Fd. exact Hd.
  - rewrite Fp, len_app. reflexivity.
  - lia.
  - replace (n + 1 - 2)%Z with (n - 1)%Z by lia.
    rewrite Fp, index_app_l by (fold n; lia). exact Hl.
  - replace (n + 1 - 1)%Z with n by lia. rewrite Fp. apply index_last.
  - replace (n + 1 - 2)%Z with (n - 1)%Z by lia.
    rewrite Fq, index_app_l by lia. exact Hq.
  - replace (n + 1 - 1)%Z with (len (pressurePoints s)) by lia.
    rewrite Fq. apply index_last.
Qed.

Lemma orNumber_same (a b : R) : a <> 0 \/ b = 0 -> orNumber a b = a.
Proof.
  intros H. unfold orNumber. destruct (Req_dec_T a 0) as [E | E]; [| reflexivity].
  destruct H as [H | H]; [contradiction | congruence].
Qed.

(** X33: where the end handler repeats the move handler: for every stroke
    that ends with at least two accepted points, the end handler processes
    the segment between the last two accepted points again, with the four
    control points that the move handler used when the last point was accepted ([p3] being [p2]) and the
    same first pressure; moves dropped after the last accepted point change
    nothing.  When the last accepted pressure is not 0 (or the last two are
    both 0), the two calls have the same arguments and the end handler emits
    the stamp requests of that move a second time, at the same curve
    positions. *)
Theorem end_repeats_last_segment (event : PointerEvent) (s : State)
    (lastPoint : Point) :
  isDrawing s = true ->
  length (pressurePoints s) = length (pathPoints s) ->
  index (pathPoints s) (len (pathPoints s) - 1) = Some lastPoint ->
  accepted event lastPoint ->
  exists s1 s2 segMove segEnd,
    onDrawMove random event s = Done s1 /\
    (2 <= len (pathPoints s1))%Z /\
    (forall dropped, ~ accepted dropped (global event) ->
                     onDrawMove random dropped s1 = Done s1) /\
    onDrawEnd random s1 = Done s2 /\
    segments s1 = segments s ++ [segMove] /\
    segments s2 = segments s1 ++ [segEnd] /\
    seg_p0 segEnd = seg_p0 segMove /\
    seg_p1 segEnd = seg_p1 segMove /\
    seg_p2 segEnd = seg_p2 segMove /\
    seg_p3 segEnd = seg_p3 segMove /\
    seg_p1 segEnd = lastPoint /\
    seg_p2 segEnd = global event /\
    seg_p3 segEnd = seg_p2 segEnd /\
    seg_pressure1 segEnd = seg_pressure1 segMove /\
    seg_pressure2 segMove = pressure event /\
    (pressure event <> 0 \/ seg_pressure1 segMove = 0 ->
     segEnd = segMove /\
     newRequests s1 s2 = newRequests s s1 /\
     curvePositions (newRequests s1 s2) = curvePositions (newRequests s s1)).
Proof.
  intros Hd Hlen Hl Hacc.
  destruct (onDrawMove_segment event s lastPoint Hd Hlen Hl Hacc)
    as (pressure1 & Hq & EM).
  pose proof (onDrawEnd_after_move event s
                (match index (pathPoints s) (len (pathPoints s) - 2) with
                 | Some p => p
                 | None => lastPoint
                 end) lastPoint pressure1 Hd Hlen Hl Hq) as EE.
  cbv zeta in EE.
  set (p0 := match index (pathPoints s) (len (pathPoints s) - 2) with
             | Some p => p
             | None => lastPoint
             end) in *.
  set (s1 := drawSplineSegment random p0 lastPoint (global event) (global event)
               pressure1 (pressure event) (pushed event s)) in *.
  set (s1' := drawSplineSegment random p0 lastPoint (global event) (global event)
                pressure1 (orNumber (pressure event) pressure1) s1) in *.
  pose proof (drawSplineSegment_frame random p0 lastPoint (global event)
                (global event) pressure1 (pressure event) (pushed event s)) as F.
  cbv zeta in F. fold s1 in F. destruct F as (Fd & Fb & Fp & _).
  pose proof (scheduleFlatten_frame (strokeReset s1')) as G.
  cbv zeta in G. destruct G as (_ & _ & _ & _ & _ & _ & _ & _ & Gs & Gr & _).
  assert (N : (1 <= len (pathPoints s))%Z).
  { apply index_range in Hl. lia. }
  exists s1, (scheduleFlatten (strokeReset s1')),
    (mkSegment p0 lastPoint (global event) (global event) pressure1 (pressure event)),
    (mkSegment p0 lastPoint (global event) (global event) pressure1
       (orNumber (pressure event) pressure1)).
  split; [exact EM |].
  split; [rewrite Fp; unfold pushed;
          cbn [pathPoints set_pathPoints set_pressurePoints];
          rewrite len_app; change (len [global event]) with 1%Z; lia |].
  split.
  { intros dropped Hdrop. rewrite onDrawMove_eq, Fd.
    change (isDrawing (pushed event s)) with (isDrawing s). rewrite Hd. cbn [negb].
    rewrite Fp. unfold pushed at 1 2. cbn [pathPoints set_pathPoints set_pressurePoints].
    replace (len (pathPoints s ++ [global event]) - 1)%Z with (len (pathPoints s))
      by (rewrite len_app; change (len [global event]) with 1%Z; lia).
    rewrite index_last.
    destruct (Rlt_dec _ 4) as [_ | A]; [reflexivity | contradiction]. }
  split; [exact EE |].
  split; [unfold s1; rewrite drawSplineSegment_segments; reflexivity |].
  split; [rewrite Gs; unfold strokeReset, s1';
          cbn [segments set_pressurePoints set_pathPoints set_isDrawing];
          rewrite drawSplineSegment_segments; reflexivity |].
  cbn [seg_p0 seg_p1 seg_p2 seg_p3 seg_pressure1 seg_pressure2].
  do 9 (split; [reflexivity |]).
  intros Hsame.
  split; [rewrite (orNumber_same _ _ Hsame); reflexivity |].
  assert (R : newRequests s1 (scheduleFlatten (strokeReset s1')) = newRequests s s1).
  { unfold newRequests at 1. rewrite Gr.
    change (requests (strokeReset s1')) with (requests s1').
    change (skipn (length (requests s1)) (requests s1')) with (newRequests s1 s1').
    unfold s1'. rewrite newRequests_drawSplineSegment.
    rewrite (orNumber_same _ _ Hsame).
    change (requests s) with (requests (pushed event s)).
    change (newRequests s s1) with (newRequests (pushed event s) s1).
    unfold s1 at 3. rewrite newRequests_drawSplineSegment.
    rewrite Fb. reflexivity. }
  split; [exact R | rewrite R; reflexivity].
Qed.

End StrokeEnd.


(** ** A stroke whose last pressure is 0 *)

Lemma ceil_ge (x : R) : x <= IZR (ceil x).
Proof.
  unfold ceil. rewrite opp_IZR.
  destruct (base_Int_part (- x)) as [H _]. lra.
Qed.

Lemma ceil_lt (x : R) : IZR (ceil x) < x + 1.
Proof.
  unfold ceil. rewrite opp_IZR.
  destruct (base_Int_part (- x)) as [_ H]. lra.
Qed.

Lemma catmullRomLength_ge_chord (p0 p1 p2 p3 : Point) (samples : nat) :
  (1 <= samples)%nat -> dist p1 p2 <= catmullRomLength p0 p1 p2 p3 samples.
Proof.
  intros Hs. destruct samples as [| k]; [lia |].
  rewrite catmullRomLength_walk.
  pose proof (walk_chord (sample p0 p1 p2 p3 (S k)) k 1
                (sample p0 p1 p2 p3 (S k) 0)) as C.
  assert (E0 : sample p0 p1 p2 p3 (S k) 0 = p1).
  { unfold sample. replace (INR 0 / INR (S k)) with 0 by (simpl INR; unfold Rdiv; ring).
    apply catmullRomPoint_0. }
  assert (E1 : sample p0 p1 p2 p3 (S k) (1 + k) = p2).
  { unfold sample. change (1 + k)%nat with (S k).
    replace (INR (S k) / INR (S k)) with 1
      by (field; apply not_0_INR; discriminate).
    apply catmullRomPoint_1. }
  rewrite E1 in C. rewrite E0 in C at 1. exact C.
Qed.

Lemma numSteps_fading :
  (numSteps newBrush (mkPoint 0 0) (mkPoint 0 0) (mkPoint 100 0) (mkPoint 100 0) 0.5 0.5
   < numSteps newBrush (mkPoint 0 0) (mkPoint 0 0) (mkPoint 100 0) (mkPoint 100 0) 0.5 0)%Z.
Proof.
  unfold numSteps.
  set (L := catmullRomLength (mkPoint 0 0) (mkPoint 0 0) (mkPoint 100 0)
              (mkPoint 100 0) defaultSamples).
  assert (HL : 100 <= L).
  { pose proof (catmullRomLength_ge_chord (mkPoint 0 0) (mkPoint 0 0)
                  (mkPoint 100 0) (mkPoint 100 0) defaultSamples) as C.
    assert (D : dist (mkPoint 0 0) (mkPoint 100 0) = 100).
    { unfold dist. apply hypot_flat; cbn [px py]; [lra | left; lra | lra]. }
    rewrite D in C. apply C. unfold defaultSamples. lia. }
  assert (S0 : spacing newBrush 0.5 0 = 1).
  { unfold spacing, actualPressure. cbn [size stroke_spacing newBrush].
    destruct (Rgt_dec ((0.5 + 0) / 2) 0) as [_ | N]; [| lra].
    apply Rmax_left. lra. }
  assert (S1 : spacing newBrush 0.5 0.5 = 1.25).
  { unfold spacing, actualPressure. cbn [size stroke_spacing newBrush].
    destruct (Rgt_dec ((0.5 + 0.5) / 2) 0) as [_ | N]; [| lra].
    rewrite Rmax_right; lra. }
  rewrite S0, S1.
  pose proof (ceil_ge (L / 1)) as G.
  pose proof (ceil_lt (L / 1.25)) as U.
  apply lt_IZR.
  assert (IZR (Z.max 1 (ceil (L / 1.25))) < L).
  { destruct (Z.max_spec 1 (ceil (L / 1.25))) as [[_ ->] | [_ ->]]; lra. }
  assert (L <= IZR (Z.max 1 (ceil (L / 1)))).
  { pose proof (Z.le_max_r 1 (ceil (L / 1))) as M. apply IZR_le in M. lra. }
  lra.
Qed.

(** C10: the code on a stroke from [(0,0)] with pressure 0.5 to [(100,0)]
    with pressure 0, which ends with two accepted points.  The move handler
    draws the segment with pressures [(0.5, 0)]; the end handler reads the
    second pressure as [pressurePoints[i+1] || pressure1], takes the recorded
    0 for a missing value and draws with [(0.5, 0.5)], so with a wider
    spacing and fewer stamps: the curve positions of the second set are not
    those of the first, against what the claim says of every stroke. *)
Lemma C10_end_handler_replaces_zero_pressure :
  let down := Pointer pointerdown (pointerAt 0 0 0.5) in
  let moved := Pointer pointermove (pointerAt 100 0 0) in
  let up := Pointer pointerup (pointerAt 100 0 0) in
  let s0 := run constantRandom renderOk [down] (mounted newBrush) in
  let s1 := run constantRandom renderOk [down; moved] (mounted newBrush) in
  let s2 := run constantRandom renderOk [down; moved; up] (mounted newBrush) in
  pathPoints s1 = [mkPoint 0 0; mkPoint 100 0] /\
  pressurePoints s1 = [0.5; 0] /\
  (length (newRequests s1 s2) < length (newRequests s0 s1))%nat /\
  curvePositions (newRequests s1 s2) <> curvePositions (newRequests s0 s1).
Proof.
  intros down moved up s0 s1 s2.
  set (t0 := onDrawStart (pointerAt 0 0 0.5) (mounted newBrush)).
  assert (Hd : isDrawing t0 = true) by reflexivity.
  assert (Hlen : length (pressurePoints t0) = length (pathPoints t0)) by reflexivity.
  assert (Hl : index (pathPoints t0) (len (pathPoints t0) - 1) = Some (mkPoint 0 0))
    by reflexivity.
  assert (Hacc : accepted (pointerAt 100 0 0) (mkPoint 0 0))
    by (apply (accepted_flat _ _ 100); cbn; lra).
  destruct (onDrawMove_segment constantRandom (pointerAt 100 0 0) t0 (mkPoint 0 0)
              Hd Hlen Hl Hacc) as (pressure1 & Hq & EM).
  pose proof (onDrawEnd_after_move constantRandom (pointerAt 100 0 0) t0
                (mkPoint 0 0) (mkPoint 0 0) pressure1 Hd Hlen Hl Hq) as EE.
  cbv zeta in EE.
  change (index (pathPoints t0) (len (pathPoints t0) - 2)) with (@None Point) in *.
  cbv iota in *.
  change (index (pressurePoints t0) (len (pathPoints t0) - 1)) with (Some 0.5) in Hq.
  injection Hq as <-.
  change (global (pointerAt 100 0 0)) with (mkPoint 100 0) in *.
  change (pressure (pointerAt 100 0 0)) with 0 in *.
  assert (O : orNumber 0 0.5 = 0.5).
  { unfold orNumber. destruct (Req_dec_T 0 0) as [_ | N]; [reflexivity | lra]. }
  rewrite O in EE.
  set (t1 := drawSplineSegment constantRandom (mkPoint 0 0) (mkPoint 0 0)
               (mkPoint 100 0) (mkPoint 100 0) 0.5 0 (pushed (pointerAt 100 0 0) t0)) in *.
  set (t1' := drawSplineSegment constantRandom (mkPoint 0 0) (mkPoint 0 0)
                (mkPoint 100 0) (mkPoint 100 0) 0.5 0.5 t1) in *.
  assert (E1 : s1 = t1).
  { unfold s1, down, moved. cbn [run step InputManager_emit after]. fold t0.
    rewrite EM. reflexivity. }
  assert (E2 : s2 = scheduleFlatten (strokeReset t1')).
  { unfold s2, down, moved, up. cbn [run step InputManager_emit after]. fold t0.
    rewrite EM. cbn [after]. rewrite EE. reflexivity. }
  pose proof (drawSplineSegment_frame constantRandom (mkPoint 0 0) (mkPoint 0 0)
                (mkPoint 100 0) (mkPoint 100 0) 0.5 0 (pushed (pointerAt 100 0 0) t0)) as F.
  cbv zeta in F. fold t1 in F. destruct F as (_ & Fb & Fp & Fq & _).
  assert (R1 : newRequests s0 s1
               = map (requestAt (mkPoint 0 0) (mkPoint 0 0) (mkPoint 100 0)
                        (mkPoint 100 0) 0.5 0
                        (numSteps newBrush (mkPoint 0 0) (mkPoint 0 0) (mkPoint 100 0)
                           (mkPoint 100 0) 0.5 0))
                   (seq 0 (S (Z.to_nat
                      (numSteps newBrush (mkPoint 0 0) (mkPoint 0 0) (mkPoint 100 0)
                         (mkPoint 100 0) 0.5 0))))).
  { rewrite E1. change s0 with t0.
    change (newRequests t0 t1) with (newRequests (pushed (pointerAt 100 0 0) t0) t1).
    unfold t1. rewrite newRequests_drawSplineSegment. reflexivity. }
  assert (R2 : newRequests s1 s2
               = map (requestAt (mkPoint 0 0) (mkPoint 0 0) (mkPoint 100 0)
                        (mkPoint 100 0) 0.5 0.5
                        (numSteps newBrush (mkPoint 0 0) (mkPoint 0 0) (mkPoint 100 0)
                           (mkPoint 100 0) 0.5 0.5))
                   (seq 0 (S (Z.to_nat
                      (numSteps newBrush (mkPoint 0 0) (mkPoint 0 0) (mkPoint 100 0)
                         (mkPoint 100 0) 0.5 0.5))))).
  { rewrite E1, E2. unfold newRequests.
    destruct (scheduleFlatten_frame (strokeReset t1'))
      as (_ & _ & _ & _ & _ & _ & _ & _ & _ & Gr & _).
    rewrite Gr. change (requests (strokeReset t1')) with (requests t1').
    change (skipn (length (requests t1)) (requests t1')) with (newRequests t1 t1').
    unfold t1'. rewrite newRequests_drawSplineSegment. rewrite Fb. reflexivity. }
  pose proof numSteps_fading as NF.
  pose proof (numSteps_ge_1 newBrush (mkPoint 0 0) (mkPoint 0 0) (mkPoint 100 0)
                (mkPoint 100 0) 0.5 0.5) as N1.
  assert (LT : (length (newRequests s1 s2) < length (newRequests s0 s1))%nat).
  { rewrite R1, R2, !length_map, !length_seq. lia. }
  split; [rewrite E1, Fp; reflexivity |].
  split; [rewrite E1, Fq; reflexivity |].
  split; [exact LT |].
  intros Heq. apply (f_equal (@length _)) in Heq.
  unfold curvePositions in Heq. rewrite !length_map in Heq. lia.
Qed.

(** The repeated segment on [strokeOfTwo], a move to [(20,0)] with pressure
    0.5 and the end of the stroke. *)
Lemma end_repeats_last_segment_witness :
  isDrawing strokeOfTwo = true /\
  length (pressurePoints strokeOfTwo) = length (pathPoints strokeOfTwo) /\
  index (pathPoints strokeOfTwo) (len (pathPoints strokeOfTwo) - 1)
  = Some (mkPoint 10 0) /\
  accepted (pointerAt 20 0 0.5) (mkPoint 10 0) /\
  exists s1 s2,
    onDrawMove constantRandom (pointerAt 20 0 0.5) strokeOfTwo = Done s1 /\
    onDrawEnd constantRandom s1 = Done s2 /\
    newRequests s1 s2 = newRequests strokeOfTwo s1.
Proof.
  destruct strokeOfTwo_facts as (Hd & Hp & Hq & _).
  assert (H3 : length (pressurePoints strokeOfTwo) = length (pathPoints strokeOfTwo))
    by (rewrite Hp, Hq; reflexivity).
  assert (H4 : index (pathPoints strokeOfTwo) (len (pathPoints strokeOfTwo) - 1)
               = Some (mkPoint 10 0)) by (rewrite Hp; reflexivity).
  assert (H5 : accepted (pointerAt 20 0 0.5) (mkPoint 10 0))
    by (apply (accepted_flat _ _ 10); cbn; lra).
  repeat (split; [assumption |]).
  destruct (end_repeats_last_segment constantRandom (pointerAt 20 0 0.5)
              strokeOfTwo (mkPoint 10 0) Hd H3 H4 H5)
    as (s1 & s2 & segMove & segEnd & EM & _ & _ & EE & _ & _ & _ & _ & _ & _ & _
        & _ & _ & _ & _ & Same).
  exists s1, s2. split; [exact EM |]. split; [exact EE |].
  apply Same. left. cbn. lra.
Defined.


(** ** Trail and flatten manager *)

Ltac fields :=
  cbn [isDrawing brush pathPoints pressurePoints trail permanentTexture
       flattenTimeout stage timers nextTimer nextSprite randoms destroyed
       segments requests
       set_isDrawing set_brush set_pathPoints set_pressurePoints set_trail
       set_permanentTexture set_flattenTimeout set_stage set_timers
       set_nextTimer set_nextSprite set_randoms set_destroyed set_segments
       set_requests].

Lemma pop_snoc {A : Type} (a : list A) (x : A) : pop (a ++ [x]) = (Some x, a).
Proof.
  unfold pop. rewrite rev_app_distr. cbn [rev app]. rewrite rev_involutive.
  reflexivity.
Qed.

Lemma filter_filter {A : Type} (f g : A -> bool) (l : list A) :
  filter f (filter g l) = filter (fun x => g x && f x) l.
Proof.
  induction l as [| x l IH]; cbn [filter]; [reflexivity |].
  destruct (g x); cbn [filter andb]; [destruct (f x) |]; rewrite IH; reflexivity.
Qed.

Lemma without_snoc (l : list Sprite) (x : Sprite) (children : list Sprite) :
  without l (filter (fun c => negb (Nat.eqb (sprite_id c) (sprite_id x))) children)
  = without (l ++ [x]) children.
Proof.
  unfold without. rewrite filter_filter. apply filter_ext. intros c.
  rewrite map_app, existsb_app. cbn [map existsb]. rewrite orb_false_r.
  destruct (Nat.eqb (sprite_id c) (sprite_id x));
    destruct (existsb (Nat.eqb (sprite_id c)) (map sprite_id l)); reflexivity.
Qed.

Lemma without_nil (children : list Sprite) : without [] children = children.
Proof.
  unfold without. cbn [map existsb negb].
  induction children as [| c l IH]; cbn [filter]; [| rewrite IH]; reflexivity.
Qed.

(** The loop of [flatten] and [clear], with enough fuel: the trail ends
    empty, its sprites are destroyed from the last to the first and leave
    the stage, and nothing else changes. *)
Lemma drainLoop_spec (fuel : nat) (s : State) :
  (length (trail s) <= fuel)%nat ->
  drainLoop fuel s
  = set_destroyed (destroyed s ++ rev (map sprite_id (trail s)))
      (set_stage (without (trail s) (stage s)) (set_trail [] s)).
Proof.
  revert s. induction fuel as [| fuel IH]; intros s Hf.
  - destruct s as [d b pp qq tr pt ft st ti nt ns rn de sg rq].
    cbn [trail] in Hf. destruct tr; [| cbn in Hf; lia].
    cbn [drainLoop]. fields. cbn [map rev].
    rewrite without_nil, app_nil_r. reflexivity.
  - cbn [drainLoop].
    destruct (trail s) as [| y l] eqn:Et using rev_ind.
    + destruct s as [d b pp qq tr pt ft st ti nt ns rn de sg rq].
      cbn [trail] in Et. subst tr.
      change (len (@nil Sprite) =? 0)%Z with true. fields. cbn [map rev].
      rewrite without_nil, app_nil_r. reflexivity.
    + clear IHl.
      assert (Z : (len (l ++ [y]) =? 0)%Z = false).
      { apply Z.eqb_neq. rewrite len_app. unfold len. cbn. lia. }
      rewrite Z, pop_snoc.
      rewrite IH.
      * destruct s as [d b pp qq tr pt ft st ti nt ns rn de sg rq].
        unfold destroy. fields.
        rewrite without_snoc, map_app, rev_app_distr, <- app_assoc.
        reflexivity.
      * rewrite length_app in Hf. cbn in Hf.
        unfold destroy. fields. lia.
Qed.

Lemma drainTrail_spec (s : State) :
  drainTrail s
  = set_destroyed (destroyed s ++ rev (map sprite_id (trail s)))
      (set_stage (without (trail s) (stage s)) (set_trail [] s)).
Proof. unfold drainTrail. apply drainLoop_spec. lia. Qed.

(** The loop terminates with the trail empty: [trail.length] rounds are
    enough. *)
Lemma drainTrail_trail (s : State) : trail (drainTrail s) = [].
Proof. rewrite drainTrail_spec. reflexivity. Qed.

Lemma without_not_In (l children : list Sprite) (sp : Sprite) :
  In sp l -> ~ In sp (without l children).
Proof.
  intros Hin Hc. unfold without in Hc. apply filter_In in Hc.
  destruct Hc as [_ Hc]. apply negb_true_iff in Hc.
  assert (T : existsb (Nat.eqb (sprite_id sp)) (map sprite_id l) = true).
  { apply existsb_exists. exists (sprite_id sp). split.
    - apply in_map. exact Hin.
    - apply Nat.eqb_refl. }
  congruence.
Qed.

Section Flatten.

Variable random : nat -> R.
Variable generateTexture : Texture -> list Sprite -> option Texture.

(** C2, amended: for every call of [clear()], in any state, the persistent
    surface is reset to the empty texture and every live trail primitive is
    destroyed and removed from the stage, leaving the trail empty.  The
    flatten timer is left as it is: a flatten scheduled by a preceding
    stroke end stays pending and still runs when its timeout fires. *)
Theorem C2_clear_resets_surface_and_trail (s : State) :
  let s' := clear s in
  permanentTexture s' = TextureEmpty /\
  trail s' = [] /\
  destroyed s' = destroyed s ++ rev (map sprite_id (trail s)) /\
  (forall sp, In sp (trail s) ->
              In (sprite_id sp) (destroyed s') /\ ~ In sp (stage s')) /\
  timers s' = timers s /\
  flattenTimeout s' = flattenTimeout s /\
  (forall id, In id (timers s) ->
              step random generateTexture (Timeout id) s'
              = flatten generateTexture (clearTimeout id s')).
Proof.
  intros s'. unfold s', clear. rewrite drainTrail_spec.
  cbn [permanentTexture trail destroyed stage timers flattenTimeout
       set_destroyed set_stage set_trail set_permanentTexture].
  repeat split.
  - apply in_or_app. right. apply in_rev. rewrite rev_involutive.
    apply in_map. assumption.
  - apply without_not_In. assumption.
  - intros id Hin. cbn [step timers set_destroyed set_stage set_trail
                        set_permanentTexture].
    assert (E : existsb (Nat.eqb id) (timers s) = true).
    { apply existsb_exists. exists id. split; [exact Hin | apply Nat.eqb_refl]. }
    rewrite E. reflexivity.
Qed.

(** C9: if the rasterization of [flatten] throws, the exception leaves
    [flatten] with the state untouched: the persistent surface keeps its
    texture, the trail is not drained, no sprite is destroyed or removed from
    the stage; the same holds when the flatten runs from its timeout.  And
    the persistent surface gets a new texture only from a rasterization that
    returned it. *)
Theorem C9_failed_rasterization_keeps_state (s : State) :
  (generateTexture (permanentTexture s) (stage s) = None ->
   flatten generateTexture s = Thrown RenderError s /\
   (forall id, In id (timers s) ->
      let s' := after (step random generateTexture (Timeout id) s) in
      permanentTexture s' = permanentTexture s /\ trail s' = trail s /\
      stage s' = stage s /\ destroyed s' = destroyed s)) /\
  (forall s', flatten generateTexture s = Done s' ->
     generateTexture (permanentTexture s) (stage s) = Some (permanentTexture s')) /\
  (permanentTexture (after (flatten generateTexture s)) <> permanentTexture s ->
   generateTexture (permanentTexture s) (stage s)
   = Some (permanentTexture (after (flatten generateTexture s)))).
Proof.
  unfold flatten.
  destruct (generateTexture (permanentTexture s) (stage s)) as [t |] eqn:G.
  - split; [discriminate |]. split.
    + intros s' E. injection E as <-. rewrite drainTrail_spec. reflexivity.
    + intros _. cbn [after]. rewrite drainTrail_spec. reflexivity.
  - split; [| split].
    + intros _. split; [reflexivity |].
      intros id Hin. cbn [step].
      assert (E : existsb (Nat.eqb id) (timers s) = true).
      { apply existsb_exists. exists id. split; [exact Hin | apply Nat.eqb_refl]. }
      rewrite E. unfold flatten, clearTimeout.
      cbn [permanentTexture stage set_timers]. rewrite G.
      cbn. repeat split; reflexivity.
    + discriminate.
    + cbn [after]. intros N. contradiction.
Qed.

End Flatten.

(** C9 on [strokeOfTwo] with a renderer that throws. *)
Lemma C9_failed_rasterization_keeps_state_witness :
  renderThrows (permanentTexture strokeOfTwo) (stage strokeOfTwo) = None /\
  flatten renderThrows strokeOfTwo = Thrown RenderError strokeOfTwo.
Proof.
  assert (H : renderThrows (permanentTexture strokeOfTwo) (stage strokeOfTwo) = None)
    by reflexivity.
  split; [exact H |].
  exact (proj1 (proj1 (C9_failed_rasterization_keeps_state constantRandom
                         renderThrows strokeOfTwo) H)).
Defined.



Lemma scheduleFlatten_first (s : State) :
  flattenTimeout s = None ->
  scheduleFlatten s
  = set_flattenTimeout (Some (nextTimer s))
      (set_nextTimer (S (nextTimer s)) (set_timers (timers s ++ [nextTimer s]) s)).
Proof. intros H. unfold scheduleFlatten, setTimeout. rewrite H. reflexivity. Qed.

(** The end of a stroke that has a single point draws nothing. *)
Lemma onDrawEnd_single (random : nat -> R) (s : State) :
  len (pathPoints s) = 1%Z ->
  onDrawEnd random s = Done (scheduleFlatten (strokeReset s)).
Proof.
  intros H. rewrite onDrawEnd_eq. unfold endSegment. rewrite H.
  change (1 >? 1)%Z with false. rewrite andb_false_r. reflexivity.
Qed.

Lemma clear_frame (s : State) :
  timers (clear s) = timers s /\ flattenTimeout (clear s) = flattenTimeout s /\
  permanentTexture (clear s) = TextureEmpty /\ trail (clear s) = [].
Proof. unfold clear. rewrite drainTrail_spec. repeat split. Qed.

(** C2, as stated, fails: a stroke end on a fresh canvas schedules the
    flatten with timer 1; after [clear()] the timer is still pending, and
    when it fires the flatten runs and replaces the empty texture. *)
Lemma C2_counterexample :
  let ended := run constantRandom renderOk
                 [Pointer pointerdown (pointerAt 0 0 0.5);
                  Pointer pointerup (pointerAt 0 0 0.5)] (mounted newBrush) in
  let cleared := clear ended in
  timers ended = [1%nat] /\ flattenTimeout ended = Some 1%nat /\
  timers cleared = [1%nat] /\
  permanentTexture cleared = TextureEmpty /\
  step constantRandom renderOk (Timeout 1) cleared
  = flatten renderOk (clearTimeout 1 cleared) /\
  permanentTexture (run constantRandom renderOk [Timeout 1] cleared)
  = TextureRendered 0.
Proof.
  intros ended cleared.
  set (s0 := onDrawStart (pointerAt 0 0 0.5) (mounted newBrush)).
  assert (E : ended = scheduleFlatten (strokeReset s0)).
  { unfold ended. cbn [run step InputManager_emit after]. fold s0.
    rewrite (onDrawEnd_single constantRandom s0) by reflexivity. reflexivity. }
  assert (F : flattenTimeout (strokeReset s0) = None).
  { unfold strokeReset, s0, onDrawStart, mounted. fields. reflexivity. }
  assert (T : timers ended = [1%nat]).
  { rewrite E, (scheduleFlatten_first _ F).
    unfold strokeReset, s0, onDrawStart, mounted. fields. reflexivity. }
  assert (T' : flattenTimeout ended = Some 1%nat).
  { rewrite E, (scheduleFlatten_first _ F).
    unfold strokeReset, s0, onDrawStart, mounted. fields. reflexivity. }
  destruct (clear_frame ended) as (C1 & C2 & C3 & C4). fold cleared in C1, C2, C3, C4.
  assert (S1 : step constantRandom renderOk (Timeout 1) cleared
               = flatten renderOk (clearTimeout 1 cleared)).
  { cbn [step]. rewrite C1, T. reflexivity. }
  repeat (split; [congruence |]).
  cbn [run]. rewrite S1. unfold flatten.
  change (renderOk (permanentTexture (clearTimeout 1 cleared))
            (stage (clearTimeout 1 cleared)))
    with (Some (TextureRendered 0)).
  cbn [after]. rewrite drainTrail_spec. reflexivity.
Qed.


(** ** Determinism without jitter *)

Section Determinism.

Variable random1 random2 : nat -> R.
Variable generateTexture : Texture -> list Sprite -> option Texture.

(** Without jitter the values of [Math.random] do not reach the stamp. *)
Lemma paintBrush_no_jitter (x y pressure : R) (s : State) :
  stroke_jitter (brush s) = 0 ->
  paintBrush random1 x y pressure s = paintBrush random2 x y pressure s.
Proof.
  intros Hj. unfold paintBrush. cbv zeta. fields.
  rewrite Hj, !Rmult_0_r. reflexivity.
Qed.

Lemma stampLoop_no_jitter (p0 p1 p2 p3 : Point) (pressure1 pressure2 : R) (n : Z)
    (k i : nat) (s : State) :
  stroke_jitter (brush s) = 0 ->
  stampLoop random1 p0 p1 p2 p3 pressure1 pressure2 n k i s
  = stampLoop random2 p0 p1 p2 p3 pressure1 pressure2 n k i s.
Proof.
  revert i s. induction k as [| k IH]; intros i s Hj; cbn [stampLoop]; [reflexivity |].
  cbv zeta. rewrite (paintBrush_no_jitter _ _ _ s Hj).
  apply IH. rewrite paintBrush_brush. exact Hj.
Qed.

Lemma drawSplineSegment_no_jitter (p0 p1 p2 p3 : Point) (pressure1 pressure2 : R)
    (s : State) :
  stroke_jitter (brush s) = 0 ->
  drawSplineSegment random1 p0 p1 p2 p3 pressure1 pressure2 s
  = drawSplineSegment random2 p0 p1 p2 p3 pressure1 pressure2 s.
Proof.
  intros Hj. unfold drawSplineSegment. cbv zeta.
  apply stampLoop_no_jitter. exact Hj.
Qed.

Lemma drawSplineSegment'_no_jitter (p0 p1 p2 p3 : option Point)
    (pressure1 pressure2 : option R) (s : State) :
  stroke_jitter (brush s) = 0 ->
  drawSplineSegment' random1 p0 p1 p2 p3 pressure1 pressure2 s
  = drawSplineSegment' random2 p0 p1 p2 p3 pressure1 pressure2 s.
Proof.
  intros Hj. unfold drawSplineSegment'.
  destruct p0; [| reflexivity]. destruct p1; [| reflexivity].
  destruct p2; [| reflexivity]. destruct p3; [| reflexivity].
  destruct pressure1; [| reflexivity]. destruct pressure2; [| reflexivity].
  rewrite drawSplineSegment_no_jitter by exact Hj. reflexivity.
Qed.

Lemma step_no_jitter (ev : Event) (s : State) :
  stroke_jitter (brush s) = 0 ->
  step random1 generateTexture ev s = step random2 generateTexture ev s.
Proof.
  intros Hj. destruct ev as [kind event | id | | c sz];
    [| reflexivity | reflexivity | reflexivity].
  destruct kind; cbn [step InputManager_emit].
  - reflexivity.
  - rewrite !onDrawEnd_eq. unfold endSegment.
    destruct (isDrawing s && (len (pathPoints s) >? 1)%Z); [| reflexivity].
    cbv zeta. rewrite drawSplineSegment'_no_jitter by exact Hj. reflexivity.
  - rewrite !onDrawEnd_eq. unfold endSegment.
    destruct (isDrawing s && (len (pathPoints s) >? 1)%Z); [| reflexivity].
    cbv zeta. rewrite drawSplineSegment'_no_jitter by exact Hj. reflexivity.
  - rewrite !onDrawMove_eq.
    destruct (negb (isDrawing s)); [reflexivity |].
    destruct (index (pathPoints s) (len (pathPoints s) - 1)); [| reflexivity].
    destruct (Rlt_dec _ 4); [reflexivity |].
    unfold moveSegment.
    destruct (len (pathPoints (pushed event s)) =? 2)%Z.
    + apply drawSplineSegment'_no_jitter. exact Hj.
    + cbv zeta. destruct (len (pathPoints (pushed event s)) - 2 <? 1)%Z; [reflexivity |].
      apply drawSplineSegment'_no_jitter. exact Hj.
Qed.

End Determinism.

Section Brush.

Variable random : nat -> R.
Variable generateTexture : Texture -> list Sprite -> option Texture.

Lemma drawSplineSegment'_brush (p0 p1 p2 p3 : option Point)
    (pressure1 pressure2 : option R) (s : State) :
  brush (after (drawSplineSegment' random p0 p1 p2 p3 pressure1 pressure2 s))
  = brush s.
Proof.
  unfold drawSplineSegment'.
  destruct p0; [| reflexivity]. destruct p1; [| reflexivity].
  destruct p2; [| reflexivity]. destruct p3; [| reflexivity].
  destruct pressure1; [| reflexivity]. destruct pressure2; [| reflexivity].
  cbn [after]. apply (drawSplineSegment_frame random).
Qed.

(** No handler touches the jitter of the brush. *)
Lemma step_jitter (ev : Event) (s : State) :
  stroke_jitter (brush (after (step random generateTexture ev s)))
  = stroke_jitter (brush s).
Proof.
  destruct ev as [kind event | id | | c sz].
  - destruct kind; cbn [step InputManager_emit].
    + reflexivity.
    + rewrite onDrawEnd_eq.
      assert (B : brush (after (endSegment random s)) = brush s).
      { unfold endSegment.
        destruct (isDrawing s && (len (pathPoints s) >? 1)%Z); [| reflexivity].
        cbv zeta. apply drawSplineSegment'_brush. }
      destruct (endSegment random s) as [s' | e s']; cbn [after] in *.
      * destruct (scheduleFlatten_frame (strokeReset s')) as (_ & -> & _).
        unfold strokeReset. fields. rewrite B. reflexivity.
      * rewrite B. reflexivity.
    + rewrite onDrawEnd_eq.
      assert (B : brush (after (endSegment random s)) = brush s).
      { unfold endSegment.
        destruct (isDrawing s && (len (pathPoints s) >? 1)%Z); [| reflexivity].
        cbv zeta. apply drawSplineSegment'_brush. }
      destruct (endSegment random s) as [s' | e s']; cbn [after] in *.
      * destruct (scheduleFlatten_frame (strokeReset s')) as (_ & -> & _).
        unfold strokeReset. fields. rewrite B. reflexivity.
      * rewrite B. reflexivity.
    + rewrite onDrawMove_eq.
      destruct (negb (isDrawing s)); [reflexivity |].
      destruct (index (pathPoints s) (len (pathPoints s) - 1)); [| reflexivity].
      destruct (Rlt_dec _ 4); [reflexivity |].
      unfold moveSegment.
      destruct (len (pathPoints (pushed event s)) =? 2)%Z.
      * rewrite drawSplineSegment'_brush. reflexivity.
      * cbv zeta.
        destruct (len (pathPoints (pushed event s)) - 2 <? 1)%Z; [reflexivity |].
        rewrite drawSplineSegment'_brush. reflexivity.
  - cbn [step]. destruct (existsb (Nat.eqb id) (timers s)); [| reflexivity].
    unfold flatten.
    destruct (generateTexture _ _); cbn [after]; [| reflexivity].
    rewrite drainTrail_spec. reflexivity.
  - cbn [step after]. unfold clear. rewrite drainTrail_spec. reflexivity.
  - reflexivity.
Qed.

End Brush.

(** C8: with [brush.stroke.jitter = 0], processing the same events (so the
    same accepted path points and pressures) twice with the same brush, under
    two arbitrary sequences of values of [Math.random], ends in the same
    state: the same sprites in the trail and on the stage, hence identical
    stamp positions and sizes, and the same stamp requests. *)
Theorem C8_no_jitter_is_deterministic (random1 random2 : nat -> R)
    (generateTexture : Texture -> list Sprite -> option Texture)
    (evs : list Event) (s : State) :
  stroke_jitter (brush s) = 0 ->
  let s1 := run random1 generateTexture evs s in
  let s2 := run random2 generateTexture evs s in
  s1 = s2 /\
  trail s1 = trail s2 /\
  map (fun sp => (sprite_x sp, sprite_y sp, sprite_width sp, sprite_height sp)) (trail s1)
  = map (fun sp => (sprite_x sp, sprite_y sp, sprite_width sp, sprite_height sp)) (trail s2).
Proof.
  intros Hj s1 s2.
  assert (E : s1 = s2).
  { unfold s1, s2. clear s1 s2. revert s Hj.
    induction evs as [| ev evs' IH]; intros s Hj; cbn [run]; [reflexivity |].
    rewrite (step_no_jitter random1 random2 generateTexture ev s Hj).
    apply IH. rewrite step_jitter. exact Hj. }
  rewrite E. repeat split.
Qed.



(** C8 on a whole stroke with the default brush, whose jitter is 0, under a
    constant and a varying random source. *)
Lemma C8_no_jitter_is_deterministic_witness :
  stroke_jitter (brush (mounted newBrush)) = 0 /\
  run constantRandom renderOk
    [Pointer pointerdown (pointerAt 0 0 0.5); Pointer pointermove (pointerAt 10 0 0.5);
     Pointer pointermove (pointerAt 20 0 1); Pointer pointerup (pointerAt 20 0 0)]
    (mounted newBrush)
  = run (fun k => INR k / (INR k + 1)) renderOk
    [Pointer pointerdown (pointerAt 0 0 0.5); Pointer pointermove (pointerAt 10 0 0.5);
     Pointer pointermove (pointerAt 20 0 1); Pointer pointerup (pointerAt 20 0 0)]
    (mounted newBrush).
Proof.
  assert (H : stroke_jitter (brush (mounted newBrush)) = 0) by reflexivity.
  split; [exact H |].
  exact (proj1 (C8_no_jitter_is_deterministic constantRandom
                  (fun k => INR k / (INR k + 1)) renderOk
                  [Pointer pointerdown (pointerAt 0 0 0.5);
                   Pointer pointermove (pointerAt 10 0 0.5);
                   Pointer pointermove (pointerAt 20 0 1);
                   Pointer pointerup (pointerAt 20 0 0)]
                  (mounted newBrush) H)).
Defined.


(** ** Reachable states *)

Section Reachable.

Variable random : nat -> R.
Variable generateTexture : Texture -> list Sprite -> option Texture.

Lemma tracked_mounted (b : Brush) : tracked (mounted b).
Proof. split; [reflexivity | discriminate]. Qed.

Lemma tracked_reset (s : State) : tracked (scheduleFlatten (strokeReset s)).
Proof.
  destruct (scheduleFlatten_frame (strokeReset s)) as (Fd & _ & Fp & Fq & _).
  unfold tracked. rewrite Fd, Fp, Fq. split; [reflexivity | discriminate].
Qed.

(** Every handler keeps the two arrays of the path in step, and the only
    exception that leaves a handler is the one of the renderer. *)
Lemma step_tracked (ev : Event) (s : State) :
  tracked s ->
  tracked (after (step random generateTexture ev s)) /\
  (forall e s', step random generateTexture ev s = Thrown e s' -> e = RenderError).
Proof.
  intros [Hlen Hne].
  pose proof (len_lengths _ _ Hlen) as Lq.
  destruct ev as [kind event | id | | c sz].
  - assert (END : tracked (after (onDrawEnd random s)) /\
                  (forall e s', onDrawEnd random s = Thrown e s' -> e = RenderError)).
    { rewrite onDrawEnd_eq.
      destruct (isDrawing s) eqn:Hd.
      - destruct (Z_le_gt_dec 2 (len (pathPoints s))) as [G | G].
        + destruct (index_some (pathPoints s) (len (pathPoints s) - 2)) as [p1 H1]; [lia |].
          destruct (index_some (pathPoints s) (len (pathPoints s) - 1)) as [p2 H2]; [lia |].
          destruct (index_some (pressurePoints s) (len (pathPoints s) - 2)) as [q1 Hq1]; [lia |].
          destruct (index_some (pressurePoints s) (len (pathPoints s) - 1)) as [q2 Hq2]; [lia |].
          rewrite (endSegment_drawing random s _ p1 p2 q1 q2 Hd eq_refl G H1 H2 Hq1 Hq2).
          cbn [after]. split; [apply tracked_reset | discriminate].
        + unfold endSegment. rewrite Hd.
          destruct (Z.gtb_spec (len (pathPoints s)) 1) as [L | _]; [lia |].
          cbn [andb after]. split; [apply tracked_reset | discriminate].
      - unfold endSegment. rewrite Hd. cbn [andb after].
        split; [apply tracked_reset | discriminate]. }
    destruct kind; cbn [step InputManager_emit]; try exact END.
    + cbn [after]. split; [| discriminate].
      split; [reflexivity |]. intros _. cbn. lia.
    + destruct (isDrawing s) eqn:Hd.
      * specialize (Hne eq_refl).
        destruct (index_some (pathPoints s) (len (pathPoints s) - 1))
          as [lastPoint Hl]; [lia |].
        destruct (Rlt_dec (hypot (px (global event) - px lastPoint)
                                 (py (global event) - py lastPoint)) 4) as [L | A].
        -- rewrite onDrawMove_eq, Hd, Hl. cbn [negb].
           destruct (Rlt_dec _ 4) as [_ | N]; [| contradiction].
           cbn [after]. split; [| discriminate].
           split; [exact Hlen | intros _; lia].
        -- destruct (onDrawMove_segment random event s lastPoint Hd Hlen Hl A)
             as (pressure1 & _ & E).
           rewrite E. cbn [after]. split; [| discriminate].
           match goal with
           | |- tracked (drawSplineSegment random ?a ?b ?c ?d ?e ?f ?t) =>
               destruct (drawSplineSegment_frame random a b c d e f t)
                 as (Fd & _ & Fp & Fq & _)
           end.
           unfold tracked. rewrite Fd, Fp, Fq. unfold pushed. fields.
           rewrite len_app, !length_app, Hlen. split; [reflexivity |].
           intros _. pose proof (len_nonneg (pathPoints s)). cbn. lia.
      * rewrite onDrawMove_eq, Hd. cbn [negb after].
        split; [| discriminate]. split; [exact Hlen |].
        rewrite Hd. discriminate.
  - cbn [step]. destruct (existsb (Nat.eqb id) (timers s)).
    + unfold flatten. destruct (generateTexture _ _); cbn [after].
      * rewrite drainTrail_spec. split; [split; assumption | discriminate].
      * split; [split; assumption |]. intros e s' E. injection E as <- _. reflexivity.
    + cbn [after]. split; [split; assumption | discriminate].
  - cbn [step after]. unfold clear. rewrite drainTrail_spec.
    split; [split; assumption | discriminate].
  - cbn [step after]. split; [split; assumption | discriminate].
Qed.

Lemma run_tracked (evs : list Event) (s : State) :
  tracked s -> tracked (run random generateTexture evs s).
Proof.
  revert s. induction evs as [| ev evs' IH]; intros s T; cbn [run]; [exact T |].
  apply IH. apply step_tracked. exact T.
Qed.

(** From the mounted state on, no handler reads a property of [undefined],
    and no [undefined] pressure enters arithmetic: the cases [TypeError] and
    [NotANumber] of the embedding are never reached. *)
Lemma reachable_only_RenderError (b : Brush) (evs : list Event) (ev : Event)
    (e : Exception) (s' : State) :
  step random generateTexture ev (run random generateTexture evs (mounted b))
  = Thrown e s' ->
  e = RenderError.
Proof.
  apply step_tracked. apply run_tracked. apply tracked_mounted.
Qed.

End Reachable.


(** * Further properties *)

(** ** The render side *)

Section RenderSide.

Variable random : nat -> R.
Variable generateTexture : Texture -> list Sprite -> option Texture.

(** What one call of [paintBrush] does to the render side. *)
Lemma paintBrush_render (x y pressure : R) (s : State) :
  let s' := paintBrush random x y pressure s in
  exists added,
    trail s' = trail s ++ added /\
    stage s' = stage s ++ added /\
    nextSprite s' = (nextSprite s + length added)%nat /\
    randoms s' = S (S (randoms s)) /\
    destroyed s' = destroyed s /\
    requests s' = requests s ++ [mkStampRequest x y pressure] /\
    (map sprite_id added = [nextSprite s] \/
     map sprite_id added = [S (nextSprite s); nextSprite s]).
Proof.
  unfold paintBrush. cbv zeta. fields.
  destruct (Texture_eqb (shape_grainTexture (brush s)) TextureEmpty);
    cbn [negb]; fields.
  - eexists [_]. cbn [length map sprite_id]. rewrite Nat.add_1_r.
    repeat split; try reflexivity. left. reflexivity.
  - eexists [_; _]. cbn [length map sprite_id].
    rewrite <- !app_assoc. cbn [app].
    replace (nextSprite s + 2)%nat with (S (S (nextSprite s))) by lia.
    repeat split; try reflexivity. right. reflexivity.
Qed.

Section Invariant.

Variable P : State -> Prop.
Hypothesis P_frame : forall s s', render s' = render s -> P s -> P s'.
Hypothesis P_paint : forall x y pressure s, P s -> P (paintBrush random x y pressure s).
Hypothesis P_drain : forall s, P s -> P (drainTrail s).

Lemma stampLoop_invariant (p0 p1 p2 p3 : Point) (pressure1 pressure2 : R) (n : Z)
    (k i : nat) (s : State) :
  P s -> P (stampLoop random p0 p1 p2 p3 pressure1 pressure2 n k i s).
Proof.
  revert i s. induction k as [| k IH]; intros i s H; cbn [stampLoop]; [exact H |].
  cbv zeta. apply IH. apply P_paint. exact H.
Qed.

Lemma drawSplineSegment_invariant (p0 p1 p2 p3 : Point) (pressure1 pressure2 : R)
    (s : State) :
  P s -> P (drawSplineSegment random p0 p1 p2 p3 pressure1 pressure2 s).
Proof.
  intros H. unfold drawSplineSegment. cbv zeta.
  apply stampLoop_invariant. apply (P_frame s); [reflexivity | exact H].
Qed.

Lemma drawSplineSegment'_invariant (p0 p1 p2 p3 : option Point)
    (pressure1 pressure2 : option R) (s : State) :
  P s -> P (after (drawSplineSegment' random p0 p1 p2 p3 pressure1 pressure2 s)).
Proof.
  intros H. unfold drawSplineSegment'.
  destruct p0; [| exact H]. destruct p1; [| exact H].
  destruct p2; [| exact H]. destruct p3; [| exact H].
  destruct pressure1; [| exact H]. destruct pressure2; [| exact H].
  cbn [after]. apply drawSplineSegment_invariant. exact H.
Qed.

Lemma onDrawEnd_invariant (s : State) : P s -> P (after (onDrawEnd random s)).
Proof.
  intros H. rewrite onDrawEnd_eq.
  assert (E : P (after (endSegment random s))).
  { unfold endSegment.
    destruct (isDrawing s && (len (pathPoints s) >? 1)%Z); [| exact H].
    cbv zeta. apply drawSplineSegment'_invariant. exact H. }
  destruct (endSegment random s) as [s' | e s']; cbn [after] in *; [| exact E].
  apply (P_frame s'); [| exact E].
  destruct (scheduleFlatten_frame (strokeReset s'))
    as (_ & Fb & _ & _ & Ft & Fs & _ & Fd & _ & Fr & Fn & Fi).
  unfold render. rewrite Fb, Ft, Fs, Fd, Fr, Fn, Fi. reflexivity.
Qed.

Lemma onDrawMove_invariant (event : PointerEvent) (s : State) :
  P s -> P (after (onDrawMove random event s)).
Proof.
  intros H. rewrite onDrawMove_eq.
  destruct (negb (isDrawing s)); [exact H |].
  destruct (index (pathPoints s) (len (pathPoints s) - 1)); [| exact H].
  destruct (Rlt_dec _ 4); [exact H |].
  assert (H' : P (pushed event s)) by (apply (P_frame s); [reflexivity | exact H]).
  unfold moveSegment.
  destruct (len (pathPoints (pushed event s)) =? 2)%Z.
  - apply drawSplineSegment'_invariant. exact H'.
  - cbv zeta.
    destruct (len (pathPoints (pushed event s)) - 2 <? 1)%Z; [exact H' |].
    apply drawSplineSegment'_invariant. exact H'.
Qed.

(** A property of the render side that [paintBrush] and the draining of the
    trail keep is kept by every event. *)
Lemma step_invariant (ev : Event) (s : State) :
  P s -> P (after (step random generateTexture ev s)).
Proof.
  intros H. destruct ev as [kind event | id | | c sz].
  - destruct kind; cbn [step InputManager_emit].
    + cbn [after]. apply (P_frame s); [reflexivity | exact H].
    + apply onDrawEnd_invariant. exact H.
    + apply onDrawEnd_invariant. exact H.
    + apply onDrawMove_invariant. exact H.
  - cbn [step]. destruct (existsb (Nat.eqb id) (timers s)); [| exact H].
    assert (H' : P (clearTimeout id s)) by (apply (P_frame s); [reflexivity | exact H]).
    unfold flatten. destruct (generateTexture _ _); cbn [after]; [| exact H'].
    apply P_drain. apply (P_frame (clearTimeout id s)); [reflexivity | exact H'].
  - cbn [step after]. unfold clear. apply P_drain.
    apply (P_frame s); [reflexivity | exact H].
  - cbn [step after]. apply (P_frame s); [reflexivity | exact H].
Qed.

Lemma run_invariant (evs : list Event) (s : State) :
  P s -> P (run random generateTexture evs s).
Proof.
  revert s. induction evs as [| ev evs' IH]; intros s H; cbn [run]; [exact H |].
  apply IH. apply step_invariant. exact H.
Qed.

End Invariant.

End RenderSide.


(** ** Sprites: live, on stage, destroyed *)

Lemma without_self (l : list Sprite) : without l l = [].
Proof.
  unfold without.
  assert (G : forall m, incl m l ->
            filter (fun c => negb (existsb (Nat.eqb (sprite_id c)) (map sprite_id l))) m = []).
  { induction m as [| c m IH]; intros Hi; cbn [filter]; [reflexivity |].
    assert (E : existsb (Nat.eqb (sprite_id c)) (map sprite_id l) = true).
    { apply existsb_exists. exists (sprite_id c). split.
      - apply in_map. apply Hi. left. reflexivity.
      - apply Nat.eqb_refl. }
    rewrite E. cbn [negb]. apply IH. intros z Hz. apply Hi. right. exact Hz. }
  apply G. apply incl_refl.
Qed.

Lemma NoDup_app_disjoint {A : Type} (a b : list A) :
  NoDup (a ++ b) -> forall x, In x a -> ~ In x b.
Proof.
  induction a as [| y a IH]; intros H x Hx Hb; [destruct Hx |].
  cbn [app] in H. inversion H as [| z l Hy Hn]; subst.
  destruct Hx as [<- | Hx].
  - apply Hy. apply in_or_app. right. exact Hb.
  - exact (IH Hn x Hx Hb).
Qed.

Lemma NoDup_app_rev {A : Type} (a b : list A) :
  NoDup (a ++ b) -> NoDup (a ++ rev b).
Proof.
  intros H. apply NoDup_app.
  - exact (NoDup_app_remove_r _ _ H).
  - apply NoDup_rev. exact (NoDup_app_remove_l _ _ H).
  - intros x Hx Hr. apply in_rev in Hr.
    exact (NoDup_app_disjoint a b H x Hx Hr).
Qed.

Section Sprites.

Variable random : nat -> R.
Variable generateTexture : Texture -> list Sprite -> option Texture.

Lemma live_frame (s s' : State) : render s' = render s -> live s -> live s'.
Proof.
  unfold render, live. intros E H.
  injection E as -> -> -> _ -> _ _ _ _. exact H.
Qed.

Lemma live_paint (x y pressure : R) (s : State) :
  live s -> live (paintBrush random x y pressure s).
Proof.
  intros (Hs & Hn & Hb & Hc).
  destruct (paintBrush_render random x y pressure s)
    as (added & Et & Es & En & _ & Ed & _ & Hid).
  unfold live. rewrite Et, Es, En, Ed, Hs, map_app, !length_app, app_assoc.
  split; [reflexivity |].
  set (old := destroyed s ++ map sprite_id (trail s)) in *.
  assert (La : length added = length (map sprite_id added)) by (rewrite length_map; reflexivity).
  split; [| split].
  - destruct Hid as [-> | ->].
    + apply NoDup_app; [exact Hn | repeat constructor; intros [] |].
      intros z Hz [<- | []]. apply Hb in Hz. lia.
    + apply NoDup_app; [exact Hn | |].
      * repeat constructor; [intros [E | []]; lia | intros []].
      * intros z Hz [<- | [<- | []]]; apply Hb in Hz; lia.
  - intros id Hin. apply in_app_or in Hin. destruct Hin as [Hin | Hin].
    + apply Hb in Hin. lia.
    + rewrite La. destruct Hid as [E | E]; rewrite E in *; cbn in *; lia.
  - lia.
Qed.

Lemma live_drain (s : State) : live s -> live (drainTrail s).
Proof.
  intros (Hs & Hn & Hb & Hc). rewrite drainTrail_spec. unfold live. fields.
  rewrite Hs, without_self. cbn [map length]. rewrite app_nil_r.
  split; [reflexivity |]. split; [| split].
  - apply NoDup_app_rev. exact Hn.
  - intros id Hin. apply Hb. apply in_app_or in Hin. apply in_or_app.
    destruct Hin as [Hin | Hin]; [left; exact Hin | right].
    apply in_rev. exact Hin.
  - rewrite length_app, length_rev, length_map. lia.
Qed.

Lemma live_mounted (b : Brush) : live (mounted b).
Proof.
  unfold live, mounted. fields. cbn [map app length].
  repeat split; [constructor | intros id []].
Qed.

Lemma live_run (b : Brush) (evs : list Event) :
  live (run random generateTexture evs (mounted b)).
Proof.
  apply run_invariant.
  - apply live_frame.
  - apply live_paint.
  - apply live_drain.
  - apply live_mounted.
Qed.

(** X1: in every state the component reaches from its mounted state, the
    children of the stage (besides the permanent sprite) are exactly the
    sprites of the trail, in the same order; every sprite created so far is
    either in the trail or has been destroyed, never both and never twice. *)
Theorem stage_children_are_the_trail (b : Brush) (evs : list Event) :
  let s := run random generateTexture evs (mounted b) in
  stage s = trail s /\
  NoDup (map sprite_id (trail s)) /\
  NoDup (destroyed s) /\
  (forall sp, In sp (trail s) -> ~ In (sprite_id sp) (destroyed s)) /\
  nextSprite s = (length (destroyed s) + length (trail s))%nat.
Proof.
  intros s. destruct (live_run b evs) as (Hs & Hn & Hb & Hc). fold s in Hs, Hn, Hb, Hc.
  split; [exact Hs |].
  split; [apply (NoDup_app_remove_l _ _ Hn) |].
  split; [apply (NoDup_app_remove_r _ _ Hn) |].
  split; [| exact Hc].
  intros sp Hin Hd.
  apply (NoDup_app_disjoint _ _ Hn (sprite_id sp) Hd).
  apply in_map. exact Hin.
Qed.

End Sprites.


(** ** The flatten timer *)

Section Timers.

Variable random : nat -> R.
Variable generateTexture : Texture -> list Sprite -> option Texture.

Lemma scheduleFlatten_timerSide (s s' : State) :
  timerSide s' = timerSide s ->
  timerSide (scheduleFlatten s') = timerSide (scheduleFlatten s).
Proof.
  unfold timerSide. intros E. injection E as Ef Et En.
  unfold scheduleFlatten, setTimeout, clearTimeout. rewrite Ef.
  destruct (flattenTimeout s) as [id |]; [destruct (Nat.eqb id 0) |];
    fields; rewrite Et, En; reflexivity.
Qed.

Lemma drawSplineSegment'_timerSide (p0 p1 p2 p3 : option Point)
    (pressure1 pressure2 : option R) (s : State) :
  timerSide (after (drawSplineSegment' random p0 p1 p2 p3 pressure1 pressure2 s))
  = timerSide s.
Proof.
  unfold drawSplineSegment'.
  destruct p0; [| reflexivity]. destruct p1; [| reflexivity].
  destruct p2; [| reflexivity]. destruct p3; [| reflexivity].
  destruct pressure1; [| reflexivity]. destruct pressure2; [| reflexivity].
  cbn [after].
  match goal with
  | |- timerSide (drawSplineSegment random ?a ?b ?c ?d ?e ?f ?t) = _ =>
      destruct (drawSplineSegment_frame random a b c d e f t)
        as (_ & _ & _ & _ & _ & Ff & Ft & Fn & _)
  end.
  unfold timerSide. rewrite Ff, Ft, Fn. reflexivity.
Qed.

Section Invariant.

Variable P : State -> Prop.
Hypothesis P_frame : forall s s', timerSide s' = timerSide s -> P s -> P s'.
Hypothesis P_schedule : forall s, P s -> P (scheduleFlatten s).
Hypothesis P_fire : forall id s, In id (timers s) -> P s -> P (clearTimeout id s).

(** A property of the timer side that [scheduleFlatten] and the firing of a
    pending timeout keep is kept by every event. *)
Lemma step_timer_invariant (ev : Event) (s : State) :
  P s -> P (after (step random generateTexture ev s)).
Proof.
  intros H.
  assert (END : P (after (onDrawEnd random s))).
  { rewrite onDrawEnd_eq.
    assert (E : timerSide (after (endSegment random s)) = timerSide s).
    { unfold endSegment.
      destruct (isDrawing s && (len (pathPoints s) >? 1)%Z); [| reflexivity].
      cbv zeta. apply drawSplineSegment'_timerSide. }
    destruct (endSegment random s) as [s' | e s']; cbn [after] in *.
    - apply (P_frame (scheduleFlatten s)); [| apply P_schedule; exact H].
      apply scheduleFlatten_timerSide. exact E.
    - apply (P_frame s); [exact E | exact H]. }
  destruct ev as [kind event | id | | c sz].
  - destruct kind; cbn [step InputManager_emit]; try exact END.
    + cbn [after]. apply (P_frame s); [reflexivity | exact H].
    + rewrite onDrawMove_eq.
      destruct (negb (isDrawing s)); [exact H |].
      destruct (index (pathPoints s) (len (pathPoints s) - 1)); [| exact H].
      destruct (Rlt_dec _ 4); [exact H |].
      apply (P_frame s); [| exact H].
      unfold moveSegment.
      destruct (len (pathPoints (pushed event s)) =? 2)%Z.
      * rewrite drawSplineSegment'_timerSide. reflexivity.
      * cbv zeta.
        destruct (len (pathPoints (pushed event s)) - 2 <? 1)%Z; [reflexivity |].
        rewrite drawSplineSegment'_timerSide. reflexivity.
  - cbn [step]. destruct (existsb (Nat.eqb id) (timers s)) eqn:E; [| exact H].
    apply existsb_exists in E. destruct E as (j & Hj & Ej).
    apply Nat.eqb_eq in Ej. subst j.
    pose proof (P_fire id s Hj H) as H'.
    unfold flatten. destruct (generateTexture _ _); cbn [after]; [| exact H'].
    apply (P_frame (clearTimeout id s)); [| exact H'].
    rewrite drainTrail_spec. reflexivity.
  - cbn [step after]. apply (P_frame s); [| exact H].
    unfold clear. rewrite drainTrail_spec. reflexivity.
  - cbn [step after]. apply (P_frame s); [reflexivity | exact H].
Qed.

Lemma run_timer_invariant (evs : list Event) (s : State) :
  P s -> P (run random generateTexture evs s).
Proof.
  revert s. induction evs as [| ev evs' IH]; intros s H; cbn [run]; [exact H |].
  apply IH. apply step_timer_invariant. exact H.
Qed.

End Invariant.

Lemma debounced_frame (s s' : State) :
  timerSide s' = timerSide s -> debounced s -> debounced s'.
Proof.
  unfold timerSide, debounced. intros E H. injection E as -> -> ->. exact H.
Qed.

Lemma scheduleFlatten_debounced (s : State) :
  debounced s ->
  timers (scheduleFlatten s) = [nextTimer s] /\
  flattenTimeout (scheduleFlatten s) = Some (nextTimer s) /\
  nextTimer (scheduleFlatten s) = S (nextTimer s).
Proof.
  intros (Ht & Hf & Hn). unfold scheduleFlatten, setTimeout, clearTimeout.
  destruct (flattenTimeout s) as [id |] eqn:Ef.
  - destruct (Hf id eq_refl) as [H1 _].
    destruct (Nat.eqb_spec id 0) as [E | _]; [lia |]. fields.
    destruct Ht as [-> | (j & -> & Ej)].
    + repeat split.
    + injection Ej as ->. cbn [filter]. rewrite Nat.eqb_refl. repeat split.
  - fields. destruct Ht as [-> | (j & _ & Ej)]; [repeat split | discriminate].
Qed.

Lemma debounced_schedule (s : State) : debounced s -> debounced (scheduleFlatten s).
Proof.
  intros H. destruct (scheduleFlatten_debounced s H) as (Et & Ef & En).
  destruct H as (_ & _ & Hn).
  unfold debounced. rewrite Et, Ef, En. split; [| split].
  - right. exists (nextTimer s). split; reflexivity.
  - intros id E. injection E as <-. lia.
  - lia.
Qed.

Lemma debounced_fire (id : nat) (s : State) :
  In id (timers s) -> debounced s -> debounced (clearTimeout id s).
Proof.
  intros Hin (Ht & Hf & Hn). unfold debounced, clearTimeout. fields.
  split; [| split; assumption].
  left. destruct Ht as [E | (j & E & _)]; rewrite E in *.
  - destruct Hin.
  - destruct Hin as [-> | []]. cbn [filter]. rewrite Nat.eqb_refl. reflexivity.
Qed.

Lemma debounced_run (b : Brush) (evs : list Event) :
  debounced (run random generateTexture evs (mounted b)).
Proof.
  apply run_timer_invariant.
  - apply debounced_frame.
  - apply debounced_schedule.
  - apply debounced_fire.
  - unfold debounced, mounted. fields. split; [left; reflexivity |].
    split; [discriminate | lia].
Qed.

(** X2: in every state the component reaches from its mounted state at most
    one flatten timeout is pending, and it is the one whose id
    [flattenTimeout] holds; timer ids are positive and below the next id. *)
Theorem at_most_one_flatten_pending (b : Brush) (evs : list Event) :
  let s := run random generateTexture evs (mounted b) in
  (length (timers s) <= 1)%nat /\
  (forall id, In id (timers s) -> flattenTimeout s = Some id /\ (1 <= id < nextTimer s)%nat).
Proof.
  intros s. destruct (debounced_run b evs) as (Ht & Hf & Hn). fold s in Ht, Hf, Hn.
  destruct Ht as [E | (j & E & Ej)]; rewrite E.
  - split; [cbn; lia | intros id []].
  - split; [cbn; lia |]. intros id [<- | []]. split; [exact Ej | apply Hf; exact Ej].
Qed.

End Timers.


(** ** Whole runs *)

Lemma run_app (random : nat -> R)
    (generateTexture : Texture -> list Sprite -> option Texture)
    (evs evs' : list Event) (s : State) :
  run random generateTexture (evs ++ evs') s
  = run random generateTexture evs' (run random generateTexture evs s).
Proof.
  revert s. induction evs as [| ev evs IH]; intros s; cbn [app run]; [reflexivity |].
  apply IH.
Qed.

Section Strokes.

Variable random : nat -> R.
Variable generateTexture : Texture -> list Sprite -> option Texture.

(** The end of a stroke never throws when the arrays of the path are in
    step: it draws at most one segment, resets the path and schedules the
    flatten. *)
Lemma onDrawEnd_tracked (s : State) :
  tracked s ->
  exists s1,
    onDrawEnd random s = Done (scheduleFlatten (strokeReset s1)) /\
    ((s1 = s /\ (isDrawing s = false \/ (len (pathPoints s) <= 1)%Z)) \/
     (isDrawing s = true /\ (2 <= len (pathPoints s))%Z /\
      exists p0 p1 p2 q1 q2,
        s1 = drawSplineSegment random p0 p1 p2 p2 q1 q2 s)).
Proof.
  intros [Hlen Hne]. pose proof (len_lengths _ _ Hlen) as Lq.
  rewrite onDrawEnd_eq.
  destruct (isDrawing s) eqn:Hd.
  - destruct (Z_le_gt_dec 2 (len (pathPoints s))) as [G | G].
    + destruct (index_some (pathPoints s) (len (pathPoints s) - 2)) as [p1 H1]; [lia |].
      destruct (index_some (pathPoints s) (len (pathPoints s) - 1)) as [p2 H2]; [lia |].
      destruct (index_some (pressurePoints s) (len (pathPoints s) - 2)) as [q1 Hq1]; [lia |].
      destruct (index_some (pressurePoints s) (len (pathPoints s) - 1)) as [q2 Hq2]; [lia |].
      rewrite (endSegment_drawing random s _ p1 p2 q1 q2 Hd eq_refl G H1 H2 Hq1 Hq2).
      eexists. split; [reflexivity |]. right.
      split; [reflexivity |]. split; [exact G |].
      eexists _, _, _, _, _. reflexivity.
    + unfold endSegment. rewrite Hd.
      destruct (Z.gtb_spec (len (pathPoints s)) 1) as [L | _]; [lia |].
      cbn [andb]. exists s. split; [reflexivity |]. left. split; [reflexivity |].
      right. lia.
  - unfold endSegment. rewrite Hd. cbn [andb].
    exists s. split; [reflexivity |]. left. split; [reflexivity |]. left. reflexivity.
Qed.

(** X3: a stroke end in any state reached from the mounted state resets the
    path, leaves exactly one flatten pending, the one it has just scheduled,
    and supersedes the flatten that was pending before: when the old timeout
    id comes up it runs nothing. *)
Theorem stroke_end_supersedes_pending_flatten (b : Brush) (evs : list Event)
    (event : PointerEvent) :
  let s := run random generateTexture evs (mounted b) in
  let s' := run random generateTexture (evs ++ [Pointer pointerup event]) (mounted b) in
  isDrawing s' = false /\ pathPoints s' = [] /\ pressurePoints s' = [] /\
  timers s' = [nextTimer s] /\
  flattenTimeout s' = Some (nextTimer s) /\
  (forall old, In old (timers s) ->
               step random generateTexture (Timeout old) s' = Done s').
Proof.
  intros s s'. unfold s'. rewrite run_app. fold s.
  cbn [run step InputManager_emit].
  assert (T : tracked s) by (apply run_tracked, tracked_mounted).
  destruct (onDrawEnd_tracked s T) as (s1 & E & Hs1). rewrite E. cbn [after].
  assert (TS : timerSide s1 = timerSide s).
  { destruct Hs1 as [[-> _] | (_ & _ & p0 & p1 & p2 & q1 & q2 & ->)]; [reflexivity |].
    destruct (drawSplineSegment_frame random p0 p1 p2 p2 q1 q2 s)
      as (_ & _ & _ & _ & _ & Ff & Ft & Fn & _).
    unfold timerSide. rewrite Ff, Ft, Fn. reflexivity. }
  pose proof (debounced_run random generateTexture b evs) as D. fold s in D.
  assert (D1 : debounced (strokeReset s1)).
  { apply (debounced_frame s); [| exact D]. rewrite <- TS. reflexivity. }
  destruct (scheduleFlatten_debounced _ D1) as (Et & Ef & _).
  change (nextTimer (strokeReset s1)) with (nextTimer s1) in Et, Ef.
  assert (En : nextTimer s1 = nextTimer s) by (unfold timerSide in TS; congruence).
  rewrite En in Et, Ef.
  destruct (scheduleFlatten_frame (strokeReset s1)) as (Fd & _ & Fp & Fq & _).
  split; [rewrite Fd; reflexivity |].
  split; [rewrite Fp; reflexivity |].
  split; [rewrite Fq; reflexivity |].
  split; [exact Et |]. split; [exact Ef |].
  intros old Hold. cbn [step]. rewrite Et. cbn [existsb].
  destruct (Nat.eqb_spec old (nextTimer s)) as [-> | _]; [| reflexivity].
  destruct D as (Ht & Hf & _).
  destruct Ht as [E0 | (j & E0 & Ej)]; rewrite E0 in Hold.
  - destruct Hold.
  - destruct Hold as [Hj | []]. apply Hf in Ej. exfalso. rewrite Hj in Ej. lia.
Qed.

End Strokes.


(** ** The path tracker *)

Lemma index_cons {A : Type} (a : A) (l : list A) (i : Z) :
  (0 <= i)%Z -> index (a :: l) (i + 1) = index l i.
Proof.
  intros Hi. unfold index.
  destruct (Z.ltb_spec (i + 1) 0); [lia |].
  destruct (Z.ltb_spec i 0); [lia |].
  replace (Z.to_nat (i + 1)) with (S (Z.to_nat i)) by lia. reflexivity.
Qed.

Lemma len_cons {A : Type} (a : A) (l : list A) : len (a :: l) = (len l + 1)%Z.
Proof. unfold len. cbn [length]. lia. Qed.

Lemma spaced_snoc (l : list Point) (x : Point) :
  spaced l ->
  (forall lastPoint, index l (len l - 1) = Some lastPoint -> 4 <= dist lastPoint x) ->
  spaced (l ++ [x]).
Proof.
  induction l as [| a l IH]; intros Hs Hl; [exact I |].
  destruct l as [| b l].
  - cbn [app spaced]. split; [| exact I]. apply Hl. reflexivity.
  - change (spaced ((a :: b :: l) ++ [x]))
      with (4 <= dist a b /\ spaced ((b :: l) ++ [x])).
    destruct Hs as [Hab Hs]. split; [exact Hab |].
    apply IH; [exact Hs |].
    intros lastPoint E. apply Hl.
    rewrite (len_cons a (b :: l)).
    replace (len (b :: l) + 1 - 1)%Z with (len (b :: l) - 1 + 1)%Z by lia.
    rewrite index_cons; [exact E |]. rewrite len_cons. pose proof (len_nonneg l). lia.
Qed.

Lemma spaced_index (l : list Point) (i : Z) (a b : Point) :
  spaced l -> index l i = Some a -> index l (i + 1) = Some b -> 4 <= dist a b.
Proof.
  revert i. induction l as [| x l IH]; intros i Hs Ha Hb;
    pose proof (index_range _ _ _ Ha) as Ri; [cbn in Ri; lia |].
  rewrite len_cons in Ri.
  destruct (Z.eq_dec i 0) as [-> | Ni].
  - cbn in Ha. injection Ha as ->.
    destruct l as [| y l]; [discriminate |].
    cbn in Hb. injection Hb as ->. exact (proj1 Hs).
  - replace i with (i - 1 + 1)%Z in Ha by lia.
    rewrite index_cons in Ha by lia. rewrite index_cons in Hb by lia.
    replace i with (i - 1 + 1)%Z in Hb by lia.
    apply (IH (i - 1)%Z); [| exact Ha | exact Hb].
    destruct l as [| y l]; [exact I | exact (proj2 Hs)].
Qed.

Section PathInvariant.

Variable random : nat -> R.
Variable generateTexture : Texture -> list Sprite -> option Texture.

Lemma pathInvariant_tracked (s : State) : pathInvariant s -> tracked s.
Proof.
  intros (Hlen & Hne & _ & _). split; [exact Hlen |].
  intros Hd. specialize (Hne Hd). unfold len.
  destruct (pathPoints s); [contradiction | cbn; lia].
Qed.

Lemma pathInvariant_frame (s s' : State) :
  isDrawing s' = isDrawing s -> pathPoints s' = pathPoints s ->
  pressurePoints s' = pressurePoints s ->
  pathInvariant s -> pathInvariant s'.
Proof. unfold pathInvariant. intros -> -> ->. exact (fun H => H). Qed.

Lemma pathInvariant_reset (s : State) : pathInvariant (scheduleFlatten (strokeReset s)).
Proof.
  destruct (scheduleFlatten_frame (strokeReset s)) as (Fd & _ & Fp & Fq & _).
  unfold pathInvariant. rewrite Fd, Fp, Fq. unfold strokeReset. fields.
  split; [reflexivity |]. split; [discriminate |]. split; [reflexivity | exact I].
Qed.

Lemma step_pathInvariant (ev : Event) (s : State) :
  pathInvariant s -> pathInvariant (after (step random generateTexture ev s)).
Proof.
  intros H. pose proof (pathInvariant_tracked s H) as T.
  destruct ev as [kind event | id | | c sz].
  - assert (END : pathInvariant (after (onDrawEnd random s))).
    { destruct (onDrawEnd_tracked random s T) as (s1 & E & _). rewrite E.
      cbn [after]. apply pathInvariant_reset. }
    destruct kind; cbn [step InputManager_emit]; try exact END.
    + cbn [after]. unfold pathInvariant, onDrawStart. fields.
      split; [reflexivity |]. split; [discriminate |]. split; [discriminate | exact I].
    + destruct H as (Hlen & Hne & Hidle & Hsp).
      destruct (isDrawing s) eqn:Hd.
      * destruct T as [_ T1]. specialize (T1 Hd).
        destruct (index_some (pathPoints s) (len (pathPoints s) - 1))
          as [lastPoint Hl]; [lia |].
        destruct (Rlt_dec (hypot (px (global event) - px lastPoint)
                                 (py (global event) - py lastPoint)) 4) as [L | A].
        -- rewrite onDrawMove_eq, Hd, Hl. cbn [negb].
           destruct (Rlt_dec _ 4) as [_ | N]; [| contradiction].
           cbn [after]. unfold pathInvariant. rewrite Hd. repeat split; assumption.
        -- destruct (onDrawMove_segment random event s lastPoint Hd Hlen Hl A)
             as (pressure1 & _ & E).
           rewrite E. cbn [after].
           match goal with
           | |- pathInvariant (drawSplineSegment random ?a ?b ?c ?d ?e ?f ?t) =>
               destruct (drawSplineSegment_frame random a b c d e f t)
                 as (Fd & _ & Fp & Fq & _)
           end.
           unfold pathInvariant. rewrite Fd, Fp, Fq. unfold pushed. fields.
           rewrite !length_app, Hlen, Hd.
           split; [reflexivity |]. split; [| split; [discriminate |]].
           ++ intros _ C. apply app_eq_nil in C. destruct C as [_ C]. discriminate.
           ++ apply spaced_snoc; [exact Hsp |].
              intros lp Hlp. rewrite Hl in Hlp. injection Hlp as <-.
              unfold dist. apply Rnot_lt_le. exact A.
      * rewrite onDrawMove_eq, Hd. cbn [negb after].
        unfold pathInvariant. rewrite Hd. repeat split; assumption.
  - cbn [step]. destruct (existsb (Nat.eqb id) (timers s)); [| exact H].
    unfold flatten. destruct (generateTexture _ _); cbn [after].
    + apply (pathInvariant_frame s); [| | | exact H];
        rewrite drainTrail_spec; reflexivity.
    + apply (pathInvariant_frame s); [| | | exact H]; reflexivity.
  - cbn [step after]. unfold clear.
    apply (pathInvariant_frame s); [| | | exact H]; rewrite drainTrail_spec; reflexivity.
  - cbn [step after]. apply (pathInvariant_frame s); [| | | exact H]; reflexivity.
Qed.

Lemma pathInvariant_run (b : Brush) (evs : list Event) :
  pathInvariant (run random generateTexture evs (mounted b)).
Proof.
  assert (G : forall s, pathInvariant s -> pathInvariant (run random generateTexture evs s)).
  { induction evs as [| ev evs' IH]; intros s H; cbn [run]; [exact H |].
    apply IH. apply step_pathInvariant. exact H. }
  apply G. unfold pathInvariant, mounted. fields.
  split; [reflexivity |]. split; [discriminate |]. split; [reflexivity | exact I].
Qed.

(** X4: in every state reached from the mounted state the path and
    pressure arrays have the same length, the path is empty exactly when no
    stroke is active, and any two consecutive points of the path are at
    least 4 units apart. *)
Theorem path_points_are_spaced (b : Brush) (evs : list Event) :
  let s := run random generateTexture evs (mounted b) in
  length (pressurePoints s) = length (pathPoints s) /\
  (isDrawing s = false <-> pathPoints s = []) /\
  (forall i p q,
     index (pathPoints s) i = Some p -> index (pathPoints s) (i + 1) = Some q ->
     4 <= hypot (px q - px p) (py q - py p)).
Proof.
  intros s. destruct (pathInvariant_run b evs) as (Hlen & Hne & Hidle & Hsp).
  fold s in Hlen, Hne, Hidle, Hsp.
  split; [exact Hlen |]. split.
  - split; [exact Hidle |]. intros E.
    destruct (isDrawing s); [| reflexivity]. exfalso. exact (Hne eq_refl E).
  - intros i p q Hp Hq. exact (spaced_index _ i p q Hsp Hp Hq).
Qed.

End PathInvariant.


(** ** Taps and flattens *)

Section Taps.

Variable random : nat -> R.
Variable generateTexture : Texture -> list Sprite -> option Texture.

Lemma onDrawMove_dropped (event : PointerEvent) (s : State) (lastPoint : Point) :
  index (pathPoints s) (len (pathPoints s) - 1) = Some lastPoint ->
  hypot (px (global event) - px lastPoint) (py (global event) - py lastPoint) < 4 ->
  onDrawMove random event s = Done s.
Proof.
  intros Hl Hd. rewrite onDrawMove_eq.
  destruct (negb (isDrawing s)); [reflexivity |].
  rewrite Hl. destruct (Rlt_dec _ 4) as [_ | N]; [reflexivity | contradiction].
Qed.

Lemma run_dropped_moves (moves : list PointerEvent) (s : State) (lastPoint : Point) :
  index (pathPoints s) (len (pathPoints s) - 1) = Some lastPoint ->
  Forall (fun m => hypot (px (global m) - px lastPoint)
                         (py (global m) - py lastPoint) < 4) moves ->
  run random generateTexture (map (Pointer pointermove) moves) s = s.
Proof.
  intros Hl Hm. induction Hm as [| m moves Hd _ IH]; cbn [map run]; [reflexivity |].
  cbn [step InputManager_emit]. rewrite (onDrawMove_dropped m s lastPoint Hl Hd).
  cbn [after]. exact IH.
Qed.

(** X5: a tap paints nothing.  From any state, a pointer down followed by
    any number of moves that stay within 4 units of the down position and a
    pointer up creates no sprite and no stamp request; it only ends the
    stroke and schedules a flatten. *)
Theorem tap_paints_nothing (s : State) (down up : PointerEvent)
    (moves : list PointerEvent) :
  Forall (fun m => hypot (px (global m) - px (global down))
                         (py (global m) - py (global down)) < 4) moves ->
  let s' := run random generateTexture
              (Pointer pointerdown down :: map (Pointer pointermove) moves
               ++ [Pointer pointerup up]) s in
  trail s' = trail s /\ stage s' = stage s /\
  requests s' = requests s /\ segments s' = segments s /\
  isDrawing s' = false /\ pathPoints s' = [] /\
  exists id, In id (timers s') /\ flattenTimeout s' = Some id.
Proof.
  intros Hm s'. unfold s'. clear s'.
  cbn [run step InputManager_emit after]. rewrite run_app.
  set (s0 := onDrawStart down s).
  rewrite (run_dropped_moves moves s0 (global down)); [| reflexivity | exact Hm].
  cbn [run step InputManager_emit].
  rewrite (onDrawEnd_single random s0) by reflexivity. cbn [after].
  destruct (scheduleFlatten_frame (strokeReset s0))
    as (Fd & _ & Fp & _ & Ft & Fs & _ & _ & Fg & Fr & _).
  rewrite Fd, Fp, Ft, Fs, Fg, Fr.
  do 6 (split; [reflexivity |]).
  unfold scheduleFlatten, setTimeout.
  destruct (flattenTimeout (strokeReset s0)) as [j |]; [destruct (Nat.eqb j 0) |];
    fields; eexists; (split; [apply in_or_app; right; left; reflexivity | reflexivity]).
Qed.

Lemma tapped_timers :
  timers (run constantRandom renderOk
            [Pointer pointerdown (pointerAt 0 0 0.5); Pointer pointerup (pointerAt 0 0 0)]
            (mounted newBrush)) = [1%nat].
Proof.
  cbn [run step InputManager_emit after].
  rewrite (onDrawEnd_single constantRandom
             (onDrawStart (pointerAt 0 0 0.5) (mounted newBrush))) by reflexivity.
  cbn [after]. rewrite scheduleFlatten_first by reflexivity. reflexivity.
Qed.

End Taps.

(** X5 on a tap at the origin with one move to [(1,0)]. *)
Lemma tap_paints_nothing_witness :
  Forall (fun m => hypot (px (global m) - px (global (pointerAt 0 0 0.5)))
                         (py (global m) - py (global (pointerAt 0 0 0.5))) < 4)
    [pointerAt 1 0 0.5] /\
  trail (run constantRandom renderOk
           (Pointer pointerdown (pointerAt 0 0 0.5)
            :: map (Pointer pointermove) [pointerAt 1 0 0.5]
            ++ [Pointer pointerup (pointerAt 1 0 0)]) (mounted newBrush))
  = trail (mounted newBrush).
Proof.
  assert (H : Forall (fun m => hypot (px (global m) - px (global (pointerAt 0 0 0.5)))
                                     (py (global m) - py (global (pointerAt 0 0 0.5))) < 4)
                [pointerAt 1 0 0.5]).
  { constructor; [| constructor].
    rewrite (hypot_flat _ _ 1); cbn [px py global pointerAt]; [lra | lra | left; lra | lra]. }
  split; [exact H |].
  exact (proj1 (tap_paints_nothing constantRandom renderOk (mounted newBrush)
                  (pointerAt 0 0 0.5) (pointerAt 1 0 0) [pointerAt 1 0 0.5] H)).
Defined.

Section Flattens.

Variable random : nat -> R.
Variable generateTexture : Texture -> list Sprite -> option Texture.

(** X6: when a pending flatten timeout fires in a state reached from the
    mounted state and the renderer succeeds, the new persistent texture is
    the rendering of the old persistent texture with exactly the sprites of
    the trail; every sprite of the trail is destroyed, the trail and the
    stage are left empty and no timeout stays pending.  A stroke in progress
    keeps its path. *)
Theorem flatten_rasterizes_and_drains (b : Brush) (evs : list Event) (id : nat)
    (t : Texture) :
  let s := run random generateTexture evs (mounted b) in
  let s' := run random generateTexture (evs ++ [Timeout id]) (mounted b) in
  In id (timers s) ->
  generateTexture (permanentTexture s) (trail s) = Some t ->
  permanentTexture s' = t /\
  trail s' = [] /\ stage s' = [] /\ timers s' = [] /\
  destroyed s' = destroyed s ++ rev (map sprite_id (trail s)) /\
  isDrawing s' = isDrawing s /\ pathPoints s' = pathPoints s /\
  pressurePoints s' = pressurePoints s.
Proof.
  intros s s' Hin Hg. unfold s'. rewrite run_app. fold s.
  cbn [run step].
  assert (E : existsb (Nat.eqb id) (timers s) = true).
  { apply existsb_exists. exists id. split; [exact Hin | apply Nat.eqb_refl]. }
  rewrite E.
  destruct (live_run random generateTexture b evs) as (Hs & _). fold s in Hs.
  destruct (debounced_run random generateTexture b evs) as (Ht & _). fold s in Ht.
  unfold flatten, clearTimeout. fields. rewrite Hs, Hg. cbn [after].
  rewrite drainTrail_spec. fields. rewrite Hs, without_self.
  repeat split.
  destruct Ht as [E0 | (j & E0 & _)]; rewrite E0 in *; [destruct Hin |].
  destruct Hin as [-> | []]. cbn [filter]. rewrite Nat.eqb_refl. reflexivity.
Qed.

End Flattens.

(** X6 on the flatten that a tap on a fresh canvas schedules. *)
Lemma flatten_rasterizes_and_drains_witness :
  let evs := [Pointer pointerdown (pointerAt 0 0 0.5); Pointer pointerup (pointerAt 0 0 0)] in
  In 1%nat (timers (run constantRandom renderOk evs (mounted newBrush))) /\
  permanentTexture (run constantRandom renderOk (evs ++ [Timeout 1]) (mounted newBrush))
  = TextureRendered 0.
Proof.
  intros evs.
  assert (H : In 1%nat (timers (run constantRandom renderOk evs (mounted newBrush)))).
  { unfold evs. rewrite tapped_timers. left. reflexivity. }
  split; [exact H |].
  exact (proj1 (flatten_rasterizes_and_drains constantRandom renderOk newBrush evs 1
                  (TextureRendered 0) H eq_refl)).
Defined.


(** ** Exceptions, and clearing in the middle of a stroke *)

Section Robustness.

Variable random : nat -> R.
Variable generateTexture : Texture -> list Sprite -> option Texture.

(** X17: from the mounted state on, the only exception that leaves a
    handler is the one of the renderer, in a flatten that runs from its
    timeout: pointer events, [clear] and changes of the props always
    complete, and when an exception is thrown the state differs from the one
    before only by the timeout that has fired. *)
Theorem only_a_failed_flatten_throws (b : Brush) (evs : list Event) (ev : Event)
    (e : Exception) (s' : State) :
  let s := run random generateTexture evs (mounted b) in
  step random generateTexture ev s = Thrown e s' ->
  e = RenderError /\
  exists id,
    ev = Timeout id /\ In id (timers s) /\
    generateTexture (permanentTexture s) (stage s) = None /\
    s' = clearTimeout id s.
Proof.
  intros s H.
  assert (T : tracked s) by (apply run_tracked, tracked_mounted).
  pose proof (proj2 (step_tracked random generateTexture ev s T) e s' H) as ->.
  split; [reflexivity |].
  destruct ev as [kind event | id | | c sz]; cbn [step] in H.
  - exfalso.
    assert (END : onDrawEnd random s <> Thrown RenderError s').
    { destruct (onDrawEnd_tracked random s T) as (s1 & E & _). rewrite E. discriminate. }
    destruct kind; cbn [InputManager_emit] in H;
      [discriminate | exact (END H) | exact (END H) |].
    rewrite onDrawMove_eq in H.
    destruct (negb (isDrawing s)); [discriminate |].
    destruct (index (pathPoints s) (len (pathPoints s) - 1)); [| discriminate].
    destruct (Rlt_dec _ 4); [discriminate |].
    unfold moveSegment, drawSplineSegment' in H.
    repeat match type of H with
           | (if ?c then _ else _) = _ => destruct c
           | match ?c with _ => _ end = _ => destruct c
           | (let _ := _ in _) = _ => cbv zeta in H
           end; discriminate.
  - exists id.
    destruct (existsb (Nat.eqb id) (timers s)) eqn:E; [| discriminate].
    apply existsb_exists in E. destruct E as (j & Hj & Ej).
    apply Nat.eqb_eq in Ej. subst j.
    unfold flatten in H.
    change (permanentTexture (clearTimeout id s)) with (permanentTexture s) in H.
    change (stage (clearTimeout id s)) with (stage s) in H.
    destruct (generateTexture (permanentTexture s) (stage s)); [discriminate |].
    injection H as <-. repeat split; assumption.
  - discriminate.
  - discriminate.
Qed.

(** X18: [clear()] in the middle of a stroke does not interrupt it: the
    path is kept, and the next accepted move draws the same segment, with
    the same stamp requests, as it would have drawn without the call; the
    trail then holds the sprites of that move only. *)
Theorem clear_does_not_interrupt_the_stroke (event : PointerEvent) (s : State)
    (lastPoint : Point) :
  isDrawing s = true ->
  length (pressurePoints s) = length (pathPoints s) ->
  index (pathPoints s) (len (pathPoints s) - 1) = Some lastPoint ->
  accepted event lastPoint ->
  exists s1 s2,
    onDrawMove random event s = Done s1 /\
    onDrawMove random event (clear s) = Done s2 /\
    pathPoints s2 = pathPoints s1 /\
    pressurePoints s2 = pressurePoints s1 /\
    pathPoints s2 = pathPoints s ++ [global event] /\
    skipn (length (segments s)) (segments s2)
    = skipn (length (segments s)) (segments s1) /\
    newRequests (clear s) s2 = newRequests s s1 /\
    (length (trail s2) <= 2 * length (newRequests s s1))%nat.
Proof.
  intros Hd Hlen Hl Hacc.
  destruct (onDrawMove_segment random event s lastPoint Hd Hlen Hl Hacc)
    as (pressure1 & Hq & E1).
  assert (C : isDrawing (clear s) = isDrawing s /\ pathPoints (clear s) = pathPoints s /\
              pressurePoints (clear s) = pressurePoints s /\
              brush (clear s) = brush s /\ segments (clear s) = segments s /\
              requests (clear s) = requests s).
  { unfold clear. rewrite drainTrail_spec. repeat split. }
  destruct C as (Cd & Cp & Cq & Cb & Cs & Cr).
  destruct (onDrawMove_segment random event (clear s) lastPoint) as (pressure2 & Hq2 & E2).
  { rewrite Cd. exact Hd. }
  { rewrite Cp, Cq. exact Hlen. }
  { rewrite Cp. exact Hl. }
  { exact Hacc. }
  rewrite Cp in Hq2, E2. rewrite Cq in Hq2. rewrite Hq in Hq2. injection Hq2 as <-.
  set (p0 := match index (pathPoints s) (len (pathPoints s) - 2) with
             | Some p => p
             | None => lastPoint
             end) in *.
  eexists _, _. split; [exact E1 |]. split; [exact E2 |].
  destruct (drawSplineSegment_frame random p0 lastPoint (global event) (global event)
              pressure1 (pressure event) (pushed event s)) as (_ & _ & Fp & Fq & _).
  destruct (drawSplineSegment_frame random p0 lastPoint (global event) (global event)
              pressure1 (pressure event) (pushed event (clear s))) as (_ & _ & Gp & Gq & _).
  rewrite Fp, Fq, Gp, Gq. unfold pushed at 1 2 3 4 5. fields. rewrite Cp, Cq.
  do 3 (split; [reflexivity |]).
  split.
  { rewrite !drawSplineSegment_segments. unfold pushed. fields. rewrite Cs.
    reflexivity. }
  assert (R : newRequests (clear s)
                (drawSplineSegment random p0 lastPoint (global event) (global event)
                   pressure1 (pressure event) (pushed event (clear s)))
              = newRequests s
                  (drawSplineSegment random p0 lastPoint (global event) (global event)
                     pressure1 (pressure event) (pushed event s))).
  { change (newRequests (clear s)) with (newRequests (pushed event (clear s))).
    change (newRequests s) with (newRequests (pushed event s)).
    rewrite !newRequests_drawSplineSegment.
    change (brush (pushed event (clear s))) with (brush (clear s)).
    change (brush (pushed event s)) with (brush s).
    rewrite Cb. reflexivity. }
  split; [exact R |].
  rewrite <- R.
  change (newRequests (clear s)) with (newRequests (pushed event (clear s))).
  rewrite newRequests_drawSplineSegment, length_map, length_seq.
  unfold drawSplineSegment. cbv zeta.
  set (n := numSteps _ _ _ _ _ _ _).
  generalize (S (Z.to_nat n)) as k. intros k.
  assert (G : forall k i t, (length (trail (stampLoop random p0 lastPoint (global event)
                                (global event) pressure1 (pressure event) n k i t))
                             <= length (trail t) + 2 * k)%nat).
  { clear. induction k as [| k IH]; intros i t; cbn [stampLoop]; [lia |].
    cbv zeta. eapply Nat.le_trans; [apply IH |].
    match goal with
    | |- (length (trail (paintBrush random ?x ?y ?p t)) + _ <= _)%nat =>
        destruct (paintBrush_trail random x y p t) as (grain & stamp & Et & Lg & _)
    end.
    rewrite Et, !length_app. cbn [length]. lia. }
  eapply Nat.le_trans; [apply G |].
  unfold pushed, clear. fields. rewrite drainTrail_spec. fields. cbn [length]. lia.
Qed.

End Robustness.

(** X18 on [strokeOfTwo] and a move to [(20,0)]. *)
Lemma clear_does_not_interrupt_the_stroke_witness :
  isDrawing strokeOfTwo = true /\
  length (pressurePoints strokeOfTwo) = length (pathPoints strokeOfTwo) /\
  index (pathPoints strokeOfTwo) (len (pathPoints strokeOfTwo) - 1)
  = Some (mkPoint 10 0) /\
  accepted (pointerAt 20 0 0.5) (mkPoint 10 0) /\
  exists s1 s2,
    onDrawMove constantRandom (pointerAt 20 0 0.5) strokeOfTwo = Done s1 /\
    onDrawMove constantRandom (pointerAt 20 0 0.5) (clear strokeOfTwo) = Done s2 /\
    newRequests (clear strokeOfTwo) s2 = newRequests strokeOfTwo s1.
Proof.
  destruct strokeOfTwo_facts as (Hd & Hp & Hq & _).
  assert (H3 : length (pressurePoints strokeOfTwo) = length (pathPoints strokeOfTwo))
    by (rewrite Hp, Hq; reflexivity).
  assert (H4 : index (pathPoints strokeOfTwo) (len (pathPoints strokeOfTwo) - 1)
               = Some (mkPoint 10 0)) by (rewrite Hp; reflexivity).
  assert (H5 : accepted (pointerAt 20 0 0.5) (mkPoint 10 0))
    by (apply (accepted_flat _ _ 10); cbn; lra).
  repeat (split; [assumption |]).
  destruct (clear_does_not_interrupt_the_stroke constantRandom (pointerAt 20 0 0.5)
              strokeOfTwo (mkPoint 10 0) Hd H3 H4 H5)
    as (s1 & s2 & E1 & E2 & _ & _ & _ & _ & R & _).
  exists s1, s2. repeat split; assumption.
Defined.

(** X17 on a flatten that fails right after a tap. *)
Lemma only_a_failed_flatten_throws_witness :
  let evs := [Pointer pointerdown (pointerAt 0 0 0.5); Pointer pointerup (pointerAt 0 0 0)] in
  let s := run constantRandom renderThrows evs (mounted newBrush) in
  step constantRandom renderThrows (Timeout 1) s = Thrown RenderError (clearTimeout 1 s) /\
  exists id, Timeout 1 = Timeout id /\ In id (timers s).
Proof.
  intros evs s.
  assert (H : step constantRandom renderThrows (Timeout 1) s
              = Thrown RenderError (clearTimeout 1 s)).
  { cbn [step].
    assert (T : timers s = [1%nat]).
    { unfold s, evs. cbn [run step InputManager_emit after].
      rewrite (onDrawEnd_single constantRandom
                 (onDrawStart (pointerAt 0 0 0.5) (mounted newBrush))) by reflexivity.
      cbn [after]. rewrite scheduleFlatten_first by reflexivity. reflexivity. }
    rewrite T. reflexivity. }
  split; [exact H |].
  destruct (only_a_failed_flatten_throws constantRandom renderThrows newBrush evs
              (Timeout 1) RenderError (clearTimeout 1 s) H) as (_ & id & E & Hin & _).
  exists id. split; [exact E | exact Hin].
Defined.


(** ** Whole strokes *)

Lemma last_cons {A : Type} (x : A) (l : list A) (d : A) :
  last (x :: l) d = last l x.
Proof.
  revert x d. induction l as [| y l IH]; intros x d; [reflexivity |].
  change (last (x :: y :: l) d) with (last (y :: l) d).
  rewrite (IH y d), (IH y x). reflexivity.
Qed.

Lemma joints_snoc (a b : Point) (l : list Point) :
  joints a (l ++ [b]) = joints a l ++ [(last l a, b)].
Proof.
  revert a. induction l as [| c l IH]; intros a; [reflexivity |].
  cbn [app joints]. rewrite IH, last_cons. reflexivity.
Qed.

Lemma chained_snoc (a : Point) (moves : list PointerEvent) (m : PointerEvent) :
  chained a (moves ++ [m])
  <-> chained a moves /\ accepted m (last (map global moves) a).
Proof.
  revert a. induction moves as [| x moves IH]; intros a; cbn [app chained map].
  - cbn [last]. tauto.
  - rewrite IH, last_cons. tauto.
Qed.

Section WholeStrokes.

Variable random : nat -> R.
Variable generateTexture : Texture -> list Sprite -> option Texture.

(** A run of accepted moves: every move appends its point and draws the
    segment from the point before it. *)
Lemma accepted_moves (moves : list PointerEvent) (s : State) (lastPoint : Point) :
  isDrawing s = true ->
  length (pressurePoints s) = length (pathPoints s) ->
  index (pathPoints s) (len (pathPoints s) - 1) = Some lastPoint ->
  chained lastPoint moves ->
  let s' := run random generateTexture (map (Pointer pointermove) moves) s in
  isDrawing s' = true /\
  length (pressurePoints s') = length (pathPoints s') /\
  index (pathPoints s') (len (pathPoints s') - 1)
  = Some (last (map global moves) lastPoint) /\
  pathPoints s' = pathPoints s ++ map global moves /\
  brush s' = brush s /\
  exists segs,
    segments s' = segments s ++ segs /\
    map segmentEnds segs = joints lastPoint (map global moves) /\
    Forall (fun seg => seg_p3 seg = seg_p2 seg) segs.
Proof.
  revert s lastPoint. induction moves as [| m moves IH]; intros s lastPoint Hd Hlen Hl Hc.
  - cbn [map run last joints]. rewrite app_nil_r.
    repeat split; try assumption. exists []. rewrite app_nil_r.
    repeat split. constructor.
  - destruct Hc as [Hacc Hc]. cbn [map run step InputManager_emit].
    destruct (onDrawMove_segment random m s lastPoint Hd Hlen Hl Hacc)
      as (pressure1 & Hq & E).
    rewrite E. cbn [after].
    set (p0 := match index (pathPoints s) (len (pathPoints s) - 2) with
               | Some p => p
               | None => lastPoint
               end) in *.
    set (s1 := drawSplineSegment random p0 lastPoint (global m) (global m)
                 pressure1 (pressure m) (pushed m s)) in *.
    destruct (drawSplineSegment_frame random p0 lastPoint (global m) (global m)
                pressure1 (pressure m) (pushed m s)) as (Fd & Fb & Fp & Fq & _).
    fold s1 in Fd, Fb, Fp, Fq.
    unfold pushed in Fd, Fb, Fp, Fq. fields.
    cbn [isDrawing brush pathPoints pressurePoints set_pathPoints set_pressurePoints]
      in Fd, Fb, Fp, Fq.
    assert (Hs : segments s1 = segments s ++ [mkSegment p0 lastPoint (global m) (global m)
                                                pressure1 (pressure m)]).
    { unfold s1. rewrite drawSplineSegment_segments. reflexivity. }
    destruct (IH s1 (global m)) as (Id & Ilen & Il & Ip & Ib & segs & Is & Ij & If).
    + rewrite Fd. exact Hd.
    + rewrite Fp, Fq, !length_app, Hlen. reflexivity.
    + rewrite Fp, len_app. change (len [global m]) with 1%Z.
      replace (len (pathPoints s) + 1 - 1)%Z with (len (pathPoints s)) by lia.
      apply index_last.
    + exact Hc.
    + cbv zeta. split; [exact Id |]. split; [exact Ilen |].
      split.
      { rewrite Il. cbn [map]. rewrite last_cons. reflexivity. }
      split; [rewrite Ip, Fp, <- app_assoc; reflexivity |].
      split; [rewrite Ib, Fb; reflexivity |].
      exists (mkSegment p0 lastPoint (global m) (global m) pressure1 (pressure m) :: segs).
      split; [rewrite Is, Hs, <- app_assoc; reflexivity |].
      split; [cbn [map joints]; rewrite Ij; reflexivity |].
      constructor; [reflexivity | exact If].
Qed.

(** X19: a stroke is covered without gaps.  From any state, a pointer down
    at [P0], accepted moves to [P1], ..., [Pk] ([k >= 1]) and a pointer up
    make [k + 1] calls of [drawSplineSegment]: one from [P(i-1)] to [P(i)]
    for each move, in order, and a second one from [P(k-1)] to [P(k)] at the
    end; each has [p3 = p2].  The stroke then is over, the path is empty and
    a flatten is pending. *)
Theorem stroke_joins_consecutive_points (s : State) (down up final : PointerEvent)
    (moves : list PointerEvent) :
  chained (global down) (moves ++ [final]) ->
  let s' := run random generateTexture
              (Pointer pointerdown down
               :: map (Pointer pointermove) (moves ++ [final])
               ++ [Pointer pointerup up]) s in
  let points := map global (moves ++ [final]) in
  map segmentEnds (newSegments s s')
  = joints (global down) points
    ++ [(last (map global moves) (global down), global final)] /\
  length (newSegments s s') = (length moves + 2)%nat /\
  Forall (fun seg => seg_p3 seg = seg_p2 seg) (newSegments s s') /\
  isDrawing s' = false /\ pathPoints s' = [] /\ pressurePoints s' = [] /\
  timers s' <> [].
Proof.
  intros Hc s' points. apply chained_snoc in Hc. destruct Hc as [Hc Hacc].
  set (s0 := onDrawStart down s).
  destruct (accepted_moves moves s0 (global down)) as (Id & Ilen & Il & Ip & Ib & segs & Is & Ij & If);
    [reflexivity | reflexivity | reflexivity | exact Hc |].
  set (sk := run random generateTexture (map (Pointer pointermove) moves) s0) in *.
  set (lastPoint := last (map global moves) (global down)) in *.
  destruct (onDrawMove_segment random final sk lastPoint Id Ilen Il Hacc)
    as (pressure1 & Hq & EM).
  pose proof (onDrawEnd_after_move random final sk
                (match index (pathPoints sk) (len (pathPoints sk) - 2) with
                 | Some p => p
                 | None => lastPoint
                 end) lastPoint pressure1 Id Ilen Il Hq) as EE.
  cbv zeta in EE.
  set (p0 := match index (pathPoints sk) (len (pathPoints sk) - 2) with
             | Some p => p
             | None => lastPoint
             end) in *.
  set (s1 := drawSplineSegment random p0 lastPoint (global final) (global final)
               pressure1 (pressure final) (pushed final sk)) in *.
  set (s1' := drawSplineSegment random p0 lastPoint (global final) (global final)
                pressure1 (orNumber (pressure final) pressure1) s1) in *.
  assert (E : s' = scheduleFlatten (strokeReset s1')).
  { unfold s'. cbn [run step InputManager_emit after]. fold s0.
    rewrite run_app, map_app, run_app. fold sk.
    cbn [map run step InputManager_emit]. rewrite EM. cbn [after]. rewrite EE.
    reflexivity. }
  destruct (scheduleFlatten_frame (strokeReset s1'))
    as (Fd & _ & Fp & Fq & _ & _ & _ & _ & Fs & _).
  assert (S1 : segments s1' = segments s ++ segs
               ++ [mkSegment p0 lastPoint (global final) (global final) pressure1
                     (pressure final);
                   mkSegment p0 lastPoint (global final) (global final) pressure1
                     (orNumber (pressure final) pressure1)]).
  { unfold s1', s1. rewrite !drawSplineSegment_segments.
    change (segments (pushed final sk)) with (segments sk). rewrite Is.
    change (segments s0) with (segments s). rewrite <- !app_assoc. reflexivity. }
  assert (N : newSegments s s' = segs
              ++ [mkSegment p0 lastPoint (global final) (global final) pressure1
                    (pressure final);
                  mkSegment p0 lastPoint (global final) (global final) pressure1
                    (orNumber (pressure final) pressure1)]).
  { unfold newSegments. rewrite E, Fs.
    change (segments (strokeReset s1')) with (segments s1').
    rewrite S1. apply skipn_app_exact. }
  assert (Ls : length segs = length moves).
  { rewrite <- (length_map segmentEnds), Ij.
    clear. generalize (global down) as a.
    induction moves as [| m moves IH]; intros a; [reflexivity |].
    cbn [map joints length]. rewrite IH. reflexivity. }
  rewrite N. split.
  { unfold points. rewrite map_app, map_app. cbn [map segmentEnds seg_p1 seg_p2].
    rewrite joints_snoc, Ij, <- app_assoc. reflexivity. }
  split; [rewrite length_app, Ls; cbn [length]; lia |].
  split.
  { apply Forall_app. split; [exact If |]. repeat constructor. }
  rewrite E, Fd, Fp, Fq.
  do 3 (split; [reflexivity |]).
  unfold scheduleFlatten, setTimeout.
  destruct (flattenTimeout (strokeReset s1')) as [j |]; [destruct (Nat.eqb j 0) |];
    fields; intros C; apply app_eq_nil in C; destruct C as [_ C]; discriminate.
Qed.

End WholeStrokes.

(** X19 on the stroke [(0,0)], [(10,0)], [(20,0)]. *)
Lemma stroke_joins_consecutive_points_witness :
  chained (global (pointerAt 0 0 0.5)) ([pointerAt 10 0 0.5] ++ [pointerAt 20 0 0.5]) /\
  length (newSegments (mounted newBrush)
            (run constantRandom renderOk
               (Pointer pointerdown (pointerAt 0 0 0.5)
                :: map (Pointer pointermove) ([pointerAt 10 0 0.5] ++ [pointerAt 20 0 0.5])
                ++ [Pointer pointerup (pointerAt 20 0 0)]) (mounted newBrush)))
  = 3%nat.
Proof.
  assert (H : chained (global (pointerAt 0 0 0.5))
                ([pointerAt 10 0 0.5] ++ [pointerAt 20 0 0.5])).
  { cbn [app chained]. split; [| split; [| exact I]];
      apply (accepted_flat _ _ 10); cbn; lra. }
  split; [exact H |].
  exact (proj1 (proj2 (stroke_joins_consecutive_points constantRandom renderOk
                         (mounted newBrush) (pointerAt 0 0 0.5) (pointerAt 20 0 0)
                         (pointerAt 20 0 0.5) [pointerAt 10 0 0.5] H))).
Defined.


(** ** More on the stamp compositor *)

Lemma Texture_eqb_eq (a b : Texture) : Texture_eqb a b = true <-> a = b.
Proof.
  destruct a, b; cbn [Texture_eqb]; split; intros H;
    try reflexivity; try discriminate;
    try (apply Nat.eqb_eq in H; subst; reflexivity);
    try (injection H as ->; apply Nat.eqb_refl).
Qed.

Lemma channel_range (c : Z) (k : Z) :
  0 <= IZR (Z.land (Z.shiftr c k) 255) / 255 <= 1.
Proof.
  assert (E : Z.land (Z.shiftr c k) 255 = (Z.shiftr c k mod 256)%Z).
  { change 255%Z with (Z.ones 8). rewrite Z.land_ones by lia. reflexivity. }
  rewrite E.
  pose proof (Z.mod_pos_bound (Z.shiftr c k) 256 ltac:(lia)) as [L U].
  apply IZR_le in L. assert (U' : (Z.shiftr c k mod 256 <= 255)%Z) by lia.
  apply IZR_le in U'. lra.
Qed.

Lemma channels_of_packed (r g b : Z) :
  (0 <= r < 256)%Z -> (0 <= g < 256)%Z -> (0 <= b < 256)%Z ->
  let c := (65536 * r + 256 * g + b)%Z in
  Z.land (Z.shiftr c 16) 255 = r /\ Z.land (Z.shiftr c 8) 255 = g /\
  Z.land c 255 = b.
Proof.
  intros Hr Hg Hb c. change 255%Z with (Z.ones 8).
  rewrite !Z.land_ones, !Z.shiftr_div_pow2 by lia.
  change (2 ^ 16)%Z with 65536%Z. change (2 ^ 8)%Z with 256%Z.
  unfold c. repeat split; Z.div_mod_to_equations; lia.
Qed.

Section CompositorMore.

Variable random : nat -> R.

(** X14: when the brush has a grain texture, every call of [paintBrush]
    adds two sprites, to the stage and to the trail alike: first the grain
    sprite, then the stamp, so the stamp is drawn above the grain.  The grain
    sprite sits at the position of the stamp, has the grain texture, size
    [stampSize * grain.scale], the rotation and the intensity of the grain,
    and the multiply blend mode.  When the grain texture is the empty
    texture, the call adds the stamp alone. *)
Theorem grain_is_painted_below_the_stamp (x y pressure : R) (s : State) :
  let s' := paintBrush random x y pressure s in
  let stampSize := size (brush s) * (if Rgt_dec pressure 0 then pressure else 0.5) in
  (shape_grainTexture (brush s) <> TextureEmpty ->
   exists grain stamp,
     trail s' = trail s ++ [grain; stamp] /\
     stage s' = stage s ++ [grain; stamp] /\
     sprite_texture grain = shape_grainTexture (brush s) /\
     sprite_texture stamp = shape_texture (brush s) /\
     sprite_x grain = sprite_x stamp /\ sprite_y grain = sprite_y stamp /\
     sprite_width grain = stampSize * grain_scale (brush s) /\
     sprite_height grain = stampSize * grain_scale (brush s) /\
     sprite_rotation grain = grain_rotation (brush s) /\
     sprite_alpha grain = grain_intensity (brush s) /\
     sprite_blendMode grain = BlendMultiply /\
     sprite_blendMode stamp = BlendNormal /\
     sprite_filters grain = []) /\
  (shape_grainTexture (brush s) = TextureEmpty ->
   exists stamp,
     trail s' = trail s ++ [stamp] /\
     stage s' = stage s ++ [stamp] /\
     sprite_texture stamp = shape_texture (brush s) /\
     sprite_blendMode stamp = BlendNormal).
Proof.
  intros s' stampSize. unfold s', stampSize, paintBrush. cbv zeta. fields.
  fold (actualPressure pressure).
  destruct (Texture_eqb (shape_grainTexture (brush s)) TextureEmpty) eqn:E.
  - apply Texture_eqb_eq in E. split; [intros N; contradiction |].
    intros _. cbn [negb]. fields. eexists. repeat split.
  - split.
    + intros _. cbn [negb]. fields. rewrite <- !app_assoc. cbn [app].
      eexists _, _. repeat split.
    + intros N. apply Texture_eqb_eq in N. congruence.
Qed.


(** X16: the tint of a stamp is a colour matrix whose colour rows ignore
    the texture and output the three channels of the brush colour, each in
    [[0, 1]], and whose alpha row passes the alpha of the texture through.
    For a colour [0xRRGGBB] the channels are [RR/255], [GG/255] and
    [BB/255]. *)
Theorem tint_replaces_colour_and_keeps_alpha (x y pressure : R) (s : State) :
  exists older stamp r g b,
    trail (paintBrush random x y pressure s) = older ++ [stamp] /\
    sprite_filters stamp
    = [[0; 0; 0; 0; r;  0; 0; 0; 0; g;  0; 0; 0; 0; b;  0; 0; 0; 1; 0]] /\
    0 <= r <= 1 /\ 0 <= g <= 1 /\ 0 <= b <= 1 /\
    (forall rr gg bb,
       (0 <= rr < 256)%Z -> (0 <= gg < 256)%Z -> (0 <= bb < 256)%Z ->
       color (brush s) = (65536 * rr + 256 * gg + bb)%Z ->
       r = IZR rr / 255 /\ g = IZR gg / 255 /\ b = IZR bb / 255).
Proof.
  assert (G : forall rr gg bb,
            (0 <= rr < 256)%Z -> (0 <= gg < 256)%Z -> (0 <= bb < 256)%Z ->
            color (brush s) = (65536 * rr + 256 * gg + bb)%Z ->
            IZR (Z.land (Z.shiftr (color (brush s)) 16) 255) / 255 = IZR rr / 255 /\
            IZR (Z.land (Z.shiftr (color (brush s)) 8) 255) / 255 = IZR gg / 255 /\
            IZR (Z.land (color (brush s)) 255) / 255 = IZR bb / 255).
  { intros rr gg bb Hr Hg Hb Ec. rewrite Ec.
    destruct (channels_of_packed rr gg bb Hr Hg Hb) as (E1 & E2 & E3).
    cbv zeta in E1, E2, E3. rewrite E1, E2, E3. repeat split. }
  unfold paintBrush. cbv zeta. fields.
  destruct (Texture_eqb (shape_grainTexture (brush s)) TextureEmpty);
    cbn [negb]; fields; eexists _, _, _, _, _;
    (split; [reflexivity |]); cbn [sprite_filters colorMatrix];
    (split; [reflexivity |]);
    (split; [apply channel_range |]); (split; [apply channel_range |]);
    (split; [apply (channel_range _ 0) |]); exact G.
Qed.

End CompositorMore.



(** ** Loading the brush *)

Section LoadingFacts.

Variable Assets_load : String.string -> option Texture.

(** X20: [loadTexture] rejects exactly when the shape texture cannot be
    loaded, and then leaves the brush as it was.  A grain texture that
    cannot be loaded never makes it reject: the grain becomes the empty
    texture.  Whatever happens, only the two textures of the brush can
    change. *)
Theorem loadTexture_survives_a_missing_grain (shapeUrl : String.string)
    (grainUrl : option String.string) (b : Brush) :
  let r := Loading.loadTexture Assets_load shapeUrl grainUrl b in
  let b' := settledBrush r in
  ((exists b0, r = Rejected b0) <-> Assets_load shapeUrl = None) /\
  (Assets_load shapeUrl = None -> r = Rejected b) /\
  (forall texture, Assets_load shapeUrl = Some texture ->
     shape_texture b' = texture /\
     (forall url, grainUrl = Some url -> url <> String.EmptyString ->
        shape_grainTexture b'
        = match Assets_load url with Some grain => grain | None => TextureEmpty end) /\
     (grainUrl = None \/ grainUrl = Some String.EmptyString ->
        shape_grainTexture b' = shape_grainTexture b)) /\
  stroke_spacing b' = stroke_spacing b /\ stroke_jitter b' = stroke_jitter b /\
  stroke_falloff b' = stroke_falloff b /\ grain_scale b' = grain_scale b /\
  grain_intensity b' = grain_intensity b /\ grain_rotation b' = grain_rotation b /\
  size b' = size b /\ color b' = color b /\ alpha b' = alpha b.
Proof.
  intros r b'. unfold b', r, Loading.loadTexture.
  destruct (Assets_load shapeUrl) as [texture |] eqn:Es.
  - cbv zeta.
    assert (K : forall url, String.eqb url String.EmptyString = true <-> url = String.EmptyString)
      by (intros url; apply String.eqb_eq).
    split; [split; [intros [b0 H] | discriminate] |].
    { destruct grainUrl as [url |]; [| discriminate].
      destruct (String.eqb url String.EmptyString); [discriminate |].
      destruct (Assets_load url); discriminate. }
    split; [discriminate |].
    split.
    { intros t Et. injection Et as <-.
      destruct grainUrl as [url |].
      - destruct (String.eqb url String.EmptyString) eqn:Eu.
        + apply K in Eu. subst url. cbn [settledBrush].
          split; [reflexivity |]. split; [| reflexivity].
          intros url E N. injection E as <-. contradiction.
        + assert (Nu : url <> String.EmptyString).
          { intros C. apply K in C. congruence. }
          destruct (Assets_load url) as [grain |] eqn:Eg; cbn [settledBrush];
            (split; [reflexivity |]); (split; [| intros [C | C]; [discriminate | congruence]]);
            intros u E _; injection E as <-; rewrite Eg; reflexivity.
      - cbn [settledBrush]. split; [reflexivity |]. split; [discriminate | reflexivity]. }
    destruct grainUrl as [url |]; [destruct (String.eqb url String.EmptyString); [| destruct (Assets_load url)] |];
      cbn [settledBrush]; repeat split.
  - split; [split; [reflexivity | intros _; exists b; reflexivity] |].
    split; [reflexivity |]. split; [discriminate |].
    cbn [settledBrush]. repeat split.
Qed.

End LoadingFacts.

(** ** The canvas as mounted *)

Section MountedFacts.

Variable Assets_load : String.string -> option Texture.
Variable random : nat -> R.
Variable generateTexture : Texture -> list Sprite -> option Texture.

Lemma plain_frame (s s' : State) : render s' = render s -> plain s -> plain s'.
Proof.
  unfold render, plain. intros E H.
  injection E as -> _ -> _ _ -> -> -> ->. exact H.
Qed.

Lemma plain_paint (x y pressure : R) (s : State) :
  plain s -> plain (paintBrush random x y pressure s).
Proof.
  intros (Hg & Hj & Hn & Hf).
  assert (G : Texture_eqb (shape_grainTexture (brush s)) TextureEmpty = true)
    by (rewrite Hg; reflexivity).
  unfold plain, paintBrush. cbv zeta. fields. rewrite G. cbn [negb]. fields.
  split; [exact Hg |]. split; [exact Hj |].
  split; [rewrite length_app, Hn; cbn [length]; lia |].
  apply Forall_app. split.
  - eapply Forall_impl; [| exact Hf].
    intros sp (Hb & Ht & r & Hr & Hx & Hy). split; [exact Hb |]. split; [exact Ht |].
    exists r. split; [| split; assumption].
    rewrite nth_error_app1; [exact Hr |].
    apply nth_error_Some. congruence.
  - constructor; [| constructor]. cbn [sprite_blendMode sprite_texture sprite_id sprite_x sprite_y].
    split; [reflexivity |]. split; [reflexivity |].
    exists (mkStampRequest x y pressure). split.
    + rewrite Hn, nth_error_app2, Nat.sub_diag by lia. reflexivity.
    + cbn [req_x req_y]. rewrite Hj. split; ring.
Qed.

Lemma plain_drain (s : State) : plain s -> plain (drainTrail s).
Proof.
  intros (Hg & Hj & Hn & Hf). rewrite drainTrail_spec. unfold plain. fields.
  repeat split; try assumption. constructor.
Qed.

Lemma onMountBrush_facts :
  shape_texture (Loading.onMountBrush Assets_load)
  = match Assets_load Loading.brushUrl with
    | Some texture => texture
    | None => TextureFallback
    end /\
  shape_grainTexture (Loading.onMountBrush Assets_load) = TextureEmpty /\
  stroke_jitter (Loading.onMountBrush Assets_load) = 0.
Proof.
  unfold Loading.onMountBrush, Loading.loadTexture.
  destruct (Assets_load Loading.brushUrl); repeat split.
Qed.

(** X21: the canvas as [onMount] leaves it paints plain stamps.  Whether or
    not the brush image loads, the brush has a shape texture (the image or
    the generated fallback), no grain and no jitter; so in every state
    reached from there each stamp request has made exactly one sprite, and
    every sprite of the trail is a stamp with the shape texture, placed
    exactly at the position of its request, whatever [Math.random]
    returns. *)
Theorem mounted_canvas_paints_plain_stamps (evs : list Event) :
  let b := Loading.onMountBrush Assets_load in
  let s := run random generateTexture evs (mounted b) in
  shape_texture b
  = match Assets_load Loading.brushUrl with
    | Some texture => texture
    | None => TextureFallback
    end /\
  shape_texture (brush s) = shape_texture b /\
  nextSprite s = length (requests s) /\
  (forall sp, In sp (trail s) ->
     sprite_blendMode sp = BlendNormal /\
     sprite_texture sp = shape_texture b /\
     exists r, nth_error (requests s) (sprite_id sp) = Some r /\
               sprite_x sp = req_x r /\ sprite_y sp = req_y r).
Proof.
  intros b s. destruct onMountBrush_facts as (Ht & Hg & Hj). fold b in Ht, Hg, Hj.
  split; [exact Ht |].
  assert (P : plain s /\ shape_texture (brush s) = shape_texture b).
  { unfold s.
    apply (run_invariant random generateTexture
             (fun s => plain s /\ shape_texture (brush s) = shape_texture b)).
    - intros s0 s1 E [H1 H2]. split; [exact (plain_frame s0 s1 E H1) |].
      unfold render in E. injection E as _ _ _ _ _ _ E _ _. congruence.
    - intros x y pressure s0 [H1 H2]. split; [apply plain_paint; exact H1 |].
      rewrite paintBrush_brush. exact H2.
    - intros s0 [H1 H2]. split; [apply plain_drain; exact H1 |].
      rewrite drainTrail_spec. exact H2.
    - split; [| reflexivity]. unfold plain, mounted. fields.
      repeat split; try assumption. constructor. }
  destruct P as [(_ & _ & Hn & Hf) Hs].
  split; [exact Hs |]. split; [exact Hn |].
  intros sp Hin. rewrite Forall_forall in Hf.
  destruct (Hf sp Hin) as (Hb & Hx & r & Hr & Hxx & Hyy).
  split; [exact Hb |]. split; [congruence |]. exists r. repeat split; assumption.
Qed.

End MountedFacts.

(** ** Colours as strings *)

Section HexStrings.

Import Ascii.
Local Open Scope char_scope.

Lemma round_clamp_range (n : R) :
  (0 <= round (Rmax 0 (Rmin 255 n)) <= 255)%Z.
Proof.
  unfold round.
  set (x := Rmax 0 (Rmin 255 n)).
  assert (Hx : 0 <= x <= 255).
  { unfold x. split; [apply Rmax_l |].
    apply Rmax_lub; [lra | apply Rmin_l]. }
  destruct (base_Int_part (x + 0.5)) as [Hl Hu].
  split.
  - assert (H : (-1 < Int_part (x + 0.5))%Z).
    { apply lt_IZR. lra. }
    lia.
  - assert (H : (Int_part (x + 0.5) < 256)%Z).
    { apply lt_IZR. lra. }
    lia.
Qed.

(** Every integer of a channel is written with two digits that read back as
    the same integer: checked on the 256 of them. *)
Lemma toString16_digits (z : Z) :
  (0 <= z <= 255)%Z ->
  exists c1 c2,
    (let hex := ColorUtils.toString16 z in
     if Nat.eqb (String.length hex) 1 then String.String "0" hex else hex)
    = String.String c1 (String.String c2 String.EmptyString)
    /\ ColorUtils.pair16 c1 c2 = Some z.
Proof.
  intros Hz.
  assert (Hall : forallb (fun n =>
            match (let hex := ColorUtils.toString16 (Z.of_nat n) in
                   if Nat.eqb (String.length hex) 1
                   then String.String "0" hex else hex) with
            | String.String c1 (String.String c2 String.EmptyString) =>
                match ColorUtils.pair16 c1 c2 with
                | Some v => Z.eqb v (Z.of_nat n)
                | None => false
                end
            | _ => false
            end) (seq 0 256) = true) by (vm_compute; reflexivity).
  rewrite forallb_forall in Hall.
  specialize (Hall (Z.to_nat z)).
  rewrite Z2Nat.id in Hall by lia.
  assert (Hin : In (Z.to_nat z) (seq 0 256)) by (apply in_seq; lia).
  specialize (Hall Hin).
  destruct (let hex := ColorUtils.toString16 z in
            if Nat.eqb (String.length hex) 1
            then String.String "0" hex else hex) as [| c1 [| c2 [| c3 rest]]];
    try discriminate.
  exists c1, c2. split; [reflexivity |].
  destruct (ColorUtils.pair16 c1 c2) as [v |]; [| discriminate].
  apply Z.eqb_eq in Hall. now subst.
Qed.

Lemma toHex_digits (n : R) :
  exists c1 c2,
    ColorUtils.toHex n = String.String c1 (String.String c2 String.EmptyString)
    /\ ColorUtils.pair16 c1 c2 = Some (round (Rmax 0 (Rmin 255 n))).
Proof. exact (toString16_digits _ (round_clamp_range n)). Qed.

(** X22: A colour written by [rgbToHex] is read back by [hexToRgb] as the
    three channels clamped to 0..255 and rounded to the nearest integer: the
    string always matches the pattern, whatever the numbers were. *)
Theorem hex_string_round_trip (r g b : R) :
  ColorUtils.hexToRgb (ColorUtils.rgbToHex r g b)
  = Some (mkRGB (IZR (round (Rmax 0 (Rmin 255 r))))
                (IZR (round (Rmax 0 (Rmin 255 g))))
                (IZR (round (Rmax 0 (Rmin 255 b))))).
Proof.
  unfold ColorUtils.rgbToHex.
  destruct (toHex_digits r) as (r1 & r2 & -> & Hr).
  destruct (toHex_digits g) as (g1 & g2 & -> & Hg).
  destruct (toHex_digits b) as (b1 & b2 & -> & Hb).
  cbn [String.append ColorUtils.hexToRgb].
  rewrite Hr, Hg, Hb. reflexivity.
Qed.

Lemma hexValue_range (c : ascii) (v : Z) :
  ColorUtils.hexValue c = Some v -> (0 <= v <= 15)%Z.
Proof.
  unfold ColorUtils.hexValue.
  set (code := Z.of_nat (nat_of_ascii c)).
  destruct ((48 <=? code)%Z && (code <=? 57)%Z) eqn:E1.
  { apply andb_prop in E1. rewrite !Z.leb_le in E1. intros H.
    replace v with (code - 48)%Z by congruence. lia. }
  destruct ((97 <=? code)%Z && (code <=? 102)%Z) eqn:E2.
  { apply andb_prop in E2. rewrite !Z.leb_le in E2. intros H.
    replace v with (code - 87)%Z by congruence. lia. }
  destruct ((65 <=? code)%Z && (code <=? 70)%Z) eqn:E3; [| discriminate].
  apply andb_prop in E3. rewrite !Z.leb_le in E3. intros H.
  replace v with (code - 55)%Z by congruence. lia.
Qed.

Lemma pair16_range (c1 c2 : ascii) (z : Z) :
  ColorUtils.pair16 c1 c2 = Some z -> (0 <= z <= 255)%Z.
Proof.
  unfold ColorUtils.pair16.
  destruct (ColorUtils.hexValue c1) as [v1 |] eqn:E1; [| discriminate].
  destruct (ColorUtils.hexValue c2) as [v2 |] eqn:E2; [| discriminate].
  intros H. replace z with (16 * v1 + v2)%Z by congruence.
  apply hexValue_range in E1. apply hexValue_range in E2. lia.
Qed.

Lemma six_digits (body : String.string) (c : RGB) :
  match body with
  | String.String c1 (String.String c2 (String.String c3 (String.String c4
      (String.String c5 (String.String c6 String.EmptyString))))) =>
      match ColorUtils.pair16 c1 c2, ColorUtils.pair16 c3 c4,
            ColorUtils.pair16 c5 c6 with
      | Some r, Some g, Some b => Some (mkRGB (IZR r) (IZR g) (IZR b))
      | _, _, _ => None
      end
  | _ => None
  end = Some c ->
  String.length body = 6%nat
  /\ exists r g b : Z,
       c = mkRGB (IZR r) (IZR g) (IZR b)
       /\ (0 <= r <= 255)%Z /\ (0 <= g <= 255)%Z /\ (0 <= b <= 255)%Z.
Proof.
  destruct body as [| c1 [| c2 [| c3 [| c4 [| c5 [| c6 [| c7 rest]]]]]]];
    try discriminate.
  destruct (ColorUtils.pair16 c1 c2) as [r |] eqn:Er; [| discriminate].
  destruct (ColorUtils.pair16 c3 c4) as [g |] eqn:Eg; [| discriminate].
  destruct (ColorUtils.pair16 c5 c6) as [b |] eqn:Eb; [| discriminate].
  intros [= <-]. split; [reflexivity |].
  exists r, g, b. split; [reflexivity |].
  split; [| split]; eapply pair16_range; eassumption.
Qed.

(** X23: [hexToRgb] answers only for six hexadecimal digits, with or
    without a leading [#]: a shorter form such as three digits gives [null].
    The channels it returns are integers from 0 to 255. *)
Theorem hexToRgb_reads_six_digits_only (hex : String.string) (c : RGB) :
  ColorUtils.hexToRgb hex = Some c ->
  (String.length hex = 6%nat
   \/ exists body, hex = String.String "#" body /\ String.length body = 6%nat)
  /\ exists r g b : Z,
       c = mkRGB (IZR r) (IZR g) (IZR b)
       /\ (0 <= r <= 255)%Z /\ (0 <= g <= 255)%Z /\ (0 <= b <= 255)%Z.
Proof.
  unfold ColorUtils.hexToRgb.
  destruct hex as [| a rest]; [discriminate |].
  destruct (Ascii.ascii_dec a "#") as [-> | N].
  - cbv beta iota zeta. intros H. apply (six_digits rest) in H. destruct H as [L H].
    split; [right; eauto | exact H].
  - assert (E : match String.String a rest with
                | String.String "#" rest' => rest'
                | _ => String.String a rest
                end = String.String a rest).
    { destruct a as [[] [] [] [] [] [] [] []]; try reflexivity.
      now contradiction N. }
    rewrite E. cbv zeta. intros H. apply (six_digits (String.String a rest)) in H. destruct H as [L H].
    split; [left; exact L | exact H].
Qed.

Lemma hexToRgb_reads_six_digits_only_witness :
  let hex := String.String "F" (String.String "F" (String.String "8"
               (String.String "8" (String.String "0" (String.String "0"
                  String.EmptyString))))) in
  (String.length hex = 6%nat
   \/ exists body, hex = String.String "#" body /\ String.length body = 6%nat)
  /\ exists r g b : Z,
       mkRGB 255 136 0 = mkRGB (IZR r) (IZR g) (IZR b)
       /\ (0 <= r <= 255)%Z /\ (0 <= g <= 255)%Z /\ (0 <= b <= 255)%Z.
Proof.
  intros hex.
  apply (hexToRgb_reads_six_digits_only hex (mkRGB 255 136 0)).
  reflexivity.
Defined.

End HexStrings.

(** ** Hue, saturation and lightness *)

Ltac decide_order :=
  repeat match goal with
         | |- context [Rge_dec ?a ?b] => destruct (Rge_dec a b); try (exfalso; lra)
         | |- context [Rlt_dec ?a ?b] => destruct (Rlt_dec a b); try (exfalso; lra)
         | |- context [Rgt_dec ?a ?b] => destruct (Rgt_dec a b); try (exfalso; lra)
         | |- context [Rle_dec ?a ?b] => destruct (Rle_dec a b); try (exfalso; lra)
         | |- context [Req_dec_T ?a ?b] =>
             let N := fresh "N" in
             destruct (Req_dec_T a b) as [? | N];
             try (exfalso; lra); try (exfalso; apply N; lra)
         end.

Lemma max3_1 (a b c : R) : b <= a -> c <= a -> Rmax (Rmax a b) c = a.
Proof. intros. rewrite (Rmax_left a b), Rmax_left; lra. Qed.

Lemma min3_1 (a b c : R) : a <= b -> a <= c -> Rmin (Rmin a b) c = a.
Proof. intros. rewrite (Rmin_left a b), Rmin_left; lra. Qed.

(** X26: A hue outside the half-open circle, 1 included, is not wrapped: the
    colour comes out gray, at the level [l - c / 2] for the chroma [c], and
    [rgbToHsl] reads it back with hue and saturation 0. *)
Theorem hue_outside_the_circle_gives_gray (h s l : R) :
  h < 0 \/ 1 <= h ->
  let m := l - (1 - Rabs (2 * l - 1)) * s / 2 in
  Hsl.hslToRgb h s l = mkRGB m m m
  /\ Hsl.rgbToHsl m m m = mkHSL 0 0 (m * 100).
Proof.
  intros Hh m. split.
  - unfold Hsl.hslToRgb. fold m.
    generalize ((1 - Rabs (2 * l - 1)) * s * (1 - Rabs (jsRem (h * 6) 2 - 1))).
    generalize ((1 - Rabs (2 * l - 1)) * s). clearbody m.
    intros c x. unfold Hsl.geb, Hsl.ltb.
    destruct Hh; decide_order; cbn [andb]; f_equal; lra.
  - clearbody m. unfold Hsl.rgbToHsl.
    rewrite max3_1, min3_1 by lra.
    decide_order; f_equal; lra.
Qed.

Lemma hue_outside_the_circle_gives_gray_witness :
  let m := 1 / 2 - (1 - Rabs (2 * (1 / 2) - 1)) * 1 / 2 in
  Hsl.hslToRgb 1 1 (1 / 2) = mkRGB m m m
  /\ Hsl.rgbToHsl m m m = mkHSL 0 0 (m * 100).
Proof. apply (hue_outside_the_circle_gives_gray 1 1 (1 / 2)). right. lra. Defined.

(** ** The toolbar *)

Lemma snap_axis (p w W : R) :
  let new := Rmax 0 (Rmin p (W - w)) in
  let r := if Rlt_dec new 50 then 0
           else if Rlt_dec (W - (new + w)) 50 then W - w else new in
  (r = 0 \/ r = W - w \/ (50 <= r /\ r + w + 50 <= W))
  /\ (w <= W -> 0 <= r <= W - w)
  /\ (let new' := Rmax 0 (Rmin r (W - w)) in
      (if Rlt_dec new' 50 then 0
       else if Rlt_dec (W - (new' + w)) 50 then W - w else new') = r).
Proof.
  intros new r. unfold r, new.
  unfold Rmax, Rmin.
  repeat match goal with
         | |- context [Rle_dec ?a ?b] =>
             lazymatch a with
             | context [Rle_dec] => fail
             | _ => lazymatch b with
                    | context [Rle_dec] => fail
                    | _ => destruct (Rle_dec a b)
                    end
             end
         end;
  repeat match goal with
         | |- context [Rlt_dec ?a ?b] => destruct (Rlt_dec a b)
         end;
    try (exfalso; lra);
    (split; [| split];
     [ first [left; lra | right; left; lra | right; right; lra]
     | intros; lra
     | lra ]).
Qed.

(** X27: Snapping the toolbar puts each coordinate on an edge of the window
    or at least 50 pixels away from both edges; a toolbar that fits in the
    window ends wholly inside it, wherever it was dragged to; and snapping a
    second time changes nothing. *)
Theorem snapToEdge_settles_in_the_window (pos : Point) (w h W H : R) :
  let p := Toolbar.snapToEdge pos w h W H in
  (px p = 0 \/ px p = W - w \/ (50 <= px p /\ px p + w + 50 <= W))
  /\ (py p = 0 \/ py p = H - h \/ (50 <= py p /\ py p + h + 50 <= H))
  /\ (w <= W -> 0 <= px p /\ px p + w <= W)
  /\ (h <= H -> 0 <= py p /\ py p + h <= H)
  /\ Toolbar.snapToEdge p w h W H = p.
Proof.
  intros p.
  destruct (snap_axis (px pos) w W) as (X1 & X2 & X3).
  destruct (snap_axis (py pos) h H) as (Y1 & Y2 & Y3).
  cbv zeta in X1, X2, X3, Y1, Y2, Y3.
  unfold p, Toolbar.snapToEdge. cbv zeta. cbn [px py].
  split; [exact X1 |]. split; [exact Y1 |].
  split; [intros Hw; specialize (X2 Hw); lra |].
  split; [intros Hh; specialize (Y2 Hh); lra |].
  rewrite X3, Y3. reflexivity.
Qed.

(** ** The colour wheel *)

Lemma wheelR_eq (d : ColorDisc.Disc) :
  ColorDisc.wheelR d = ColorDisc.size d * 0.286875.
Proof.
  unfold ColorDisc.wheelR, ColorDisc.hueRingInnerR, ColorDisc.hueRingOuterR,
    ColorDisc.half, ColorDisc.padding. lra.
Qed.

Lemma clamp_id (lo hi v : R) : lo <= v <= hi -> Rmax lo (Rmin hi v) = v.
Proof.
  intros H. rewrite Rmin_right by lra. rewrite Rmax_right by lra. reflexivity.
Qed.

Lemma clamp_range (lo hi v : R) : lo <= hi -> lo <= Rmax lo (Rmin hi v) <= hi.
Proof.
  intros H. split; [apply Rmax_l |].
  apply Rmax_lub; [lra | apply Rmin_l].
Qed.

Lemma sqrt_le_radius (x y r : R) :
  0 <= r -> x * x + y * y <= r * r -> sqrt (x * x + y * y) <= r.
Proof.
  intros Hr H. rewrite <- (sqrt_square r) by lra.
  apply sqrt_le_1_alt. exact H.
Qed.

(** A point of the square of the wheel is read as a colour that is drawn at
    the same point. *)
Lemma wheel_inverse (r cx : R) :
  0 < r -> - r <= cx <= r ->
  Rmax 0 (Rmin 1 ((cx + r) / (r * 2))) * 0.25 / 0.25 * r * 2 - r = cx.
Proof.
  intros Hr Hc. rewrite clamp_id.
  - field. lra.
  - split.
    + apply Rmult_le_reg_r with (r * 2); [lra |].
      unfold Rdiv. rewrite Rmult_assoc, Rinv_l by lra. lra.
    + apply Rmult_le_reg_r with (r * 2); [lra |].
      unfold Rdiv. rewrite Rmult_assoc, Rinv_l by lra. lra.
Qed.

Lemma wheel_inverse_y (r cy : R) :
  0 < r -> - r <= cy <= r ->
  r - Rmax 0 (Rmin 1 ((r - cy) / (r * 2))) * 100 / 100 * r * 2 = cy.
Proof.
  intros Hr Hc. rewrite clamp_id.
  - field. lra.
  - split.
    + apply Rmult_le_reg_r with (r * 2); [lra |].
      unfold Rdiv. rewrite Rmult_assoc, Rinv_l by lra. lra.
    + apply Rmult_le_reg_r with (r * 2); [lra |].
      unfold Rdiv. rewrite Rmult_assoc, Rinv_l by lra. lra.
Qed.

Lemma disc_in_square (x y r : R) :
  0 <= r -> x * x + y * y <= r * r -> (- r <= x <= r) /\ (- r <= y <= r).
Proof. intros Hr H. split; split; nra. Qed.

(** The point of the circle on the ray through a point outside it. *)
Lemma on_circle (x y r : R) :
  0 < r -> sqrt (x * x + y * y) > r ->
  let scale := r / sqrt (x * x + y * y) in
  x * scale * (x * scale) + y * scale * (y * scale) = r * r.
Proof.
  intros Hr H scale. unfold scale.
  assert (Hd : sqrt (x * x + y * y) * sqrt (x * x + y * y) = x * x + y * y).
  { apply sqrt_sqrt. nra. }
  set (k := sqrt (x * x + y * y)) in *.
  transitivity ((x * x + y * y) * (r / k) * (r / k)); [ring |].
  rewrite <- Hd. field. lra.
Qed.

Section Wheel.

Import ColorDisc.

Lemma wheelR_pos (d : Disc) : 0 < size d -> 0 < wheelR d.
Proof. intros H. rewrite wheelR_eq. lra. Qed.

Lemma getWheelPosition_ext (d1 d2 : Disc) (c0 l0 : R) :
  size d1 = size d2 -> isExpanded d1 = isExpanded d2 ->
  animationProgress d1 = animationProgress d2 ->
  dotVisualPosition d1 = dotVisualPosition d2 ->
  getWheelPosition d1 c0 l0 = getWheelPosition d2 c0 l0.
Proof.
  intros Hs He Ha Hd. unfold getWheelPosition.
  rewrite !wheelR_eq, Hs, He, Ha, Hd. reflexivity.
Qed.

Lemma updateWheel_frame (timer : Z) (pos : Point) (d : Disc) :
  let d' := updateWheel timer pos d in
  size d' = size d /\ hue d' = hue d /\ isExpanded d' = isExpanded d
  /\ animationProgress d' = animationProgress d
  /\ dotVisualPosition d' = dotVisualPosition d
  /\ lastMousePos d' = Some (pointer d pos).
Proof.
  unfold updateWheel, pointer. cbv zeta.
  destruct (negb (isExpanded d)
            && (if Rlt_dec (animationProgress d) 1 then true else false)).
  - destruct (Rgt_dec _ _); cbn [size hue isExpanded animationProgress
                                 dotVisualPosition lastMousePos]; tauto.
  - cbn [size hue isExpanded animationProgress dotVisualPosition lastMousePos].
    tauto.
Qed.

(** The colour that [updateWheel] selects is the one at the pointer, after
    the pointer was brought back to the circle or to the square. *)
Lemma updateWheel_colour (timer : Z) (pos : Point) (d : Disc) :
  let d' := updateWheel timer pos d in
  let q := pointer d pos in
  let distance := sqrt (px q * px q + py q * py q) in
  exists cx cy,
    chroma d' = c (getOklchAtPosition d cx cy)
    /\ lightness d' = l (getOklchAtPosition d cx cy)
    /\ (isExpanded d = false -> animationProgress d < 1 ->
        (distance > wheelR d ->
         cx = px q * (wheelR d / distance) /\ cy = py q * (wheelR d / distance))
        /\ (distance <= wheelR d -> cx = px q /\ cy = py q))
    /\ (isExpanded d = true \/ 1 <= animationProgress d ->
        cx = Rmax (- wheelR d) (Rmin (wheelR d) (px q))
        /\ cy = Rmax (- wheelR d) (Rmin (wheelR d) (py q))).
Proof.
  unfold updateWheel, pointer. cbv zeta. cbn [px py].
  set (x := px pos - half d). set (y := py pos - half d).
  destruct (isExpanded d) eqn:Ee; cbn [negb andb].
  - eexists _, _. cbn [chroma lightness].
    split; [reflexivity |]. split; [reflexivity |].
    split; [discriminate |]. intros _. split; reflexivity.
  - destruct (Rlt_dec (animationProgress d) 1) as [La | Ga].
    + destruct (Rgt_dec (sqrt (x * x + y * y)) (wheelR d)) as [Gd | Ld].
      * eexists _, _. cbn [chroma lightness].
        split; [reflexivity |]. split; [reflexivity |].
        split.
        -- intros _ _. split; [intros _; split; reflexivity | intros; lra].
        -- intros [? | ?]; [discriminate | lra].
      * eexists _, _. cbn [chroma lightness].
        split; [reflexivity |]. split; [reflexivity |].
        split.
        -- intros _ _. split; [intros; lra | intros _; split; reflexivity].
        -- intros [? | ?]; [discriminate | lra].
    + eexists _, _. cbn [chroma lightness].
      split; [reflexivity |]. split; [reflexivity |].
      split; [intros; lra |]. intros _. split; reflexivity.
Qed.

(** A point of the square, in the disc as long as the wheel is a circle, is
    read as the colour whose dot is drawn at that point. *)
Lemma getWheelPosition_of_point (d : Disc) (cx cy : R) :
  0 < size d -> unstored d ->
  inSquare (wheelR d) (mkPoint cx cy) ->
  (isExpanded d = false -> animationProgress d < 0.5 ->
   inDisc (wheelR d) (mkPoint cx cy)) ->
  getWheelPosition d (c (getOklchAtPosition d cx cy))
                     (l (getOklchAtPosition d cx cy))
  = mkPoint cx cy.
Proof.
  intros Hs Hu [Hx Hy] Hdisc. cbn [px py] in Hx, Hy.
  pose proof (wheelR_pos d Hs) as Hr.
  unfold getWheelPosition, getOklchAtPosition. cbn [c l]. cbv zeta.
  rewrite (wheel_inverse (wheelR d) cx Hr Hx).
  rewrite (wheel_inverse_y (wheelR d) cy Hr Hy).
  assert (St : match dotVisualPosition d with
               | Some p => if Rgt_dec (animationProgress d) 0 then Some p else None
               | None => None
               end = None).
  { destruct Hu as [-> | Hu]; [reflexivity |].
    destruct (dotVisualPosition d); [| reflexivity].
    destruct (Rgt_dec _ _); [lra | reflexivity]. }
  rewrite St. clear St.
  destruct (isExpanded d); cbn [negb andb]; [reflexivity |].
  destruct (Rlt_dec (animationProgress d) 0.5) as [La | Ga]; [| reflexivity].
  specialize (Hdisc eq_refl La). unfold inDisc in Hdisc. cbn [px py] in Hdisc.
  destruct (Rgt_dec (sqrt _) _) as [G | _]; [| reflexivity].
  apply sqrt_le_radius in Hdisc; lra.
Qed.

Lemma dotAfter_eq (timer : Z) (pos : Point) (d : Disc) :
  dotAfter timer pos d
  = getWheelPosition d (chroma (updateWheel timer pos d))
                       (lightness (updateWheel timer pos d)).
Proof.
  unfold dotAfter. cbv zeta.
  destruct (updateWheel_frame timer pos d) as (F1 & _ & F3 & F4 & F5 & _).
  apply getWheelPosition_ext; assumption.
Qed.

(** X29: wherever the pointer is, after [updateWheel] the dot is drawn
    inside the square of the wheel: neither of its coordinates is further
    than [wheelR] from the centre. *)
Theorem dot_stays_in_the_square_of_the_wheel (timer : Z) (pos : Point) (d : Disc) :
  0 < size d -> unstored d ->
  inSquare (wheelR d) (dotAfter timer pos d).
Proof.
  intros Hs Hu.
  pose proof (wheelR_pos d Hs) as Hr.
  rewrite dotAfter_eq.
  destruct (updateWheel_colour timer pos d) as (cx & cy & -> & -> & Hn & He).
  cbv zeta in Hn, He.
  set (q := pointer d pos) in *.
  assert (Reg : inSquare (wheelR d) (mkPoint cx cy)
                /\ (isExpanded d = false -> animationProgress d < 1 ->
                    inDisc (wheelR d) (mkPoint cx cy))).
  { destruct (isExpanded d) eqn:E.
    - destruct He as [-> ->]; [now left |].
      split; [| discriminate].
      split; cbn [px py]; apply clamp_range; lra.
    - destruct (Rlt_dec (animationProgress d) 1) as [A | A].
      + destruct (Hn eq_refl A) as [Hout Hin].
        assert (D : inDisc (wheelR d) (mkPoint cx cy)).
        { unfold inDisc. cbn [px py].
          destruct (Rgt_dec (sqrt (px q * px q + py q * py q)) (wheelR d)) as [G | L].
          - destruct (Hout G) as [-> ->].
            rewrite (on_circle (px q) (py q) (wheelR d) Hr G). lra.
          - destruct (Hin (Rnot_gt_le _ _ L)) as [-> ->].
            apply Rnot_gt_le in L.
            destruct (Rle_dec (px q * px q + py q * py q) (wheelR d * wheelR d))
              as [? | N]; [assumption |].
            exfalso. apply Rnot_le_gt in N.
            assert (K : sqrt (wheelR d * wheelR d)
                        < sqrt (px q * px q + py q * py q)).
            { apply sqrt_lt_1_alt. split; [nra | lra]. }
            rewrite sqrt_square in K by lra. lra. }
        split; [| intros _ _; exact D].
        destruct (disc_in_square _ _ _ (Rlt_le _ _ Hr) D) as [Sx Sy].
        split; assumption.
      + destruct He as [-> ->]; [right; lra |].
        split; [| intros _ ?; lra].
        split; cbn [px py]; apply clamp_range; lra. }
  destruct Reg as [S D].
  rewrite getWheelPosition_of_point; try assumption.
  intros E A. apply D; [assumption | lra].
Qed.

End Wheel.

Lemma dot_stays_in_the_square_of_the_wheel_witness :
  let d := ColorDisc.mkDisc 200 0 0.1 65 false None 0 None None in
  inSquare (ColorDisc.wheelR d) (dotAfter 1 (mkPoint 400 400) d).
Proof.
  intros d.
  apply (dot_stays_in_the_square_of_the_wheel 1 (mkPoint 400 400) d).
  - cbn. lra.
  - left. reflexivity.
Defined.

(** ** Accuracy of the computed curve *)

Section Accuracy.

Variable rnd : R -> R.
Variable hypotFl : R -> R -> R.
Variables u eta omega : R.
Hypothesis Hrnd : rounds u eta omega rnd.
Hypothesis Hhypot : approximatesHypot u eta omega hypotFl.
Hypothesis Hsmall : small u eta.

(** X31: for control points with coordinates of at most [M], where [1 <= M]
    and [4096 M <= omega], and a parameter between -1 and 1, each coordinate
    of the computed point is within [100 (u + eta) M] of the coordinate of
    the exact curve point, and the exact curve point has coordinates of at
    most [13 M]. *)
Theorem computed_point_is_near_the_curve (t M : R) (p0 p1 p2 p3 : Point) :
  1 <= M -> 4096 * M <= omega ->
  -1 <= t <= 1 ->
  within M p0 -> within M p1 -> within M p2 -> within M p3 ->
  Rabs (px (Rounded.catmullRomPoint rnd t p0 p1 p2 p3)
        - px (catmullRomPoint t p0 p1 p2 p3)) <= 100 * (u + eta) * M /\
  Rabs (py (Rounded.catmullRomPoint rnd t p0 p1 p2 p3)
        - py (catmullRomPoint t p0 p1 p2 p3)) <= 100 * (u + eta) * M /\
  within (13 * M) (catmullRomPoint t p0 p1 p2 p3).
Proof.
  intros HM Ho Ht H0 H1 H2 H3.
  assert (Ht' : Rabs t <= 1025 / 1024) by (apply Rabs_le; lra).
  destruct (catmullRomPoint_error rnd u eta omega Hrnd Hsmall t M p0 p1 p2 p3
              HM Ho Ht' H0 H1 H2 H3) as [[Ex Mx] [Ey My]].
  split; [exact Ex |]. split; [exact Ey |]. split; assumption.
Qed.

(** X32: for control points with coordinates of at most [M] and [n >= 1]
    samples, where [1 <= M], [n (u + eta) <= 1/4] and [4096 n M <= omega],
    the computed estimate is the length of the polyline from [p1] through
    the [n] exact curve points at the parameters the loop computes, up to
    [1200 n^2 (u + eta) M]; so it is at least the distance from [p1] to the
    last of these points, less [1200 n^2 (u + eta) M]. *)
Theorem computed_length_is_near_the_polyline (M : R) (p0 p1 p2 p3 : Point)
    (n : nat) :
  (1 <= n)%nat -> 1 <= M ->
  INR n * (u + eta) <= 1 / 4 -> INR n * (4096 * M) <= omega ->
  within M p0 -> within M p1 -> within M p2 -> within M p3 ->
  Rabs (Rounded.catmullRomLength rnd hypotFl p0 p1 p2 p3 n
        - walk (sampleRounded rnd p0 p1 p2 p3 n) n 1 p1)
  <= 1200 * (INR n * INR n) * (u + eta) * M /\
  dist p1 (sampleRounded rnd p0 p1 p2 p3 n n)
  - 1200 * (INR n * INR n) * (u + eta) * M
  <= Rounded.catmullRomLength rnd hypotFl p0 p1 p2 p3 n.
Proof.
  intros Hn HM Hne Ho H0 H1 H2 H3.
  pose proof (catmullRomLength_error rnd hypotFl u eta omega Hrnd Hhypot Hsmall
                p0 p1 p2 p3 M HM H0 H1 H2 H3 n Hn Hne Ho) as E.
  split; [exact E |].
  apply Rabs_bounds in E.
  destruct n as [| k]; [lia |].
  pose proof (walk_chord (sampleRounded rnd p0 p1 p2 p3 (S k)) k 1 p1) as C.
  change (1 + k)%nat with (S k) in C. lra.
Qed.

End Accuracy.

Lemma computed_point_is_near_the_curve_witness :
  let u := 1 / 9007199254740992 in
  let p0 := mkPoint 0 0 in
  let p1 := mkPoint 1 2 in
  let p2 := mkPoint 4 3 in
  let p3 := mkPoint 8 1 in
  Rabs (px (Rounded.catmullRomPoint (inflate u) (1 / 2) p0 p1 p2 p3)
        - px (catmullRomPoint (1 / 2) p0 p1 p2 p3)) <= 100 * (u + 0) * 8.
Proof.
  intros u p0 p1 p2 p3.
  assert (U : 0 <= u) by (unfold u; lra).
  assert (HM : 1 <= 8) by lra.
  assert (Ho : 4096 * 8 <= 32768) by lra.
  assert (T : -1 <= 1 / 2 <= 1) by lra.
  assert (H0 : within 8 p0) by (split; cbn; rewrite Rabs_R0; lra).
  assert (H1 : within 8 p1) by (split; cbn; rewrite Rabs_right; lra).
  assert (H2 : within 8 p2) by (split; cbn; rewrite Rabs_right; lra).
  assert (H3 : within 8 p3) by (split; cbn; rewrite Rabs_right; lra).
  exact (proj1 (computed_point_is_near_the_curve (inflate u) u 0 32768
                  (rounds_inflate u 32768 U) small_double
                  (1 / 2) 8 p0 p1 p2 p3 HM Ho T H0 H1 H2 H3)).
Defined.

Lemma computed_length_is_near_the_polyline_witness :
  let u := 1 / 9007199254740992 in
  let p0 := mkPoint 0 0 in
  let p1 := mkPoint 1 2 in
  let p2 := mkPoint 4 3 in
  let p3 := mkPoint 8 1 in
  Rabs (Rounded.catmullRomLength (inflate u) (fun a b => inflate u (hypot a b))
          p0 p1 p2 p3 20
        - walk (sampleRounded (inflate u) p0 p1 p2 p3 20) 20 1 p1)
  <= 1200 * (INR 20 * INR 20) * (u + 0) * 8.
Proof.
  intros u p0 p1 p2 p3.
  assert (U : 0 <= u) by (unfold u; lra).
  assert (HM : 1 <= 8) by lra.
  assert (N : (1 <= 20)%nat) by lia.
  assert (I20 : INR 20 = 20) by (cbn [INR]; lra).
  assert (Ne : INR 20 * (u + 0) <= 1 / 4) by (rewrite I20; unfold u; lra).
  assert (Ho : INR 20 * (4096 * 8) <= 655360) by (rewrite I20; lra).
  assert (H0 : within 8 p0) by (split; cbn; rewrite Rabs_R0; lra).
  assert (H1 : within 8 p1) by (split; cbn; rewrite Rabs_right; lra).
  assert (H2 : within 8 p2) by (split; cbn; rewrite Rabs_right; lra).
  assert (H3 : within 8 p3) by (split; cbn; rewrite Rabs_right; lra).
  exact (proj1 (computed_length_is_near_the_polyline (inflate u)
                  (fun a b => inflate u (hypot a b)) u 0 655360
                  (rounds_inflate u 655360 U) (approximatesHypot_inflate u 655360 U)
                  small_double
                  8 p0 p1 p2 p3 20 N HM Ne Ho H0 H1 H2 H3)).
Defined.
